(** * Pitch Sampler: a shallow embedding of [Main.cpp]

    The development follows the source file class by class:

    - [Float], [Double]: the C++ [float] and [double] as IEEE-754 binary32
      and binary64 values of the Standard Library's [SpecFloat] (round to
      nearest, ties to even), with the conversions the code performs;
    - [PitchDetector]: the YIN detector, every array access checked;
    - [CircularAudioBuffer]: the ring buffer ([write], [copyTo]);
    - [Processor]: [BufferedRecorderSamplerProcessor];
    - [Editor]: the slider handler of [BufferedRecorderSamplerEditor], with
      [TrimRegion] for the order of the two trim bounds and [Binary32] for
      the values of the floats it compares;
    - [Voice]: [BufferedSamplerVoice].

    C++ [int] is [Z]; signed overflow is undefined in C++ and is not
    modelled.  An access outside an array is undefined behaviour in C++;
    here it is the result [Fault].  The functions of libm that the code
    calls ([std::log2], [std::pow]) are parameters of the sections that use
    them. *)

From Stdlib Require Import ZArith List Lia Bool.
From Stdlib Require Import SpecFloat.
From Stdlib Require String DecimalString.
Import ListNotations.
Local Open Scope Z_scope.

(** ** Results of code that may leave an array *)

Inductive array_id := BufferArg | YinBuffer | TrimmedChannel | NoDetector.

Inductive fault := OutOfBounds (a : array_id) (index : Z) | NullPointer.

Inductive result (A : Type) : Type :=
| Ok (a : A)
| Fault (f : fault).
Arguments Ok {A} a.
Arguments Fault {A} f.

Definition bind {A B} (r : result A) (k : A -> result B) : result B :=
  match r with
  | Ok a => k a
  | Fault f => Fault f
  end.

Notation "x <- r ;; k" := (bind r (fun x => k))
  (at level 61, r at next level, right associativity).

(** ** IEEE-754 numbers *)

(** C++ [float]: binary32. *)
Module Float.
Definition prec : Z := 24.
Definition emax : Z := 128.
Abbreviation t := spec_float (only parsing).

Definition add : t -> t -> t := SFadd prec emax.
Definition sub : t -> t -> t := SFsub prec emax.
Definition mul : t -> t -> t := SFmul prec emax.
Definition div : t -> t -> t := SFdiv prec emax.
(** [<], [<=], [>=] of C++: false as soon as an operand is NaN. *)
Definition ltb : t -> t -> bool := SFltb.
Definition leb : t -> t -> bool := SFleb.
Definition geb (x y : t) : bool := SFleb y x.

(** Conversion of an [int] (round to nearest even). *)
Definition of_int (z : Z) : t := binary_normalize prec emax z 0 false.
(** The decimal literal [n/d] (n, d small integers): the nearest float. *)
Definition lit (n d : Z) : t := div (of_int n) (of_int d).

Definition zero : t := S754_zero false.
Definition one : t := of_int 1.
Definition two : t := of_int 2.
Definition half : t := lit 1 2.

Definition is_zero (x : t) : Prop := exists s, x = S754_zero s.
Definition is_nan (x : t) : bool :=
  match x with S754_nan => true | _ => false end.
End Float.

(** C++ [double]: binary64. *)
Module Double.
Definition prec : Z := 53.
Definition emax : Z := 1024.
Abbreviation t := spec_float (only parsing).

Definition add : t -> t -> t := SFadd prec emax.
Definition sub : t -> t -> t := SFsub prec emax.
Definition mul : t -> t -> t := SFmul prec emax.
Definition div : t -> t -> t := SFdiv prec emax.
Definition ltb : t -> t -> bool := SFltb.
Definition leb : t -> t -> bool := SFleb.
Definition gtb (x y : t) : bool := SFltb y x.
Definition eqb : t -> t -> bool := SFeqb.

Definition of_int (z : Z) : t := binary_normalize prec emax z 0 false.
Definition lit (n d : Z) : t := div (of_int n) (of_int d).

Definition zero : t := S754_zero false.
Definition one : t := of_int 1.
Definition two : t := of_int 2.

(** [float] to [double]: exact. *)
Definition of_float (x : Float.t) : t :=
  match x with
  | S754_finite s m e => binary_normalize prec emax (cond_Zopp s (Zpos m)) e false
  | _ => x
  end.

(** [double] to [float]: rounds to nearest even, overflows to infinity. *)
Definition to_float (x : t) : Float.t :=
  match x with
  | S754_finite s m e =>
      binary_normalize Float.prec Float.emax (cond_Zopp s (Zpos m)) e s
  | _ => x
  end.

(** [static_cast<int>]: truncation toward zero.  The conversion of a NaN
    or an infinity is undefined in C++; the model gives it the value 0. *)
Definition to_int (x : t) : Z :=
  match x with
  | S754_finite s m e =>
      cond_Zopp s (if 0 <=? e then Z.shiftl (Zpos m) e else Z.shiftr (Zpos m) (- e))
  | _ => 0
  end.
End Double.

(** [juce::roundToInt]: the nearest integer, ties to the even one (JUCE adds
    1.5 * 2^52 to the value as a double and reads the low word).  NaN and
    the infinities give 0 there. *)
Definition round_half_even (m : Z) (k : Z) : Z :=
  (* m / 2^k for k > 0, to the nearest integer, ties to even *)
  let q := Z.shiftr m k in
  let r := m - Z.shiftl q k in
  let h := Z.shiftl 1 (k - 1) in
  if r <? h then q
  else if h <? r then q + 1
  else if Z.even q then q else q + 1.

Definition roundToInt (x : spec_float) : Z :=
  match x with
  | S754_finite s m e =>
      cond_Zopp s (if 0 <=? e then Z.shiftl (Zpos m) e else round_half_even (Zpos m) (- e))
  | _ => 0
  end.

(** ** Arrays *)

Section Arrays.
Context {A : Type}.

Definition in_range (i : Z) (l : list A) : bool :=
  (0 <=? i) && (i <? Z.of_nat (length l)).

(** A checked read [a[i]]. *)
Definition read (a : array_id) (d : A) (l : list A) (i : Z) : result A :=
  if in_range i l then Ok (nth (Z.to_nat i) l d) else Fault (OutOfBounds a i).

(** [l[i] = x] on a list; the list is unchanged when [i] is outside. *)
Fixpoint set_nth (l : list A) (i : nat) (x : A) : list A :=
  match l, i with
  | [], _ => []
  | _ :: t, O => x :: t
  | h :: t, S i' => h :: set_nth t i' x
  end.

(** A checked write [a[i] = x]. *)
Definition store (a : array_id) (l : list A) (i : Z) (x : A) : result (list A) :=
  if in_range i l then Ok (set_nth l (Z.to_nat i) x) else Fault (OutOfBounds a i).
End Arrays.

(** ** PitchDetector (YIN) *)

Module PitchDetector.

Record t := mk {
  sampleRate : Double.t;
  bufferSize : Z;
  yinBuffer : list Float.t
}.

(** The constructor: [yinBuffer.resize(bufferSize / 2)], zero-filled. *)
Definition new (sampleRate : Double.t) (bufferSize : Z) : t :=
  {| sampleRate := sampleRate;
     bufferSize := bufferSize;
     yinBuffer := repeat Float.zero (Z.to_nat (Z.quot bufferSize 2)) |}.

Definition size (yin : list Float.t) : Z := Z.of_nat (length yin).

Definition threshold : Float.t := Float.lit 1 10.

(** Step 1, inner loop: [for (j = 0; j < yinBuffer.size(); j++)], run for
    [n] more iterations from [j]; [acc] is the value of [yinBuffer[tau]]. *)
Fixpoint difference (buffer : list Float.t) (tau : Z) (n : nat) (j : Z)
    (acc : Float.t) : result Float.t :=
  match n with
  | O => Ok acc
  | S n' =>
      bj <- read BufferArg Float.zero buffer j ;;
      bjt <- read BufferArg Float.zero buffer (j + tau) ;;
      let delta := Float.sub bj bjt in
      difference buffer tau n' (j + 1) (Float.add acc (Float.mul delta delta))
  end.

(** Step 1, outer loop, [n] more iterations from [tau]. *)
Fixpoint differences (buffer : list Float.t) (n : nat) (tau : Z)
    (yin : list Float.t) : result (list Float.t) :=
  match n with
  | O => Ok yin
  | S n' =>
      d <- difference buffer tau (length yin) 0 Float.zero ;;
      yin' <- store YinBuffer yin tau d ;;
      differences buffer n' (tau + 1) yin'
  end.

(** Step 2: the cumulative mean normalisation, [n] more iterations. *)
Fixpoint normalise (n : nat) (tau : Z) (sum : Float.t) (yin : list Float.t)
    : result (list Float.t) :=
  match n with
  | O => Ok yin
  | S n' =>
      y <- read YinBuffer Float.zero yin tau ;;
      let sum' := Float.add sum y in
      yin' <- store YinBuffer yin tau (Float.mul y (Float.div (Float.of_int tau) sum')) ;;
      normalise n' (tau + 1) sum' yin'
  end.

(** Step 3: the scan [while (tau < yinBuffer.size())], [n] more iterations.
    [&&] evaluates its right operand only when the left one is true.
    [None]: the loop ended without a minimum. *)
Fixpoint scan (sampleRate : Double.t) (yin : list Float.t) (n : nat) (tau : Z)
    : result (option Float.t) :=
  match n with
  | O => Ok None
  | S n' =>
      y <- read YinBuffer Float.zero yin tau ;;
      if Float.ltb y threshold then
        yprev <- read YinBuffer Float.zero yin (tau - 1) ;;
        if Float.ltb y yprev then
          ynext <- read YinBuffer Float.zero yin (tau + 1) ;;
          if Float.ltb y ynext then
            let alpha := yprev in
            let beta := y in
            let gamma := ynext in
            let p :=
              Float.div (Float.mul Float.half (Float.sub alpha gamma))
                (Float.add (Float.sub alpha (Float.mul Float.two beta)) gamma) in
            Ok (Some (Double.to_float
                        (Double.div sampleRate
                           (Double.of_float (Float.add (Float.of_int tau) p)))))
          else scan sampleRate yin n' (tau + 1)
        else scan sampleRate yin n' (tau + 1)
      else scan sampleRate yin n' (tau + 1)
  end.

(** [detectPitch(buffer, size)]: the frequency and the detector with its
    [yinBuffer] as the call leaves it.  The code never reads [size]. *)
Definition detectPitch (pd : t) (buffer : list Float.t) (size_arg : Z)
    : result (Float.t * t) :=
  let h := length (yinBuffer pd) in
  yin1 <- differences buffer h 0 (yinBuffer pd) ;;
  yin2 <- store YinBuffer yin1 0 Float.one ;;
  yin3 <- normalise (h - 1) 1 Float.zero yin2 ;;
  r <- scan (sampleRate pd) yin3 (h - 2) 2 ;;
  let pd' := {| sampleRate := sampleRate pd; bufferSize := bufferSize pd;
                yinBuffer := yin3 |} in
  match r with
  | Some f => Ok (f, pd')
  | None => Ok (Float.zero, pd')
  end.

Section WithLog2.
(** [std::log2] on floats (libm). *)
Variable std_log2 : Float.t -> Float.t.

Definition midiNoteFromFrequency (frequency : Float.t) : Z :=
  if Float.leb frequency Float.zero then -1
  else
    (* A4 = 440Hz = 69th midi note *)
    let midiNote :=
      Float.add (Float.mul (Float.of_int 12)
                           (std_log2 (Float.div frequency (Float.of_int 440))))
                (Float.of_int 69) in
    roundToInt midiNote.
End WithLog2.

End PitchDetector.


(** ** The value of a binary32 number

    A finite binary32 number is a whole number of units of 2^-149, the
    smallest positive one.  [ulps] is that whole number; it orders the
    numbers as [<] and [<=] do ([FloatOrder] below). *)

Module Binary32.
Definition ulps (x : spec_float) : Z :=
  match x with
  | S754_finite s m e => cond_Zopp s (Zpos m * 2 ^ (e + 149))
  | _ => 0
  end.

(** A zero or a finite number in the format's canonical form. *)
Definition valid (x : spec_float) : bool :=
  match x with
  | S754_zero _ => true
  | S754_finite _ m e => bounded Float.prec Float.emax m e
  | _ => false
  end.

(** A valid number between 0 and 1, as a slider of range [0, 1] gives. *)
Definition normalized (x : spec_float) : Prop :=
  valid x = true /\ 0 <= ulps x <= 2 ^ 149.
End Binary32.
(** ** juce::AudioBuffer<float>

    A buffer is the list of its channels, each the list of its samples; all
    channels of a buffer have [getNumSamples] samples ([rectangular]).  The
    sample count of a buffer is read off channel 0. *)

Module AudioBuffer.
Abbreviation t := (list (list spec_float)) (only parsing).

Definition getNumChannels (b : t) : Z := Z.of_nat (length b).
Definition getNumSamples (b : t) : Z := Z.of_nat (length (hd [] b)).

Definition rectangular (b : t) : Prop :=
  Forall (fun ch => Z.of_nat (length ch) = getNumSamples b) b.

(** [AudioBuffer(channels, samples)] after [clear()]. *)
Definition zeros (channels samples : Z) : t :=
  repeat (repeat Float.zero (Z.to_nat samples)) (Z.to_nat channels).

Definition channel (b : t) (c : nat) : list spec_float := nth c b [].

(** [getSample(channel, index)], 0 outside the channel. *)
Definition getSample (b : t) (c : nat) (i : Z) : spec_float :=
  nth (Z.to_nat i) (channel b c) Float.zero.
End AudioBuffer.

(** ** CircularAudioBuffer *)

Module CircularAudioBuffer.

Record t := mk {
  buffer : AudioBuffer.t;
  writePos : Z;
  size : Z
}.

(** The constructor.  [juce::AudioBuffer(channels, samples)] allocates
    without clearing: [contents] is what the allocation holds. *)
Definition new (contents : AudioBuffer.t) (maxLengthInSamples : Z) : t :=
  {| buffer := contents; writePos := 0; size := maxLengthInSamples |}.

(** [if (++pos >= size) pos = 0;] *)
Definition advance (size pos : Z) : Z :=
  if size <=? pos + 1 then 0 else pos + 1.

(** The inner loop of [write] on one channel: the samples of the source
    channel in order, from ring position [pos]. *)
Fixpoint write_channel (size : Z) (chan : list spec_float) (pos : Z)
    (src : list spec_float) : list spec_float :=
  match src with
  | [] => chan
  | x :: rest =>
      write_channel size (set_nth chan (Z.to_nat pos) x) (advance size pos) rest
  end.

(** The channel loop of [write]: the first
    [jmin(source channels, ring channels)] channels. *)
Fixpoint write_channels (size pos : Z) (ring src : AudioBuffer.t) : AudioBuffer.t :=
  match ring, src with
  | chan :: ring', s :: src' =>
      write_channel size chan pos s :: write_channels size pos ring' src'
  | _, _ => ring
  end.

Definition write (rb : t) (sourceBuffer : AudioBuffer.t) : t :=
  let numSamples := AudioBuffer.getNumSamples sourceBuffer in
  {| buffer := write_channels (size rb) (writePos rb) (buffer rb) sourceBuffer;
     writePos := Z.rem (writePos rb + numSamples) (size rb);
     size := size rb |}.

(** The inner loop of [copyTo], [n] more samples to destination index [i]. *)
Fixpoint copy_channel (size : Z) (chan dest : list spec_float) (readPos : Z)
    (n : nat) (i : Z) : list spec_float :=
  match n with
  | O => dest
  | S n' =>
      copy_channel size chan
        (set_nth dest (Z.to_nat i) (nth (Z.to_nat readPos) chan Float.zero))
        (advance size readPos) n' (i + 1)
  end.

(** [readPos = (writePos - size + startSample) % size; if (readPos < 0)
    readPos += size;] with the truncating [%] of C++. *)
Definition startPos (rb : t) (startSample : Z) : Z :=
  let readPos := Z.rem (writePos rb - size rb + startSample) (size rb) in
  if readPos <? 0 then readPos + size rb else readPos.

Fixpoint copy_channels (size readPos : Z) (n : nat) (ring dest : AudioBuffer.t)
    : AudioBuffer.t :=
  match ring, dest with
  | chan :: ring', d :: dest' =>
      copy_channel size chan d readPos n 0 :: copy_channels size readPos n ring' dest'
  | _, _ => dest
  end.

(** [copyTo(destBuffer, startSample, endSample)]: the destination after the
    call. *)
Definition copyTo (rb : t) (destBuffer : AudioBuffer.t) (startSample endSample : Z)
    : AudioBuffer.t :=
  let numSamples :=
    Z.min (AudioBuffer.getNumSamples destBuffer) (endSample - startSample) in
  copy_channels (size rb) (startPos rb startSample) (Z.to_nat numSamples)
    (buffer rb) destBuffer.

(** A ring as the constructor and [write] leave it. *)
Definition well_formed (rb : t) : Prop :=
  0 < size rb /\ 0 <= writePos rb < size rb /\
  Forall (fun ch => Z.of_nat (length ch) = size rb) (buffer rb).

(** The ring read in time order: from the write position (the oldest
    sample) round to the sample before it (the newest). *)
Definition rotate {A} (k : nat) (l : list A) : list A := skipn k l ++ firstn k l.

Definition chronological (rb : t) (c : nat) : list spec_float :=
  rotate (Z.to_nat (writePos rb)) (AudioBuffer.channel (buffer rb) c).

(** A block that [write] can take channel [c] from. *)
Definition feeds (c : nat) (b : AudioBuffer.t) : Prop :=
  AudioBuffer.rectangular b /\ (c < length b)%nat.

End CircularAudioBuffer.

(** The last [n] elements of a list. *)
Definition lastn {A} (n : nat) (l : list A) : list A := skipn (length l - n) l.

(** What a sequence of blocks feeds to channel [c], in time order. *)
Definition recorded (blocks : list AudioBuffer.t) (c : nat) : list spec_float :=
  concat (map (fun b => AudioBuffer.channel b c) blocks).

(** ** BufferedSamplerSound and BufferedSamplerVoice *)

Record BufferedSamplerSound := {
  soundBuffer : AudioBuffer.t;   (* sampleBuffer *)
  soundRootNote : Z              (* rootNote *)
}.

(** A [juce::SynthesiserSound*]: the one kind of sound of this program, or
    a sound of another class (the [dynamic_cast] then gives null). *)
Inductive SynthesiserSound :=
| Buffered (s : BufferedSamplerSound)
| OtherSound.

Module Voice.

(** The fields of [BufferedSamplerVoice], and of its base class the note
    it plays ([currentlyPlayingNote], -1 when the voice is free).
    [sampleBuffer] points into the sound, whose buffer is never written
    after its construction: the model holds the buffer itself, [None]
    for [nullptr]. *)
Record t := mk {
  level : Double.t;
  tailOff : Double.t;
  rootNote : Z;
  sourceSamplePosition : Z;
  sampleBuffer : option AudioBuffer.t;
  rate : Double.t;
  currentlyPlayingNote : Z
}.

(** [BufferedSamplerVoice() = default] with the member initialisers. *)
Definition new : t :=
  {| level := Double.zero; tailOff := Double.zero; rootNote := 60;
     sourceSamplePosition := 0; sampleBuffer := None; rate := Double.one;
     currentlyPlayingNote := -1 |}.

(** [juce::SynthesiserVoice::isVoiceActive]. *)
Definition isVoiceActive (v : t) : bool := 0 <=? currentlyPlayingNote v.

(** [juce::SynthesiserVoice::clearCurrentNote]. *)
Definition clearCurrentNote (v : t) : t :=
  {| level := level v; tailOff := tailOff v; rootNote := rootNote v;
     sourceSamplePosition := sourceSamplePosition v;
     sampleBuffer := sampleBuffer v; rate := rate v;
     currentlyPlayingNote := -1 |}.

Definition canPlaySound (sound : SynthesiserSound) : bool :=
  match sound with Buffered _ => true | OtherSound => false end.

Definition gain_scale : Double.t := Double.lit 15 100.      (* 0.15 *)
Definition tailOff_factor : Double.t := Double.lit 99 100.  (* 0.99 *)
Definition tailOff_floor : Double.t := Double.lit 5 1000.   (* 0.005 *)

Section WithPow.
(** [std::pow] on doubles (libm). *)
Variable std_pow : Double.t -> Double.t -> Double.t.

Definition startNote (v : t) (midiNoteNumber : Z) (velocity : Float.t)
    (sound : SynthesiserSound) : t :=
  match sound with
  | Buffered samplerSound =>
      let rootNote := soundRootNote samplerSound in
      let ratio :=
        std_pow Double.two
          (Double.div (Double.of_int (midiNoteNumber - rootNote)) (Double.of_int 12)) in
      {| level := Double.mul (Double.of_float velocity) gain_scale;
         tailOff := Double.zero;
         rootNote := rootNote;
         sourceSamplePosition := 0;
         sampleBuffer := Some (soundBuffer samplerSound);
         rate := ratio;
         currentlyPlayingNote := currentlyPlayingNote v |}
  | OtherSound => v   (* jassertfalse *)
  end.

(** [juce::Synthesiser::startVoice], as far as this voice sees it: the
    base class records the note, then [startNote] runs. *)
Definition noteOn (v : t) (midiNoteNumber : Z) (velocity : Float.t)
    (sound : SynthesiserSound) : t :=
  startNote
    {| level := level v; tailOff := tailOff v; rootNote := rootNote v;
       sourceSamplePosition := sourceSamplePosition v;
       sampleBuffer := sampleBuffer v; rate := rate v;
       currentlyPlayingNote := midiNoteNumber |}
    midiNoteNumber velocity sound.
End WithPow.

Definition stopNote (v : t) (velocity : Float.t) (allowTailOff : bool) : t :=
  if allowTailOff then
    if Double.eqb (tailOff v) Double.zero then
      {| level := level v; tailOff := Double.one; rootNote := rootNote v;
         sourceSamplePosition := sourceSamplePosition v;
         sampleBuffer := sampleBuffer v; rate := rate v;
         currentlyPlayingNote := currentlyPlayingNote v |}
    else v
  else
    let v' := clearCurrentNote v in
    {| level := Double.zero; tailOff := tailOff v'; rootNote := rootNote v';
       sourceSamplePosition := sourceSamplePosition v';
       sampleBuffer := sampleBuffer v'; rate := rate v';
       currentlyPlayingNote := currentlyPlayingNote v' |}.

(** [*out += x] at index [i] of an output channel. *)
Definition accumulate (out : list spec_float) (i : Z) (x : Float.t) : list spec_float :=
  set_nth out (Z.to_nat i) (Float.add (nth (Z.to_nat i) out Float.zero) x).

Definition sample (chan : list spec_float) (pos : Z) : Float.t :=
  nth (Z.to_nat pos) chan Float.zero.

(** The body of [while (--numSamples >= 0)], [n] more samples, the output
    pointers at index [i].  [outR] is [None] for a mono output. *)
Fixpoint render (inL : list spec_float) (inR : option (list spec_float))
    (bufferSize : Z) (n : nat) (v : t) (i : Z)
    (outL : list spec_float) (outR : option (list spec_float))
    : t * list spec_float * option (list spec_float) :=
  match n with
  | O => (v, outL, outR)
  | S n' =>
      let pos := sourceSamplePosition v in
      if bufferSize <=? pos then (clearCurrentNote v, outL, outR)
      else
        let alpha := Float.of_int (sourceSamplePosition v - pos) in
        let invAlpha := Float.sub Float.one alpha in
        let nextPos := if pos + 1 <? bufferSize then pos + 1 else pos in
        let l := Float.add (Float.mul (sample inL pos) invAlpha)
                           (Float.mul (sample inL nextPos) alpha) in
        let r := match inR with
                 | Some chanR =>
                     Float.add (Float.mul (sample chanR pos) invAlpha)
                               (Float.mul (sample chanR nextPos) alpha)
                 | None => l
                 end in
        let currentLevel := Double.to_float (level v) in
        let emit (v1 : t) (currentLevel : Float.t) :=
          let outL' := accumulate outL i (Float.mul l currentLevel) in
          let outR' := match outR with
                       | Some o => Some (accumulate o i (Float.mul r currentLevel))
                       | None => None
                       end in
          let v2 :=
            {| level := level v1; tailOff := tailOff v1; rootNote := rootNote v1;
               sourceSamplePosition :=
                 Double.to_int (Double.add (Double.of_int (sourceSamplePosition v1)) (rate v1));
               sampleBuffer := sampleBuffer v1; rate := rate v1;
               currentlyPlayingNote := currentlyPlayingNote v1 |} in
          render inL inR bufferSize n' v2 (i + 1) outL' outR' in
        if Double.gtb (tailOff v) Double.zero then
          let currentLevel' := Float.mul currentLevel (Double.to_float (tailOff v)) in
          let v1 :=
            {| level := level v; tailOff := Double.mul (tailOff v) tailOff_factor;
               rootNote := rootNote v; sourceSamplePosition := sourceSamplePosition v;
               sampleBuffer := sampleBuffer v; rate := rate v;
               currentlyPlayingNote := currentlyPlayingNote v |} in
          if Double.leb (tailOff v1) tailOff_floor then (clearCurrentNote v1, outL, outR)
          else emit v1 currentLevel'
        else emit v currentLevel
  end.

(** [renderNextBlock(outputBuffer, startSample, numSamples)]: the voice
    and the output buffer after the call. *)
Definition renderNextBlock (v : t) (outputBuffer : AudioBuffer.t)
    (startSample numSamples : Z) : t * AudioBuffer.t :=
  match sampleBuffer v with
  | None => (v, outputBuffer)
  | Some buf =>
      let inL := AudioBuffer.channel buf 0 in
      let inR := if 1 <? AudioBuffer.getNumChannels buf
                 then Some (AudioBuffer.channel buf 1) else None in
      let bufferSize := AudioBuffer.getNumSamples buf in
      if bufferSize <=? 0 then (v, outputBuffer)
      else
        match outputBuffer with
        | [] => (v, outputBuffer)
        | outL :: rest =>
            let outR := match rest with o :: _ => Some o | [] => None end in
            let '(v', outL', outR') :=
              render inL inR bufferSize (Z.to_nat numSamples) v startSample outL outR in
            (v', outL' :: match outR', rest with
                          | Some o, _ :: rest' => o :: rest'
                          | _, _ => rest
                          end)
        end
  end.

End Voice.

(** ** The release envelope of a voice *)

Module Release.



(** [sourceSamplePosition += rate]. *)
Definition step_position (rate : Double.t) (pos : Z) : Z :=
  Double.to_int (Double.add (Double.of_int pos) rate).

(** The read position after [k] samples were put out. *)
Fixpoint position (rate : Double.t) (pos : Z) (k : nat) : Z :=
  match k with
  | O => pos
  | S k' => position rate (step_position rate pos) k'
  end.

(** The first [n] samples are read inside the sample data. *)
Fixpoint inside (bufferSize : Z) (rate : Double.t) (pos : Z) (n : nat) : bool :=
  match n with
  | O => true
  | S n' => (pos <? bufferSize) && inside bufferSize rate (step_position rate pos) n'
  end.

(** A voice with its tail-off coefficient and read position replaced. *)
Definition with_release (v : Voice.t) (tail : Double.t) (pos : Z) : Voice.t :=
  {| Voice.level := Voice.level v; Voice.tailOff := tail; Voice.rootNote := Voice.rootNote v;
     Voice.sourceSamplePosition := pos; Voice.sampleBuffer := Voice.sampleBuffer v;
     Voice.rate := Voice.rate v;
     Voice.currentlyPlayingNote := Voice.currentlyPlayingNote v |}.

End Release.

(** ** std::map<int, int>

    The map as the list of its entries in increasing key order, the order
    in which a range-for visits them. *)

Module IntMap.
Abbreviation t := (list (Z * Z)) (only parsing).

Fixpoint find (k : Z) (m : t) : option Z :=
  match m with
  | [] => None
  | (k', v) :: m' => if k =? k' then Some v else find k m'
  end.

(** [m[k] = v]: the entry is replaced, or inserted at its place. *)
Fixpoint set (k v : Z) (m : t) : t :=
  match m with
  | [] => [(k, v)]
  | (k', v') :: m' =>
      if k <? k' then (k, v) :: m
      else if k =? k' then (k, v) :: m'
      else (k', v') :: set k v m'
  end.

Definition keys (m : t) : list Z := map fst m.

(** Strictly increasing keys. *)
Fixpoint sorted (m : t) : Prop :=
  match m with
  | [] => True
  | (k, _) :: m' => Forall (fun e => k < fst e) m' /\ sorted m'
  end.
End IntMap.

(** ** BufferedRecorderSamplerProcessor *)

Inductive PluginState := Recording | Trimming | Sampling.

(** The [juce::Synthesiser] member: its sounds and its voices. *)
Module Synthesiser.
Record t := mk {
  sounds : list SynthesiserSound;
  voices : list Voice.t
}.
End Synthesiser.

Module Processor.

Record t := mk {
  state : PluginState;
  circularBuffer : CircularAudioBuffer.t;
  trimmedBuffer : AudioBuffer.t;
  bufferDuration : Float.t;
  startPosition : Float.t;
  endPosition : Float.t;
  pitchDetector : option PitchDetector.t;
  noteHistogram : IntMap.t;
  mostCommonNote : Z;
  sampler : Synthesiser.t;
  isPreviewActive : bool;
  previewPosition : Z;
  (* of juce::AudioProcessor: getSampleRate() and the bus layout *)
  currentSampleRate : Double.t;
  numInputChannels : Z;
  numOutputChannels : Z
}.

Definition set_state (x : PluginState) (p : t) : t :=
  {| state := x; circularBuffer := circularBuffer p; trimmedBuffer :=
     trimmedBuffer p; bufferDuration := bufferDuration p; startPosition :=
     startPosition p; endPosition := endPosition p; pitchDetector :=
     pitchDetector p; noteHistogram := noteHistogram p; mostCommonNote :=
     mostCommonNote p; sampler := sampler p; isPreviewActive :=
     isPreviewActive p; previewPosition := previewPosition p;
     currentSampleRate := currentSampleRate p; numInputChannels :=
     numInputChannels p; numOutputChannels := numOutputChannels p |}.

Definition set_circularBuffer (x : CircularAudioBuffer.t) (p : t) : t :=
  {| state := state p; circularBuffer := x; trimmedBuffer := trimmedBuffer
     p; bufferDuration := bufferDuration p; startPosition := startPosition
     p; endPosition := endPosition p; pitchDetector := pitchDetector p;
     noteHistogram := noteHistogram p; mostCommonNote := mostCommonNote p;
     sampler := sampler p; isPreviewActive := isPreviewActive p;
     previewPosition := previewPosition p; currentSampleRate :=
     currentSampleRate p; numInputChannels := numInputChannels p;
     numOutputChannels := numOutputChannels p |}.

Definition set_trimmedBuffer (x : AudioBuffer.t) (p : t) : t :=
  {| state := state p; circularBuffer := circularBuffer p; trimmedBuffer
     := x; bufferDuration := bufferDuration p; startPosition :=
     startPosition p; endPosition := endPosition p; pitchDetector :=
     pitchDetector p; noteHistogram := noteHistogram p; mostCommonNote :=
     mostCommonNote p; sampler := sampler p; isPreviewActive :=
     isPreviewActive p; previewPosition := previewPosition p;
     currentSampleRate := currentSampleRate p; numInputChannels :=
     numInputChannels p; numOutputChannels := numOutputChannels p |}.

Definition set_bufferDuration (x : Float.t) (p : t) : t :=
  {| state := state p; circularBuffer := circularBuffer p; trimmedBuffer
     := trimmedBuffer p; bufferDuration := x; startPosition :=
     startPosition p; endPosition := endPosition p; pitchDetector :=
     pitchDetector p; noteHistogram := noteHistogram p; mostCommonNote :=
     mostCommonNote p; sampler := sampler p; isPreviewActive :=
     isPreviewActive p; previewPosition := previewPosition p;
     currentSampleRate := currentSampleRate p; numInputChannels :=
     numInputChannels p; numOutputChannels := numOutputChannels p |}.

Definition set_startPosition (x : Float.t) (p : t) : t :=
  {| state := state p; circularBuffer := circularBuffer p; trimmedBuffer
     := trimmedBuffer p; bufferDuration := bufferDuration p; startPosition
     := x; endPosition := endPosition p; pitchDetector := pitchDetector p;
     noteHistogram := noteHistogram p; mostCommonNote := mostCommonNote p;
     sampler := sampler p; isPreviewActive := isPreviewActive p;
     previewPosition := previewPosition p; currentSampleRate :=
     currentSampleRate p; numInputChannels := numInputChannels p;
     numOutputChannels := numOutputChannels p |}.

Definition set_endPosition (x : Float.t) (p : t) : t :=
  {| state := state p; circularBuffer := circularBuffer p; trimmedBuffer
     := trimmedBuffer p; bufferDuration := bufferDuration p; startPosition
     := startPosition p; endPosition := x; pitchDetector := pitchDetector
     p; noteHistogram := noteHistogram p; mostCommonNote := mostCommonNote
     p; sampler := sampler p; isPreviewActive := isPreviewActive p;
     previewPosition := previewPosition p; currentSampleRate :=
     currentSampleRate p; numInputChannels := numInputChannels p;
     numOutputChannels := numOutputChannels p |}.

Definition set_pitchDetector (x : option PitchDetector.t) (p : t) : t :=
  {| state := state p; circularBuffer := circularBuffer p; trimmedBuffer
     := trimmedBuffer p; bufferDuration := bufferDuration p; startPosition
     := startPosition p; endPosition := endPosition p; pitchDetector := x;
     noteHistogram := noteHistogram p; mostCommonNote := mostCommonNote p;
     sampler := sampler p; isPreviewActive := isPreviewActive p;
     previewPosition := previewPosition p; currentSampleRate :=
     currentSampleRate p; numInputChannels := numInputChannels p;
     numOutputChannels := numOutputChannels p |}.

Definition set_noteHistogram (x : IntMap.t) (p : t) : t :=
  {| state := state p; circularBuffer := circularBuffer p; trimmedBuffer
     := trimmedBuffer p; bufferDuration := bufferDuration p; startPosition
     := startPosition p; endPosition := endPosition p; pitchDetector :=
     pitchDetector p; noteHistogram := x; mostCommonNote := mostCommonNote
     p; sampler := sampler p; isPreviewActive := isPreviewActive p;
     previewPosition := previewPosition p; currentSampleRate :=
     currentSampleRate p; numInputChannels := numInputChannels p;
     numOutputChannels := numOutputChannels p |}.

Definition set_mostCommonNote (x : Z) (p : t) : t :=
  {| state := state p; circularBuffer := circularBuffer p; trimmedBuffer
     := trimmedBuffer p; bufferDuration := bufferDuration p; startPosition
     := startPosition p; endPosition := endPosition p; pitchDetector :=
     pitchDetector p; noteHistogram := noteHistogram p; mostCommonNote :=
     x; sampler := sampler p; isPreviewActive := isPreviewActive p;
     previewPosition := previewPosition p; currentSampleRate :=
     currentSampleRate p; numInputChannels := numInputChannels p;
     numOutputChannels := numOutputChannels p |}.

Definition set_sampler (x : Synthesiser.t) (p : t) : t :=
  {| state := state p; circularBuffer := circularBuffer p; trimmedBuffer
     := trimmedBuffer p; bufferDuration := bufferDuration p; startPosition
     := startPosition p; endPosition := endPosition p; pitchDetector :=
     pitchDetector p; noteHistogram := noteHistogram p; mostCommonNote :=
     mostCommonNote p; sampler := x; isPreviewActive := isPreviewActive p;
     previewPosition := previewPosition p; currentSampleRate :=
     currentSampleRate p; numInputChannels := numInputChannels p;
     numOutputChannels := numOutputChannels p |}.

Definition set_isPreviewActive (x : bool) (p : t) : t :=
  {| state := state p; circularBuffer := circularBuffer p; trimmedBuffer
     := trimmedBuffer p; bufferDuration := bufferDuration p; startPosition
     := startPosition p; endPosition := endPosition p; pitchDetector :=
     pitchDetector p; noteHistogram := noteHistogram p; mostCommonNote :=
     mostCommonNote p; sampler := sampler p; isPreviewActive := x;
     previewPosition := previewPosition p; currentSampleRate :=
     currentSampleRate p; numInputChannels := numInputChannels p;
     numOutputChannels := numOutputChannels p |}.

Definition set_previewPosition (x : Z) (p : t) : t :=
  {| state := state p; circularBuffer := circularBuffer p; trimmedBuffer
     := trimmedBuffer p; bufferDuration := bufferDuration p; startPosition
     := startPosition p; endPosition := endPosition p; pitchDetector :=
     pitchDetector p; noteHistogram := noteHistogram p; mostCommonNote :=
     mostCommonNote p; sampler := sampler p; isPreviewActive :=
     isPreviewActive p; previewPosition := x; currentSampleRate :=
     currentSampleRate p; numInputChannels := numInputChannels p;
     numOutputChannels := numOutputChannels p |}.

Definition set_currentSampleRate (x : Double.t) (p : t) : t :=
  {| state := state p; circularBuffer := circularBuffer p; trimmedBuffer
     := trimmedBuffer p; bufferDuration := bufferDuration p; startPosition
     := startPosition p; endPosition := endPosition p; pitchDetector :=
     pitchDetector p; noteHistogram := noteHistogram p; mostCommonNote :=
     mostCommonNote p; sampler := sampler p; isPreviewActive :=
     isPreviewActive p; previewPosition := previewPosition p;
     currentSampleRate := x; numInputChannels := numInputChannels p;
     numOutputChannels := numOutputChannels p |}.


(** The constructor.  Neither [AudioBuffer(2, 48000 * 60)] nor
    [setSize(2, 48000 * 60)] clears its memory: [ringContents] and
    [trimmedContents] are what the two allocations hold.  The sample rate
    is 0 until the host sets it. *)
Definition maxLength : Z := 48000 * 60.

Definition new (ringContents trimmedContents : AudioBuffer.t) : t :=
  {| state := Recording;
     circularBuffer := CircularAudioBuffer.new ringContents maxLength;
     trimmedBuffer := trimmedContents;
     bufferDuration := Float.of_int 60;
     startPosition := Float.zero;
     endPosition := Float.one;
     pitchDetector := None;
     noteHistogram := [];
     mostCommonNote := 60;
     sampler := {| Synthesiser.sounds := []; Synthesiser.voices := [] |};
     isPreviewActive := false;
     previewPosition := 0;
     currentSampleRate := Double.zero;
     numInputChannels := 2;
     numOutputChannels := 2 |}.

Definition getState (p : t) : PluginState := state p.
Definition getStartPosition (p : t) : Float.t := startPosition p.
Definition getEndPosition (p : t) : Float.t := endPosition p.
Definition setStartPosition (p : t) (pos : Float.t) : t := set_startPosition pos p.
Definition setEndPosition (p : t) (pos : Float.t) : t := set_endPosition pos p.
Definition getMostCommonNote (p : t) : Z := mostCommonNote p.
Definition getSampleRate (p : t) : Double.t := currentSampleRate p.

(** [prepareToPlay(sampleRate, samplesPerBlock)]; the host has set the
    processor's rate to the [sampleRate] it passes. *)
Definition prepareToPlay (p : t) (sampleRate : Double.t) (samplesPerBlock : Z) : t :=
  set_sampler {| Synthesiser.sounds := []; Synthesiser.voices := repeat Voice.new 16 |}
    (set_pitchDetector (Some (PitchDetector.new sampleRate samplesPerBlock))
       (set_currentSampleRate sampleRate p)).

Definition setBufferDuration (p : t) (seconds : Float.t) : t :=
  set_bufferDuration seconds p.

Definition enterTrimMode (p : t) : t :=
  let totalSamples :=
    roundToInt (Double.mul (Double.of_float (bufferDuration p)) (getSampleRate p)) in
  let startSample := 0 in
  let endSample := totalSamples in
  (* trimmedBuffer.clear(); setSize(2, endSample - startSample, false, true, true) *)
  let cleared := AudioBuffer.zeros 2 (endSample - startSample) in
  let copied := CircularAudioBuffer.copyTo (circularBuffer p) cleared startSample endSample in
  set_noteHistogram []
    (set_endPosition Float.one
       (set_startPosition Float.zero
          (set_trimmedBuffer copied (set_state Trimming p)))).

(** [roundToInt(position * totalSamples)]: the [int] is converted to
    [float] and the product is a [float]. *)
Definition sampleOffset (position : Float.t) (totalSamples : Z) : Z :=
  roundToInt (Float.mul position (Float.of_int totalSamples)).

(** [dest.copyFrom(ch, 0, source, ch, start, n)] into a fresh channel of
    [n] samples, the source range inside the source. *)
Definition slice (chan : list spec_float) (start n : Z) : list spec_float :=
  firstn (Z.to_nat n) (skipn (Z.to_nat start) chan).

Definition enterSamplerMode (p : t) : t :=
  let totalSamples := AudioBuffer.getNumSamples (trimmedBuffer p) in
  let startSample := sampleOffset (startPosition p) totalSamples in
  let endSample := sampleOffset (endPosition p) totalSamples in
  let lengthInSamples := endSample - startSample in
  let finalBuffer :=
    map (fun chan => slice chan startSample lengthInSamples) (trimmedBuffer p) in
  let sound := Buffered {| soundBuffer := finalBuffer;
                           soundRootNote := mostCommonNote p |} in
  set_state Sampling
    (set_sampler {| Synthesiser.sounds := [sound];
                    Synthesiser.voices := Synthesiser.voices (sampler p) |} p).

Definition stopPreview (p : t) : t := set_isPreviewActive false p.

(** *** Pitch analysis *)

Definition chunkSize : Z := 2048.

(** [chunkData[i] = trimmedBuffer.getSample(0, startSample + chunk * chunkSize + i)]
    for [n] more samples from [i]; [acc] is the chunk so far, reversed. *)
Fixpoint read_chunk (chan0 : list spec_float) (base : Z) (n : nat) (i : Z)
    (acc : list spec_float) : result (list spec_float) :=
  match n with
  | O => Ok (rev acc)
  | S n' =>
      x <- read TrimmedChannel Float.zero chan0 (base + i) ;;
      read_chunk chan0 base n' (i + 1) (x :: acc)
  end.

(** The histogram update for one note. *)
Definition count_note (midiNote : Z) (hist : IntMap.t) : IntMap.t :=
  if (0 <=? midiNote) && (midiNote <? 128) then
    match IntMap.find midiNote hist with
    | None => IntMap.set midiNote 1 hist
    | Some n => IntMap.set midiNote (n + 1) hist
    end
  else hist.

(** The scan for the most common note: [maxCount] and [mostCommonNote] as
    the range-for leaves them. *)
Fixpoint most_common (hist : IntMap.t) (maxCount mostCommonNote : Z) : Z * Z :=
  match hist with
  | [] => (maxCount, mostCommonNote)
  | (note, count) :: rest =>
      if maxCount <? count then most_common rest count note
      else most_common rest maxCount mostCommonNote
  end.

Section WithLibm.
Variable std_log2 : Float.t -> Float.t.

(** The chunk loop, [n] more chunks from [chunk]. *)
Fixpoint analyse_chunks (chan0 : list spec_float) (startSample : Z) (n : nat)
    (chunk : Z) (pd : option PitchDetector.t) (hist : IntMap.t)
    : result (option PitchDetector.t * IntMap.t) :=
  match n with
  | O => Ok (pd, hist)
  | S n' =>
      chunkData <- read_chunk chan0 (startSample + chunk * chunkSize)
                     (Z.to_nat chunkSize) 0 [] ;;
      match pd with
      | None => Fault NullPointer
      | Some detector =>
          r <- PitchDetector.detectPitch detector chunkData chunkSize ;;
          let '(frequency, detector') := r in
          let midiNote := PitchDetector.midiNoteFromFrequency std_log2 frequency in
          analyse_chunks chan0 startSample n' (chunk + 1) (Some detector')
            (count_note midiNote hist)
      end
  end.

Definition detectPitch (p : t) : result t :=
  if AudioBuffer.getNumSamples (trimmedBuffer p) =? 0 then Ok p
  else
    let totalSamples := AudioBuffer.getNumSamples (trimmedBuffer p) in
    let startSample := sampleOffset (startPosition p) totalSamples in
    let endSample := sampleOffset (endPosition p) totalSamples in
    let lengthInSamples := endSample - startSample in
    let numChunks := Z.quot lengthInSamples chunkSize in
    r <- analyse_chunks (AudioBuffer.channel (trimmedBuffer p) 0) startSample
           (Z.to_nat numChunks) 0 (pitchDetector p) (noteHistogram p) ;;
    let '(pd', hist') := r in
    let '(_, note) := most_common hist' 0 (mostCommonNote p) in
    Ok (set_mostCommonNote note (set_noteHistogram hist' (set_pitchDetector pd' p))).

(** [previewTrimmedSample]; the temporary buffer it fills is never
    read. *)
Definition previewTrimmedSample (p : t) : result t :=
  let totalSamples := AudioBuffer.getNumSamples (trimmedBuffer p) in
  let startSample := sampleOffset (startPosition p) totalSamples in
  detectPitch (set_previewPosition startSample (set_isPreviewActive true p)).

(** *** processBlock *)

(** [buffer.clear(i, 0, numSamples)] for [i] from [numIn] below [numOut];
    [i] is the index of the first channel of [b]. *)
Fixpoint clear_outputs (numIn numOut : Z) (i : Z) (b : AudioBuffer.t) : AudioBuffer.t :=
  match b with
  | [] => []
  | chan :: rest =>
      (if (numIn <=? i) && (i <? numOut)
       then repeat Float.zero (length chan) else chan)
      :: clear_outputs numIn numOut (i + 1) rest
  end.

(** [dest.addFrom(ch, 0, source, ch, 0, n)]: the first [n] samples of the
    source are added to those of the destination. *)
Fixpoint add_prefix (n : nat) (dest src : list spec_float) : list spec_float :=
  match n, dest, src with
  | S n', d :: dest', s :: src' => Float.add d s :: add_prefix n' dest' src'
  | _, _, _ => dest
  end.

(** The preview buffer: cleared, then [samplesToCopy] samples of each
    channel of the trimmed buffer from [previewPosition]. *)
Definition preview_channel (numSamples : Z) (trimmedChan : list spec_float)
    (previewPosition samplesToCopy : Z) : list spec_float :=
  slice trimmedChan previewPosition samplesToCopy
  ++ repeat Float.zero (Z.to_nat (numSamples - samplesToCopy)).

Fixpoint mix_preview (numSamples previewPosition samplesToCopy : Z)
    (buffer trimmed : AudioBuffer.t) : AudioBuffer.t :=
  match buffer with
  | [] => []
  | chan :: rest =>
      add_prefix (Z.to_nat samplesToCopy) chan
        (preview_channel numSamples (hd [] trimmed) previewPosition samplesToCopy)
      :: mix_preview numSamples previewPosition samplesToCopy rest (tl trimmed)
  end.

(** The MIDI events of a block and [juce::Synthesiser::renderNextBlock]
    belong to JUCE. *)
Variable MidiBuffer : Type.
Variable Synthesiser_renderNextBlock :
  Synthesiser.t -> AudioBuffer.t -> MidiBuffer -> Z -> Z -> Synthesiser.t * AudioBuffer.t.

(** [processBlock(buffer, midiMessages)]: the processor and the block
    after the call. *)
Definition processBlock (p : t) (buffer : AudioBuffer.t) (midiMessages : MidiBuffer)
    : t * AudioBuffer.t :=
  let numSamples := AudioBuffer.getNumSamples buffer in
  let buffer := clear_outputs (numInputChannels p) (numOutputChannels p) 0 buffer in
  let p :=
    match state p with
    | Recording =>
        set_circularBuffer (CircularAudioBuffer.write (circularBuffer p) buffer) p
    | _ => p
    end in
  match state p with
  | Recording => (p, buffer)
  | Trimming =>
      if isPreviewActive p then
        let trimmedSamples := AudioBuffer.getNumSamples (trimmedBuffer p) in
        let samplesToCopy := Z.min numSamples (trimmedSamples - previewPosition p) in
        if 0 <? samplesToCopy then
          let mixed :=
            mix_preview numSamples (previewPosition p) samplesToCopy buffer
              (trimmedBuffer p) in
          let position := previewPosition p + samplesToCopy in
          let position := if trimmedSamples <=? position then 0 else position in
          (set_previewPosition position p, mixed)
        else (p, buffer)
      else (p, buffer)
  | Sampling =>
      let cleared :=
        AudioBuffer.zeros (AudioBuffer.getNumChannels buffer) numSamples in
      let '(synth, rendered) :=
        Synthesiser_renderNextBlock (sampler p) cleared midiMessages 0 numSamples in
      (set_sampler synth p, rendered)
  end.

End WithLibm.

End Processor.

(** ** BufferedRecorderSamplerEditor: the slider handler *)

Module Editor.
Inductive slider := startSlider | endSlider.

Definition epsilon : Float.t := Float.lit 1 100.   (* 0.01f *)

(** [sliderValueChanged(slider)], [value] being [slider->getValue()]; the
    processor after the call. *)
Definition sliderValueChanged (p : Processor.t) (s : slider) (value : Double.t)
    : Processor.t :=
  match s with
  | startSlider =>
      let p := Processor.setStartPosition p (Double.to_float value) in
      if Float.geb (Processor.getStartPosition p) (Processor.getEndPosition p) then
        Processor.setStartPosition p (Float.sub (Processor.getEndPosition p) epsilon)
      else p
  | endSlider =>
      let p := Processor.setEndPosition p (Double.to_float value) in
      if Float.leb (Processor.getEndPosition p) (Processor.getStartPosition p) then
        Processor.setEndPosition p (Float.add (Processor.getStartPosition p) epsilon)
      else p
  end.

(** The sliders moved one after the other, the first movement first. *)
Definition moves (p : Processor.t) (l : list (slider * Double.t)) : Processor.t :=
  fold_left (fun p m => sliderValueChanged p (fst m) (snd m)) l p.
End Editor.

(** ** The trim region

    [ordered p]: both bounds of the region are finite numbers, the start at
    most 1, the end at least 0, and the start below the end.  A slider of
    range [0, 1] hands over a [slider_value]. *)

Module TrimRegion.
Definition ordered (p : Processor.t) : Prop :=
  Binary32.valid (Processor.getStartPosition p) = true
  /\ Binary32.valid (Processor.getEndPosition p) = true
  /\ Binary32.ulps (Processor.getStartPosition p) <= 2 ^ 149
  /\ 0 <= Binary32.ulps (Processor.getEndPosition p)
  /\ Binary32.ulps (Processor.getStartPosition p)
     < Binary32.ulps (Processor.getEndPosition p).

Definition slider_value (value : Double.t) : Prop :=
  Binary32.normalized (Double.to_float value).
End TrimRegion.

(** ** Pitch analysis as the specification words it

    The definitions of this module follow the specification, not the code:
    the window cut into whole chunks, the notes estimated chunk by chunk,
    the count a note has in the histogram, and the lowest of the most
    common notes.  The theorems compare [Processor.detectPitch] with
    them. *)

Module Analysis.


Section WithLog2.
Variable std_log2 : Float.t -> Float.t.

(** The note of each chunk in turn, by the detector as the previous
    chunk left it. *)
Fixpoint estimate_notes (pd : option PitchDetector.t) (chunks : list (list spec_float))
    : result (list Z * option PitchDetector.t) :=
  match chunks with
  | [] => Ok ([], pd)
  | chunk :: rest =>
      match pd with
      | None => Fault NullPointer
      | Some detector =>
          r <- PitchDetector.detectPitch detector chunk 2048 ;;
          let '(frequency, detector') := r in
          r' <- estimate_notes (Some detector') rest ;;
          let '(notes, pd') := r' in
          Ok (PitchDetector.midiNoteFromFrequency std_log2 frequency :: notes, pd')
      end
  end.
End WithLog2.

Definition valid_note (note : Z) : bool := (0 <=? note) && (note <? 128).

(** How often a note occurs in a list of notes. *)
Definition occurrences (note : Z) (notes : list Z) : Z :=
  Z.of_nat (count_occ Z.eq_dec notes note).

(** The count of a note in the histogram, 0 when it has no entry. *)
Definition count_of (hist : IntMap.t) (note : Z) : Z :=
  match IntMap.find note hist with
  | Some n => n
  | None => 0
  end.


(** The histogram after the notes were counted in turn, each by the
    code's update for one note. *)
Definition tally (notes : list Z) (hist : IntMap.t) : IntMap.t :=
  fold_left (fun h note => Processor.count_note note h) notes hist.

(** A histogram as [detectPitch] builds it: increasing keys, counts from 1. *)
Definition well_formed (hist : IntMap.t) : Prop :=
  IntMap.sorted hist /\ Forall (fun e => 1 <= snd e) hist.

End Analysis.

(** ** Detectors of the same make *)

Module Detectors.
(** Two detectors of the same rate and sizes. *)
Definition alike (pd1 pd2 : PitchDetector.t) : Prop :=
  PitchDetector.sampleRate pd1 = PitchDetector.sampleRate pd2
  /\ PitchDetector.bufferSize pd1 = PitchDetector.bufferSize pd2
  /\ length (PitchDetector.yinBuffer pd1) = length (PitchDetector.yinBuffer pd2).
End Detectors.

(** ** Sessions

    The states a processor can be in: the constructor's, and what the
    public operations and the editor's slider handler make of a state that
    can be reached.  An operation that leaves an array has no successor
    state. *)

Module Session.
Import Processor.

Section WithHost.
Variable std_log2 : Float.t -> Float.t.
Variable MidiBuffer : Type.
Variable render :
  Synthesiser.t -> AudioBuffer.t -> MidiBuffer -> Z -> Z -> Synthesiser.t * AudioBuffer.t.

Inductive step : t -> t -> Prop :=
| step_prepareToPlay p sampleRate samplesPerBlock :
    step p (prepareToPlay p sampleRate samplesPerBlock)
| step_processBlock p buffer midi :
    step p (fst (processBlock MidiBuffer render p buffer midi))
| step_setBufferDuration p seconds : step p (setBufferDuration p seconds)
| step_enterTrimMode p : step p (enterTrimMode p)
| step_enterSamplerMode p : step p (enterSamplerMode p)
| step_setStartPosition p pos : step p (setStartPosition p pos)
| step_setEndPosition p pos : step p (setEndPosition p pos)
| step_previewTrimmedSample p p' :
    previewTrimmedSample std_log2 p = Ok p' -> step p p'
| step_stopPreview p : step p (stopPreview p)
| step_detectPitch p p' : detectPitch std_log2 p = Ok p' -> step p p'
| step_sliderValueChanged p slider value :
    step p (Editor.sliderValueChanged p slider value).

Inductive reachable : t -> Prop :=
| reachable_new ringContents trimmedContents :
    reachable (new ringContents trimmedContents)
| reachable_step p p' : reachable p -> step p p' -> reachable p'.
End WithHost.

(** Notes are MIDI notes: the most common note and every key of the
    histogram. *)
Definition notes_in_range (p : t) : Prop :=
  0 <= mostCommonNote p < 128
  /\ Forall (fun e => 0 <= fst e < 128) (noteHistogram p).
End Session.

(** ** Runs of a session *)

Module Runs.
Section WithHost.
Variable std_log2 : Float.t -> Float.t.
Variable MidiBuffer : Type.
Variable render :
  Synthesiser.t -> AudioBuffer.t -> MidiBuffer -> Z -> Z -> Synthesiser.t * AudioBuffer.t.

(** [run p p']: some sequence of operations leads from [p] to [p']. *)
Inductive run : Processor.t -> Processor.t -> Prop :=
| run_done p : run p p
| run_step p p' p'' :
    Session.step std_log2 MidiBuffer render p p' -> run p' p'' -> run p p''.
End WithHost.

Definition recording (p : Processor.t) : bool :=
  match Processor.state p with Recording => true | _ => false end.
End Runs.

(** ** BufferedRecorderSamplerEditor: buttons, visibility and labels *)

Module Controls.
Import String.

Inductive button :=
| buffer10sButton | buffer30sButton | buffer60sButton | previewButton | doneButton.

(** The components that [updateControlsVisibility] shows and hides. *)
Inductive component :=
| Button (b : button)
| Slider (s : Editor.slider)
| pitchLabel
| samplerInfoLabel.

(** [updateControlsVisibility]: the [setVisible] argument of each
    component in each state. *)
Definition visible (state : PluginState) (c : component) : bool :=
  match state with
  | Recording =>
      match c with
      | Button (buffer10sButton | buffer30sButton | buffer60sButton) => true
      | _ => false
      end
  | Trimming =>
      match c with
      | Slider _ | Button (previewButton | doneButton) | pitchLabel => true
      | _ => false
      end
  | Sampling =>
      match c with
      | samplerInfoLabel => true
      | _ => false
      end
  end.

Section WithLog2.
Variable std_log2 : Float.t -> Float.t.

(** [buttonClicked(button)]: the processor after the call. *)
Definition buttonClicked (p : Processor.t) (b : button) : result Processor.t :=
  match b with
  | buffer10sButton =>
      Ok (Processor.enterTrimMode (Processor.setBufferDuration p (Float.of_int 10)))
  | buffer30sButton =>
      Ok (Processor.enterTrimMode (Processor.setBufferDuration p (Float.of_int 30)))
  | buffer60sButton =>
      Ok (Processor.enterTrimMode (Processor.setBufferDuration p (Float.of_int 60)))
  | previewButton => Processor.previewTrimmedSample std_log2 p
  | doneButton => Ok (Processor.enterSamplerMode p)
  end.
End WithLog2.

Section WithNoteName.
(** [juce::MidiMessage::getMidiNoteName(note, true, true, 3)]. *)
Variable getMidiNoteName : Z -> string.

(** The text [timerCallback] gives the pitch label. *)
Definition pitchText (p : Processor.t) : string :=
  "Detected Pitch: "
  ++ (if 0 <=? Processor.getMostCommonNote p
      then getMidiNoteName (Processor.getMostCommonNote p)
      else "None").
End WithNoteName.

(** *** PitchDetector::noteFromFrequency *)

Definition noteNames : list string :=
  ["C"; "C#"; "D"; "D#"; "E"; "F"; "F#"; "G"; "G#"; "A"; "A#"; "B"]%string.

(** [juce::String(int)]: the decimal digits, with a minus sign below 0. *)
Definition String_of_int (n : Z) : string :=
  DecimalString.NilZero.string_of_int (Z.to_int n).

Section WithLog2Names.
Variable std_log2 : Float.t -> Float.t.

(** [noteFromFrequency(frequency)]; [None] when [noteNames] is read
    outside its twelve entries. *)
Definition noteFromFrequency (frequency : Float.t) : option string :=
  if Float.leb frequency Float.zero then Some "No pitch detected"%string
  else
    let midiNote :=
      Float.add (Float.mul (Float.of_int 12)
                           (std_log2 (Float.div frequency (Float.of_int 440))))
                (Float.of_int 69) in
    let roundedMidiNote := roundToInt midiNote in
    let octave := Z.quot roundedMidiNote 12 - 1 in
    let noteIndex := Z.rem roundedMidiNote 12 in
    if in_range noteIndex noteNames
    then Some (nth (Z.to_nat noteIndex) noteNames EmptyString ++ String_of_int octave)%string
    else None.
End WithLog2Names.
End Controls.

(** ** Scenarios

    Concrete runs used by the examples below: a host at 48 kHz that
    delivers stereo blocks of 480 samples, no MIDI, and a synthesiser
    render that leaves the block alone. *)

Module Scenario.
Definition render (s : Synthesiser.t) (b : AudioBuffer.t) (_ : unit) (_ _ : Z)
    : Synthesiser.t * AudioBuffer.t := (s, b).

Definition rate48k : Double.t := Double.of_int 48000.

(** A stereo block of 480 samples, all of value [x]. *)
Definition block (x : Float.t) : AudioBuffer.t :=
  repeat (repeat x (Z.to_nat 480)) 2.


(** A processor as constructed, both allocations holding zeros, after
    [prepareToPlay(48000, 480)]. *)
Definition fresh : Processor.t :=
  Processor.prepareToPlay
    (Processor.new (AudioBuffer.zeros 2 Processor.maxLength)
                   (AudioBuffer.zeros 2 Processor.maxLength))
    rate48k 480.


(** A ring of four samples per channel and two stereo blocks of three
    samples: the second write wraps. *)
Definition ring4 : CircularAudioBuffer.t :=
  CircularAudioBuffer.new (AudioBuffer.zeros 2 4) 4.

Definition sixSamples : list AudioBuffer.t :=
  [ [ map Float.of_int [1; 2; 3]; map Float.of_int [11; 12; 13] ];
    [ map Float.of_int [4; 5; 6]; map Float.of_int [14; 15; 16] ] ].

(** Ten seconds of the ramp 0, 1, 2, ... at 48 kHz, on both channels. *)
Definition rampChannel : list spec_float :=
  map (fun i => Float.of_int (Z.of_nat i)) (seq 0 (Z.to_nat 480000)).

Definition ramp : AudioBuffer.t := repeat rampChannel 2.

(** A processor in the Trimming state whose trimmed buffer holds the
    ramp, the trim region set to [0, 0.001]: the samples 0 .. 480. *)
Definition trimming : Processor.t :=
  Processor.set_endPosition (Float.lit 1 1000)
    (Processor.set_trimmedBuffer ramp (Processor.set_state Trimming fresh)).

Definition log2_unused (x : Float.t) : Float.t := x.


Definition silence : AudioBuffer.t := block Float.zero.

(** The state in which the preview starts: the preview flag set, the
    position at 0, and the histogram empty with the note at 60, the
    region being shorter than a chunk of the analysis. *)
Definition started : Processor.t :=
  Processor.set_mostCommonNote 60
    (Processor.set_noteHistogram []
       (Processor.set_pitchDetector (Some (PitchDetector.new rate48k 480))
          (Processor.set_previewPosition 0
             (Processor.set_isPreviewActive true trimming)))).

(** The processor after [previewTrimmedSample], then one and two blocks. *)
Definition previewing : Processor.t :=
  match Processor.previewTrimmedSample log2_unused trimming with
  | Ok p => p
  | Fault _ => trimming
  end.



(** A train of unit impulses, one every [period] samples. *)
Definition impulses (period : Z) (n : nat) : list spec_float :=
  map (fun i => if Z.of_nat i mod period =? 0 then Float.one else Float.zero) (seq 0 n).

(** [pow] for the examples: exact for base 2 and the exponents -1, 0, 1,
    NaN elsewhere. *)
Definition pow2 (x y : Double.t) : Double.t :=
  if Double.eqb x Double.two then
    if Double.eqb y Double.zero then Double.one
    else if Double.eqb y Double.one then Double.two
    else if Double.eqb y (Double.of_int (-1)) then Double.lit 1 2
    else S754_nan
  else S754_nan.

(** A sound of one second of silence at 48 kHz with root note 60, and a
    voice playing note 72 on it. *)
Definition second : BufferedSamplerSound :=
  {| soundBuffer := AudioBuffer.zeros 2 48000; soundRootNote := 60 |}.

Definition playing : Voice.t :=
  Voice.noteOn pow2 Voice.new 72 Float.one (Buffered second).

(** The trim start set to 0.75 and then the trim end to 0.25 through the
    processor's own setters. *)
Definition crossed : Processor.t :=
  Processor.setEndPosition
    (Processor.setStartPosition fresh (Float.lit 3 4)) (Float.lit 1 4).

(** The same two values given to the sliders, then the end slider pulled
    to 0 and the start slider pushed to 1. *)
Definition sliding : list (Editor.slider * Double.t) :=
  [ (Editor.startSlider, Double.lit 3 4); (Editor.endSlider, Double.lit 1 4);
    (Editor.endSlider, Double.zero); (Editor.startSlider, Double.one) ].
End Scenario.

(** ** More examples *)

Module Examples.
(** A ring of four samples that holds the end of [Scenario.sixSamples],
    in a processor at 1 Hz asked for 6 s: six samples out of a ring of
    four. *)
Definition small : Processor.t :=
  Processor.set_currentSampleRate (Double.of_int 1)
    (Processor.set_bufferDuration (Float.of_int 6)
       (Processor.set_circularBuffer
          (fold_left CircularAudioBuffer.write Scenario.sixSamples Scenario.ring4)
          Scenario.fresh)).

(** The Trimming state with two chunks of silence in the trimmed
    buffer. *)
Definition quiet : Processor.t :=
  Processor.set_trimmedBuffer (AudioBuffer.zeros 2 4096)
    (Processor.set_state Trimming Scenario.fresh).

(** The Sampling state, entered from [Scenario.trimming]. *)
Definition sampling : Processor.t := Processor.enterSamplerMode Scenario.trimming.

(** The processor as constructed, before [prepareToPlay]. *)
Definition constructed : Processor.t :=
  Processor.new (AudioBuffer.zeros 2 Processor.maxLength)
                (AudioBuffer.zeros 2 Processor.maxLength).

(** Voices on [Scenario.second], whose root note is 60: one playing the
    note 48, an octave below, and one playing the root note. *)
Definition octaveBelow : Voice.t :=
  Voice.noteOn Scenario.pow2 Voice.new 48 Float.one (Buffered Scenario.second).

Definition atRoot : Voice.t :=
  Voice.noteOn Scenario.pow2 Voice.new 60 Float.one (Buffered Scenario.second).

Definition decimalName (note : Z) : String.string :=
  DecimalString.NilZero.string_of_int (Z.to_int note).
End Examples.

(** * Theorems *)
(** ** Facts on arrays *)

Lemma set_nth_length {A} (l : list A) i x : length (set_nth l i x) = length l.
Proof.
  revert i; induction l as [|h t IH]; intros [|i]; simpl; auto.
Qed.

Lemma set_nth_app {A} (pre post : list A) y x :
  set_nth (pre ++ y :: post) (length pre) x = pre ++ x :: post.
Proof.
  induction pre as [|h t IH]; simpl; [reflexivity | now rewrite IH].
Qed.

Lemma in_range_true {A} (l : list A) i :
  0 <= i < Z.of_nat (length l) -> in_range i l = true.
Proof.
  intros H. unfold in_range.
  apply andb_true_intro; split; [apply Z.leb_le | apply Z.ltb_lt]; lia.
Qed.

Lemma read_in_range {A} a (d : A) l i :
  0 <= i < Z.of_nat (length l) -> read a d l i = Ok (nth (Z.to_nat i) l d).
Proof.
  intros H. unfold read. now rewrite in_range_true.
Qed.

Lemma read_app_mid {A} a (d : A) pre y post :
  read a d (pre ++ y :: post) (Z.of_nat (length pre)) = Ok y.
Proof.
  rewrite read_in_range.
  - rewrite Nat2Z.id, app_nth2, Nat.sub_diag by lia. reflexivity.
  - rewrite length_app. simpl. lia.
Qed.

Lemma store_app_mid {A} a (pre : list A) y post x :
  store a (pre ++ y :: post) (Z.of_nat (length pre)) x = Ok (pre ++ x :: post).
Proof.
  unfold store. rewrite in_range_true.
  - now rewrite Nat2Z.id, set_nth_app.
  - rewrite length_app. simpl. lia.
Qed.

(** ** The detector on silence *)

Module PitchDetectorFacts.
Import PitchDetector.

Lemma sub_zeros x y :
  Float.is_zero x -> Float.is_zero y -> Float.is_zero (Float.sub x y).
Proof.
  intros [[] ->] [[] ->]; simpl; eexists; reflexivity.
Qed.

Lemma square_zero x : Float.is_zero x -> Float.mul x x = Float.zero.
Proof.
  intros [[] ->]; reflexivity.
Qed.

(** Whatever the dividend, dividing by +0 gives an infinity or a NaN, and
    +0 times that is a NaN. *)
Lemma zero_times_quotient_by_zero x :
  Float.mul Float.zero (Float.div x Float.zero) = S754_nan.
Proof.
  destruct x as [[]|[]| |[] m e]; reflexivity.
Qed.

Lemma nan_not_below x : Float.ltb S754_nan x = false.
Proof. reflexivity. Qed.

Lemma nth_zero buffer i :
  Forall Float.is_zero buffer -> (i < length buffer)%nat ->
  Float.is_zero (nth i buffer Float.zero).
Proof.
  intros HF Hi. rewrite Forall_forall in HF. apply HF, nth_In, Hi.
Qed.

Lemma difference_silence buffer tau :
  Forall Float.is_zero buffer -> 0 <= tau ->
  forall n j, 0 <= j -> j + Z.of_nat n + tau <= Z.of_nat (length buffer) ->
  difference buffer tau n j Float.zero = Ok Float.zero.
Proof.
  intros HF Htau. induction n as [|n IH]; intros j Hj Hlen; simpl.
  - reflexivity.
  - rewrite !read_in_range by lia. simpl.
    rewrite square_zero.
    + change (Float.add Float.zero Float.zero) with Float.zero.
      apply IH; lia.
    + apply sub_zeros; apply nth_zero; auto; lia.
Qed.

Lemma differences_silence buffer :
  Forall Float.is_zero buffer ->
  forall post pre tau,
  tau = Z.of_nat (length pre) ->
  2 * Z.of_nat (length (pre ++ post)) - 1 <= Z.of_nat (length buffer) ->
  differences buffer (length post) tau (pre ++ post)
  = Ok (pre ++ repeat Float.zero (length post)).
Proof.
  intros HF. induction post as [|y post IH]; intros pre tau -> Hlen;
    cbn [differences length repeat].
  - now rewrite app_nil_r.
  - assert (Hl : Z.of_nat (length (pre ++ y :: post))
                 = Z.of_nat (length pre) + Z.of_nat (length post) + 1)
      by (rewrite length_app; cbn [length]; lia).
    rewrite difference_silence; auto; try lia.
    cbn [bind]. rewrite store_app_mid. cbn [bind].
    replace (pre ++ Float.zero :: post) with ((pre ++ [Float.zero]) ++ post)
      by (now rewrite <- app_assoc).
    rewrite (IH (pre ++ [Float.zero]) (Z.of_nat (length pre) + 1)).
    + now rewrite <- app_assoc.
    + rewrite length_app. cbn [length]. lia.
    + rewrite <- app_assoc. cbn [app].
      rewrite length_app in *. cbn [length] in *. lia.
Qed.

Lemma normalise_silence :
  forall n pre tau sum,
  tau = Z.of_nat (length pre) -> sum = Float.zero ->
  normalise n tau sum (pre ++ repeat Float.zero n)
  = Ok (pre ++ repeat S754_nan n).
Proof.
  induction n as [|n IH]; intros pre tau sum -> ->; cbn [normalise repeat].
  - reflexivity.
  - rewrite read_app_mid. cbn [bind].
    change (Float.add Float.zero Float.zero) with Float.zero.
    rewrite zero_times_quotient_by_zero, store_app_mid. cbn [bind].
    replace (pre ++ S754_nan :: repeat Float.zero n)
      with ((pre ++ [S754_nan]) ++ repeat Float.zero n)
      by (now rewrite <- app_assoc).
    rewrite (IH (pre ++ [S754_nan])).
    + now rewrite <- app_assoc.
    + rewrite length_app. cbn [length]. lia.
    + reflexivity.
Qed.

(** The scan over entries that are all NaN finds no minimum. *)
Lemma scan_all_nan sr :
  forall n pre post tau,
  tau = Z.of_nat (length pre) ->
  scan sr (pre ++ repeat S754_nan n ++ post) n tau = Ok None.
Proof.
  induction n as [|n IH]; intros pre post tau ->; cbn [scan repeat app].
  - reflexivity.
  - rewrite read_app_mid. cbn [bind].
    change (Float.ltb S754_nan threshold) with false. cbv iota.
    replace (pre ++ S754_nan :: repeat S754_nan n ++ post)
      with ((pre ++ [S754_nan]) ++ repeat S754_nan n ++ post)
      by (now rewrite <- app_assoc).
    apply IH. rewrite length_app. cbn [length]. lia.
Qed.



End PitchDetectorFacts.


(** ** Array accesses of the detector *)

Module PitchDetectorBounds.
Import PitchDetector.

(** C6.  Two frames of 2048 samples on which [detectPitch] leaves an
    array.  With the detector of a host block of 4096 samples
    ([yinBuffer] of 2048 entries) the difference loop reads
    [buffer[2048]] at lag 1.  With the detector of a host block of 64
    samples ([yinBuffer] of 32 entries) and an impulse train of period 31,
    the scan reaches the last lag 31 with a value below the threshold and
    below its left neighbour, and reads [yinBuffer[32]]. *)
Theorem detectPitch_leaves_arrays :
  detectPitch (new Scenario.rate48k 4096) (repeat Float.zero 2048) 2048
  = Fault (OutOfBounds BufferArg 2048)
  /\ detectPitch (new Scenario.rate48k 64) (Scenario.impulses 31 2048) 2048
     = Fault (OutOfBounds YinBuffer 32).
Proof.
  split; vm_compute; reflexivity.
Qed.

End PitchDetectorBounds.

(** ** Rotations and suffixes of lists *)

Section ListFacts.
Context {A : Type}.
Implicit Types l v m pre post : list A.
Import CircularAudioBuffer.

Lemma skipn_exact l m : skipn (length l) (l ++ m) = m.
Proof. now rewrite skipn_app, skipn_all, Nat.sub_diag. Qed.

Lemma firstn_exact l m : firstn (length l) (l ++ m) = l.
Proof.
  now rewrite firstn_app, firstn_all, Nat.sub_diag, firstn_O, app_nil_r.
Qed.

Lemma split_at l p (d : A) :
  (p < length l)%nat ->
  l = firstn p l ++ nth p l d :: skipn (S p) l /\ length (firstn p l) = p.
Proof.
  revert p; induction l as [|h t IH]; intros p Hp; simpl in Hp; [lia|].
  destruct p as [|p]; simpl.
  - split; reflexivity.
  - destruct (IH p ltac:(lia)) as [E L]. split.
    + f_equal. exact E.
    + f_equal. exact L.
Qed.

Lemma rotate_length k l : length (rotate k l) = length l.
Proof.
  unfold rotate. rewrite length_app, length_skipn, length_firstn. lia.
Qed.

Lemma rotate_mid pre y post : rotate (length pre) (pre ++ y :: post) = y :: post ++ pre.
Proof.
  unfold rotate. now rewrite skipn_exact, firstn_exact.
Qed.

Lemma rotate_0 l : rotate 0 l = l.
Proof. unfold rotate. simpl. apply app_nil_r. Qed.

Lemma rotate_all l : rotate (length l) l = l.
Proof. unfold rotate. now rewrite skipn_all, firstn_all. Qed.

(** Overwriting the oldest element and stepping the position drops the
    oldest element and appends the new one. *)
Lemma rotate_overwrite pre y post x :
  rotate (if (S (length pre) =? length (pre ++ y :: post))%nat then 0 else S (length pre))
         (pre ++ x :: post)
  = post ++ pre ++ [x].
Proof.
  rewrite length_app. cbn [length].
  destruct post as [|z post].
  - cbn [length]. replace (length pre + 1 =? length pre + 1)%nat with true
      by (symmetry; apply Nat.eqb_eq; lia).
    rewrite Nat.add_comm. cbn [Nat.add]. rewrite Nat.eqb_refl.
    now rewrite rotate_0.
  - replace (S (length pre) =? length pre + S (length (z :: post)))%nat with false
      by (symmetry; apply Nat.eqb_neq; cbn [length]; lia).
    replace (pre ++ x :: z :: post) with ((pre ++ [x]) ++ z :: post)
      by (now rewrite <- app_assoc).
    replace (S (length pre)) with (length (pre ++ [x]))
      by (rewrite length_app; cbn [length]; lia).
    now rewrite rotate_mid.
Qed.

Lemma lastn_all n l : (length l <= n)%nat -> lastn n l = l.
Proof.
  intros H. unfold lastn. replace (length l - n)%nat with 0%nat by lia. reflexivity.
Qed.

Lemma lastn_length n l : (n <= length l)%nat -> length (lastn n l) = n.
Proof. intros H. unfold lastn. rewrite length_skipn. lia. Qed.

Lemma lastn_app n l m : (n <= length m)%nat -> lastn n (l ++ m) = lastn n m.
Proof.
  intros H. unfold lastn. rewrite skipn_app, length_app.
  replace (length l + length m - n - length l)%nat with (length m - n)%nat by lia.
  rewrite skipn_all2 by lia. reflexivity.
Qed.

Lemma lastn_lastn_app n l m : lastn n (lastn n l ++ m) = lastn n (l ++ m).
Proof.
  destruct (Nat.le_gt_cases (length l) n) as [H|H].
  - now rewrite (lastn_all n l).
  - unfold lastn at 2.
    rewrite <- (firstn_skipn (length l - n) l) at 3.
    rewrite <- app_assoc.
    rewrite (lastn_app n (firstn (length l - n) l)); [reflexivity|].
    rewrite length_app, length_skipn. lia.
Qed.

Lemma lastn_lastn n k l : (k <= n)%nat -> lastn k (lastn n l) = lastn k l.
Proof.
  intros H. destruct (Nat.le_gt_cases (length l) n) as [Hl|Hl].
  - now rewrite (lastn_all n l).
  - unfold lastn at 2.
    rewrite <- (firstn_skipn (length l - n) l) at 3.
    rewrite lastn_app; [reflexivity|]. rewrite length_skipn. lia.
Qed.

Lemma rotate_succ k l :
  (k < length l)%nat -> rotate (S k) l = rotate 1 (rotate k l).
Proof.
  intros H.
  destruct l as [|a l]; [simpl in H; lia|].
  destruct (split_at (a :: l) k a H) as [E L].
  set (pre := firstn k (a :: l)) in *. set (y := nth k (a :: l) a) in *.
  set (post := skipn (S k) (a :: l)) in *.
  rewrite E. rewrite <- L at 2. rewrite rotate_mid.
  unfold rotate at 2. cbn [skipn firstn].
  replace (pre ++ y :: post) with ((pre ++ [y]) ++ post) by (now rewrite <- app_assoc).
  replace (S k) with (length (pre ++ [y])) by (rewrite length_app; cbn [length]; lia).
  unfold rotate. rewrite skipn_exact, firstn_exact.
  now rewrite <- app_assoc.
Qed.

End ListFacts.

(** ** The ring buffer *)

Module RingFacts.
Import CircularAudioBuffer.

Lemma advance_range size pos : 0 <= pos < size -> 0 <= advance size pos < size.
Proof.
  intros H. unfold advance. destruct (Z.leb_spec size (pos + 1)); lia.
Qed.

Lemma advance_mod size pos : 0 <= pos < size -> advance size pos = (pos + 1) mod size.
Proof.
  intros H. unfold advance. destruct (Z.leb_spec size (pos + 1)).
  - replace (pos + 1) with size by lia. now rewrite Z.mod_same by lia.
  - now rewrite Z.mod_small by lia.
Qed.

Lemma advance_nat {A} size pos (chan : list A) :
  0 <= pos < size -> Z.of_nat (length chan) = size ->
  Z.to_nat (advance size pos)
  = if (S (Z.to_nat pos) =? length chan)%nat then 0%nat else S (Z.to_nat pos).
Proof.
  intros H E. unfold advance.
  destruct (Z.leb_spec size (pos + 1)); destruct (Nat.eqb_spec (S (Z.to_nat pos)) (length chan));
    lia.
Qed.

Lemma write_channel_length size src : forall chan pos,
  length (write_channel size chan pos src) = length chan.
Proof.
  induction src as [|x rest IH]; intros chan pos; cbn [write_channel].
  - reflexivity.
  - now rewrite IH, set_nth_length.
Qed.

(** One channel after the inner loop of [write]: read in time order from
    the new position, it is the old reading with the source appended, cut
    to the ring's length. *)
Lemma write_channel_spec size src : forall chan pos,
  Z.of_nat (length chan) = size -> 0 <= pos < size ->
  rotate (Z.to_nat ((pos + Z.of_nat (length src)) mod size))
         (write_channel size chan pos src)
  = lastn (length chan) (rotate (Z.to_nat pos) chan ++ src).
Proof.
  induction src as [|x rest IH]; intros chan pos Hlen Hpos; cbn [write_channel length].
  - rewrite Z.add_0_r, Z.mod_small, app_nil_r by lia.
    rewrite lastn_all; [reflexivity | rewrite rotate_length; lia].
  - specialize (IH (set_nth chan (Z.to_nat pos) x) (advance size pos)
                  ltac:(rewrite set_nth_length; exact Hlen) (advance_range size pos Hpos)).
    rewrite advance_mod in IH at 1 by exact Hpos.
    rewrite Zplus_mod_idemp_l in IH.
    replace (pos + Z.of_nat (S (length rest))) with (pos + 1 + Z.of_nat (length rest)) by lia.
    rewrite IH, set_nth_length. clear IH.
    rewrite (advance_nat size pos chan Hpos Hlen).
    destruct (split_at chan (Z.to_nat pos) Float.zero ltac:(lia)) as [E L].
    remember (firstn (Z.to_nat pos) chan) as pre eqn:Hpre.
    remember (nth (Z.to_nat pos) chan Float.zero) as y eqn:Hy.
    remember (skipn (S (Z.to_nat pos)) chan) as post eqn:Hpost.
    clear Hpre Hy Hpost. subst chan. rewrite <- L.
    rewrite set_nth_app, rotate_overwrite, rotate_mid.
    change ((y :: post ++ pre) ++ x :: rest) with ([y] ++ (post ++ pre) ++ x :: rest).
    rewrite (lastn_app _ [y]).
    + now rewrite <- !app_assoc.
    + rewrite !length_app. cbn [length]. lia.
Qed.

Lemma write_channels_length size pos : forall ring src,
  length (write_channels size pos ring src) = length ring.
Proof.
  induction ring as [|chan ring IH]; intros [|s src]; cbn [write_channels length]; auto.
Qed.

Lemma write_channels_nth size pos : forall ring src c,
  (c < length ring)%nat -> (c < length src)%nat ->
  nth c (write_channels size pos ring src) []
  = write_channel size (nth c ring []) pos (nth c src []).
Proof.
  induction ring as [|chan ring IH]; intros [|s src] c Hr Hs;
    cbn [length] in *; try lia.
  destruct c as [|c]; cbn [write_channels nth]; [reflexivity|].
  apply IH; lia.
Qed.

Lemma write_channels_lengths size pos : forall ring src,
  Forall (fun ch => Z.of_nat (length ch) = size) ring ->
  Forall (fun ch => Z.of_nat (length ch) = size) (write_channels size pos ring src).
Proof.
  induction ring as [|chan ring IH]; intros [|s src] H; cbn [write_channels]; auto.
  inversion H; subst. constructor.
  - now rewrite write_channel_length.
  - now apply IH.
Qed.

Lemma write_well_formed rb block : well_formed rb -> well_formed (write rb block).
Proof.
  intros (Hs & Hp & Hl). unfold well_formed, write. cbn [size writePos buffer].
  split; [exact Hs|]. split.
  - rewrite Z.rem_mod_nonneg by (unfold AudioBuffer.getNumSamples; lia).
    apply Z.mod_pos_bound. exact Hs.
  - now apply write_channels_lengths.
Qed.

Lemma channel_length rb c :
  well_formed rb -> (c < length (buffer rb))%nat ->
  Z.of_nat (length (AudioBuffer.channel (buffer rb) c)) = size rb.
Proof.
  intros (_ & _ & Hl) Hc. rewrite Forall_forall in Hl.
  apply Hl. apply nth_In. exact Hc.
Qed.

Lemma rectangular_channel (b : AudioBuffer.t) c :
  AudioBuffer.rectangular b -> (c < length b)%nat ->
  Z.of_nat (length (AudioBuffer.channel b c)) = AudioBuffer.getNumSamples b.
Proof.
  intros H Hc. unfold AudioBuffer.rectangular in H. rewrite Forall_forall in H.
  apply H. apply nth_In. exact Hc.
Qed.

(** [write] appends the block to what the ring holds, oldest samples
    dropped. *)
Lemma write_chronological rb block c :
  well_formed rb -> AudioBuffer.rectangular block ->
  (c < length (buffer rb))%nat -> (c < length block)%nat ->
  chronological (write rb block) c
  = lastn (Z.to_nat (size rb)) (chronological rb c ++ AudioBuffer.channel block c).
Proof.
  intros Hwf Hrect Hc Hb. pose proof Hwf as (Hs & Hp & Hl).
  unfold chronological, write, AudioBuffer.channel. cbn [buffer writePos size].
  rewrite write_channels_nth by assumption.
  pose proof (channel_length rb c Hwf Hc) as Hlen.
  pose proof (rectangular_channel block c Hrect Hb) as Hn.
  unfold AudioBuffer.channel in *.
  rewrite Z.rem_mod_nonneg by (unfold AudioBuffer.getNumSamples; lia).
  rewrite <- Hn.
  rewrite (write_channel_spec (size rb) (nth c block []) (nth c (buffer rb) []) (writePos rb) Hlen Hp).
  f_equal. lia.
Qed.

Lemma fold_write_well_formed blocks : forall rb,
  well_formed rb -> well_formed (fold_left write blocks rb).
Proof.
  induction blocks as [|b blocks IH]; intros rb H; cbn [fold_left]; auto.
  apply IH. now apply write_well_formed.
Qed.

Lemma fold_write_size blocks : forall rb,
  size (fold_left write blocks rb) = size rb
  /\ length (buffer (fold_left write blocks rb)) = length (buffer rb).
Proof.
  induction blocks as [|b blocks IH]; intros rb; cbn [fold_left]; auto.
  destruct (IH (write rb b)) as [E1 E2]. rewrite E1, E2.
  unfold write. cbn [size buffer]. now rewrite write_channels_length.
Qed.

(** After any sequence of [write] calls, the ring read in time order is
    what it held before followed by everything written, cut to the last
    [size] samples. *)
Lemma writes_chronological blocks c : forall rb,
  well_formed rb -> (c < length (buffer rb))%nat ->
  Forall (feeds c) blocks ->
  chronological (fold_left write blocks rb) c
  = lastn (Z.to_nat (size rb)) (chronological rb c ++ recorded blocks c).
Proof.
  induction blocks as [|b blocks IH]; intros rb Hwf Hc HF; cbn [fold_left].
  - unfold recorded. cbn [map concat]. rewrite app_nil_r.
    rewrite lastn_all; [reflexivity|].
    unfold chronological. rewrite rotate_length.
    pose proof (channel_length rb c Hwf Hc). lia.
  - inversion HF as [|? ? [Hrect Hb] HF']; subst.
    rewrite IH; auto using write_well_formed.
    2:{ unfold write. cbn [buffer]. now rewrite write_channels_length. }
    rewrite write_chronological by assumption.
    unfold write at 1. cbn [size].
    unfold recorded. cbn [map concat].
    now rewrite lastn_lastn_app, <- app_assoc.
Qed.

Lemma rotate_step {A} (l : list A) k :
  (k < length l)%nat ->
  rotate (if (S k =? length l)%nat then 0%nat else S k) l = rotate 1 (rotate k l).
Proof.
  intros H. destruct (Nat.eqb_spec (S k) (length l)) as [E|E].
  - rewrite <- rotate_succ by exact H. now rewrite E, rotate_all, rotate_0.
  - now rewrite rotate_succ.
Qed.

Lemma rotate_head {A} (l : list A) k d :
  (k < length l)%nat -> rotate k l = nth k l d :: tl (rotate k l).
Proof.
  intros H. destruct (split_at l k d H) as [E L].
  assert (R : rotate k l = nth k l d :: skipn (S k) l ++ firstn k l).
  { rewrite E at 1. rewrite <- L at 1. apply rotate_mid. }
  rewrite R. reflexivity.
Qed.

(** The inner loop of [copyTo] on one channel: [n] samples of the ring,
    in ring order from [readPos], land at the destination's indices
    [i .. i + n). *)
Lemma copy_channel_spec size chan : forall n pre post readPos,
  Z.of_nat (length chan) = size -> 0 <= readPos < size ->
  (n <= length post)%nat -> (n <= length chan)%nat ->
  copy_channel size chan (pre ++ post) readPos n (Z.of_nat (length pre))
  = pre ++ firstn n (rotate (Z.to_nat readPos) chan) ++ skipn n post.
Proof.
  induction n as [|n IH]; intros pre post r Hlen Hr Hpost Hchan; cbn [copy_channel].
  - reflexivity.
  - destruct post as [|d0 post]; [cbn [length] in Hpost; lia|].
    rewrite Nat2Z.id, set_nth_app.
    replace (pre ++ nth (Z.to_nat r) chan Float.zero :: post)
      with ((pre ++ [nth (Z.to_nat r) chan Float.zero]) ++ post)
      by (now rewrite <- app_assoc).
    replace (Z.of_nat (length pre) + 1)
      with (Z.of_nat (length (pre ++ [nth (Z.to_nat r) chan Float.zero])))
      by (rewrite length_app; cbn [length]; lia).
    rewrite IH; auto using advance_range; cbn [length] in *; try lia.
    rewrite <- app_assoc. cbn [app skipn]. f_equal.
    rewrite (advance_nat size r chan Hr Hlen).
    rewrite rotate_step by lia.
    rewrite (rotate_head chan (Z.to_nat r) Float.zero) at 2 by lia.
    cbn [firstn]. f_equal. f_equal.
    rewrite (rotate_head chan (Z.to_nat r) Float.zero) at 1 by lia.
    unfold rotate at 1. cbn [skipn firstn].
    rewrite firstn_app.
    assert (Hn : length (tl (rotate (Z.to_nat r) chan)) = (length chan - 1)%nat).
    { pose proof (rotate_length (Z.to_nat r) chan) as Hrl.
      rewrite (rotate_head chan (Z.to_nat r) Float.zero) in Hrl by lia.
      cbn [length] in Hrl. lia. }
    replace (n - length (tl (rotate (Z.to_nat r) chan)))%nat with 0%nat by lia.
    cbn [firstn]. now rewrite app_nil_r.
Qed.

Lemma copy_channels_nth size readPos n : forall ring dest c,
  (c < length ring)%nat -> (c < length dest)%nat ->
  nth c (copy_channels size readPos n ring dest) []
  = copy_channel size (nth c ring []) (nth c dest []) readPos n 0.
Proof.
  induction ring as [|chan ring IH]; intros [|d dest] c Hr Hd;
    cbn [length] in *; try lia.
  destruct c as [|c]; cbn [copy_channels nth]; [reflexivity|].
  apply IH; lia.
Qed.


(** Rotating from position [p] by [k] more is rotating to [(p + k) mod n]. *)
Lemma rotate_rotate {A} (l : list A) p : forall k,
  (p < length l)%nat -> (k <= length l)%nat ->
  rotate ((p + k) mod length l) l = rotate k (rotate p l).
Proof.
  induction k as [|k IH]; intros Hp Hk.
  - now rewrite Nat.add_0_r, Nat.mod_small, rotate_0.
  - rewrite rotate_succ by (rewrite rotate_length; lia).
    rewrite <- IH by lia.
    assert (Hq : ((p + k) mod length l < length l)%nat)
      by (apply Nat.mod_upper_bound; lia).
    rewrite <- rotate_step by exact Hq.
    f_equal.
    replace (p + S k)%nat with ((p + k) + 1)%nat by lia.
    rewrite <- Nat.Div0.add_mod_idemp_l.
    destruct (Nat.eqb_spec (S ((p + k) mod length l)) (length l)) as [E|E].
    + replace ((p + k) mod length l + 1)%nat with (length l) by lia.
      now rewrite Nat.Div0.mod_same.
    + rewrite Nat.mod_small; lia.
Qed.

(** The read position [copyTo] starts from. *)
Lemma startPos_mod rb startSample :
  well_formed rb -> 0 <= startSample <= size rb ->
  startPos rb startSample = (writePos rb + startSample) mod size rb.
Proof.
  intros (Hs & Hp & _) Hstart. unfold startPos.
  set (x := writePos rb - size rb + startSample).
  assert (Hx : - size rb <= x < size rb) by (unfold x; lia).
  replace (writePos rb + startSample) with (x + 1 * size rb) by (unfold x; lia).
  rewrite Z.mod_add by lia.
  destruct (Z.eq_dec x (- size rb)) as [E|E].
  - rewrite E, Z.rem_opp_l, Z.rem_same by lia. cbn [Z.opp Z.ltb Z.compare].
    replace (- size rb) with (-1 * size rb) by lia.
    now rewrite Z.mod_mul by lia.
  - assert (Hrem : Z.rem x (size rb) = x).
    { destruct (Z_lt_le_dec x 0) as [Hn|Hn].
      - rewrite <- (Z.opp_involutive x).
        rewrite Z.rem_opp_l by lia. now rewrite Z.rem_small by lia.
      - apply Z.rem_small. lia. }
    rewrite Hrem.
    destruct (Z.ltb_spec x 0).
    + replace x with (x + size rb + (-1) * size rb) at 2 by lia.
      rewrite Z.mod_add, Z.mod_small; lia.
    + rewrite Z.mod_small; lia.
Qed.

(** [copyTo(dest, startSample, endSample)] reads the samples numbered
    [startSample .. endSample), number 0 being the oldest sample the ring
    holds (the one [size] samples before the write position), and writes
    them to the start of each destination channel. *)
Lemma copyTo_window rb dest startSample endSample c :
  well_formed rb -> AudioBuffer.rectangular dest ->
  (c < length (buffer rb))%nat -> (c < length dest)%nat ->
  0 <= startSample <= endSample -> endSample <= size rb ->
  let n := Z.to_nat (Z.min (AudioBuffer.getNumSamples dest) (endSample - startSample)) in
  AudioBuffer.channel (copyTo rb dest startSample endSample) c
  = firstn n (skipn (Z.to_nat startSample) (chronological rb c))
    ++ skipn n (AudioBuffer.channel dest c).
Proof.
  intros Hwf Hrect Hc Hd Hse He n. pose proof Hwf as (Hs & Hp & _).
  pose proof (channel_length rb c Hwf Hc) as Hlen.
  pose proof (rectangular_channel dest c Hrect Hd) as Hdl.
  unfold copyTo, chronological, AudioBuffer.channel in *. fold n.
  rewrite copy_channels_nth by assumption.
  pose proof (copy_channel_spec (size rb) (nth c (buffer rb) []) n []
                (nth c dest []) (startPos rb startSample)) as Hcopy.
  cbn [app length Z.of_nat] in Hcopy. rewrite Hcopy; clear Hcopy; try lia.
  2:{ rewrite startPos_mod by (auto; lia). apply Z.mod_pos_bound. lia. }
  f_equal.
  rewrite startPos_mod by (auto; lia).
  replace (Z.to_nat ((writePos rb + startSample) mod size rb))
    with ((Z.to_nat (writePos rb) + Z.to_nat startSample) mod length (nth c (buffer rb) []))%nat.
  2:{ apply Nat2Z.inj. rewrite Nat2Z.inj_mod, Nat2Z.inj_add, !Z2Nat.id, Hlen; try lia.
      apply Z.mod_pos_bound. lia. }
  rewrite rotate_rotate by lia.
  unfold rotate at 1. rewrite firstn_app.
  rewrite length_skipn, rotate_length.
  replace (n - (length (nth c (buffer rb) []) - Z.to_nat startSample))%nat with 0%nat by lia.
  cbn [firstn]. now rewrite app_nil_r.
Qed.

(** C2.  Whatever the ring held, after any sequence of [write] calls a
    [copyTo] over the window of [W <= size] samples that ends at the write
    position (sample offsets [size - W .. size)) puts in each destination
    channel the [W] samples written last to that channel, in the order
    they were written; the destination beyond [W] is untouched. *)
Theorem copyTo_roundtrip (rb : t) (blocks : list AudioBuffer.t)
    (dest : AudioBuffer.t) (W : Z) (c : nat) :
  well_formed rb ->
  Forall (feeds c) blocks ->
  AudioBuffer.rectangular dest ->
  (c < length (buffer rb))%nat -> (c < length dest)%nat ->
  0 <= W <= size rb ->
  W <= Z.of_nat (length (recorded blocks c)) ->
  W <= AudioBuffer.getNumSamples dest ->
  let rb' := fold_left write blocks rb in
  AudioBuffer.channel (copyTo rb' dest (size rb' - W) (size rb')) c
  = lastn (Z.to_nat W) (recorded blocks c)
    ++ skipn (Z.to_nat W) (AudioBuffer.channel dest c).
Proof.
  intros Hwf HF Hrect Hc Hd HW Hrec Hdest rb'.
  pose proof (fold_write_size blocks rb) as [Esize Echan]. fold rb' in Esize, Echan.
  pose proof (fold_write_well_formed blocks rb Hwf) as Hwf'. fold rb' in Hwf'.
  rewrite copyTo_window; auto; try lia.
  replace (Z.min (AudioBuffer.getNumSamples dest) (size rb' - (size rb' - W))) with W by lia.
  f_equal. unfold rb'.
  rewrite writes_chronological by assumption.
  fold rb'. rewrite Esize.
  set (v := lastn (Z.to_nat (size rb)) (chronological rb c ++ recorded blocks c)).
  assert (Hv : length v = Z.to_nat (size rb)).
  { unfold v. apply lastn_length. rewrite length_app. unfold chronological.
    rewrite rotate_length. pose proof (channel_length rb c Hwf Hc). lia. }
  rewrite firstn_all2 by (rewrite length_skipn; lia).
  replace (Z.to_nat (size rb - W)) with (length v - Z.to_nat W)%nat by lia.
  change (skipn (length v - Z.to_nat W) v) with (lastn (Z.to_nat W) v).
  unfold v. rewrite lastn_lastn by lia.
  apply lastn_app. lia.
Qed.

Lemma copyTo_roundtrip_witness :
  AudioBuffer.channel
    (copyTo (fold_left write Scenario.sixSamples Scenario.ring4)
            (AudioBuffer.zeros 2 3) (4 - 3) 4) 0
  = map Float.of_int [4; 5; 6].
Proof.
  apply (copyTo_roundtrip Scenario.ring4 Scenario.sixSamples (AudioBuffer.zeros 2 3) 3 0).
  - unfold well_formed. cbn. repeat split; try lia. repeat constructor.
  - unfold Scenario.sixSamples, feeds, AudioBuffer.rectangular.
    repeat constructor.
  - unfold AudioBuffer.rectangular. repeat constructor.
  - apply Nat.ltb_lt. reflexivity.
  - apply Nat.ltb_lt. reflexivity.
  - split; apply Z.leb_le; reflexivity.
  - apply Z.leb_le. reflexivity.
  - apply Z.leb_le. reflexivity.
Defined.

End RingFacts.

(** ** Entering the Trimming state *)

Module TrimFacts.
Import Processor.


Lemma zeros_channel channels samples c :
  (c < Z.to_nat channels)%nat ->
  AudioBuffer.channel (AudioBuffer.zeros channels samples) c
  = repeat Float.zero (Z.to_nat samples).
Proof.
  intros H. unfold AudioBuffer.channel, AudioBuffer.zeros.
  apply (repeat_spec (Z.to_nat channels)). apply nth_In. now rewrite repeat_length.
Qed.

Lemma zeros_numSamples channels samples :
  0 < channels -> 0 <= samples ->
  AudioBuffer.getNumSamples (AudioBuffer.zeros channels samples) = samples.
Proof.
  intros Hc Hs. unfold AudioBuffer.getNumSamples.
  replace (hd [] (AudioBuffer.zeros channels samples))
    with (nth 0 (AudioBuffer.zeros channels samples) [])
    by (now destruct (AudioBuffer.zeros channels samples)).
  pose proof (zeros_channel channels samples 0 ltac:(lia)) as E.
  unfold AudioBuffer.channel in E. rewrite E, repeat_length. lia.
Qed.

Lemma zeros_rectangular channels samples :
  0 < channels -> 0 <= samples ->
  AudioBuffer.rectangular (AudioBuffer.zeros channels samples).
Proof.
  intros Hc Hs. unfold AudioBuffer.rectangular.
  rewrite zeros_numSamples by assumption.
  unfold AudioBuffer.zeros. apply Forall_forall. intros ch Hin.
  apply repeat_spec in Hin. subst ch. rewrite repeat_length. lia.
Qed.

Lemma clear_outputs_none numIn numOut : forall b i,
  numOut <= numIn -> clear_outputs numIn numOut i b = b.
Proof.
  induction b as [|chan rest IH]; intros i H; cbn [clear_outputs]; [reflexivity|].
  rewrite IH by exact H.
  destruct (Z.leb_spec numIn i); destruct (Z.ltb_spec i numOut); cbn [andb];
    try reflexivity; lia.
Qed.

Section Recording.
Variable MidiBuffer : Type.
Variable render :
  Synthesiser.t -> AudioBuffer.t -> MidiBuffer -> Z -> Z -> Synthesiser.t * AudioBuffer.t.




End Recording.

End TrimFacts.

(** ** The "10s" button after a minute of input *)

Module TrimScenario.
Import Processor Scenario.





Lemma fresh_ring_well_formed : CircularAudioBuffer.well_formed (circularBuffer fresh).
Proof.
  unfold CircularAudioBuffer.well_formed.
  change (CircularAudioBuffer.size (circularBuffer fresh)) with 2880000.
  change (CircularAudioBuffer.writePos (circularBuffer fresh)) with 0.
  change (CircularAudioBuffer.buffer (circularBuffer fresh))
    with (AudioBuffer.zeros 2 maxLength).
  repeat split; try lia.
  apply Forall_forall. intros ch Hin. unfold AudioBuffer.zeros in Hin.
  apply repeat_spec in Hin. subst ch. rewrite repeat_length.
  unfold maxLength. lia.
Qed.






End TrimScenario.

(** ** The voice: note on *)

Module VoiceFacts.
Import Voice.

Section NoteOn.
Variable std_pow : Double.t -> Double.t -> Double.t.

(** [pow] is exact at the three exponents the octave cases use, as the
    [pow] of an IEEE-754 libm is. *)
Hypothesis pow_2_0 : std_pow Double.two Double.zero = Double.one.
Hypothesis pow_2_1 : std_pow Double.two Double.one = Double.two.
Hypothesis pow_2_m1 : std_pow Double.two (Double.of_int (-1)) = Double.lit 1 2.

(** C8.  A note-on with a sampler sound sets the rate to
    [pow(2, (midiNote - rootNote) / 12)], the read position to 0, the
    gain to [velocity * 0.15] and the tail-off to 0.  The quotient is
    exactly 0, 1 and -1 for the root note and the notes an octave above
    and below, so that the rate is 1, 2 and 0.5 there. *)
Theorem noteOn_rate (v : t) (midiNote : Z) (velocity : Float.t)
    (sound : BufferedSamplerSound) :
  let root := soundRootNote sound in
  let v' := noteOn std_pow v midiNote velocity (Buffered sound) in
  rate v' = std_pow Double.two
              (Double.div (Double.of_int (midiNote - root)) (Double.of_int 12))
  /\ sourceSamplePosition v' = 0
  /\ level v' = Double.mul (Double.of_float velocity) (Double.lit 15 100)
  /\ tailOff v' = Double.zero
  /\ rootNote v' = root
  /\ sampleBuffer v' = Some (soundBuffer sound)
  /\ currentlyPlayingNote v' = midiNote
  /\ (midiNote = root -> rate v' = Double.one)
  /\ (midiNote = root + 12 -> rate v' = Double.two)
  /\ (midiNote = root - 12 -> rate v' = Double.lit 1 2).
Proof.
  intros root v'. unfold v', noteOn, startNote. cbn [rate sourceSamplePosition
    level tailOff rootNote sampleBuffer currentlyPlayingNote]. fold root.
  repeat split.
  - intros ->. rewrite Z.sub_diag. exact pow_2_0.
  - intros ->. replace (root + 12 - root) with 12 by lia. exact pow_2_1.
  - intros ->. replace (root - 12 - root) with (-12) by lia. exact pow_2_m1.
Qed.
End NoteOn.

Lemma noteOn_rate_witness :
  let v' := noteOn Scenario.pow2 Voice.new 72 Float.one (Buffered Scenario.second) in
  rate v' = Scenario.pow2 Double.two
              (Double.div (Double.of_int (72 - 60)) (Double.of_int 12))
  /\ sourceSamplePosition v' = 0
  /\ level v' = Double.mul (Double.of_float Float.one) (Double.lit 15 100)
  /\ tailOff v' = Double.zero
  /\ rootNote v' = 60
  /\ sampleBuffer v' = Some (soundBuffer Scenario.second)
  /\ currentlyPlayingNote v' = 72
  /\ (72 = 60 -> rate v' = Double.one)
  /\ (72 = 60 + 12 -> rate v' = Double.two)
  /\ (72 = 60 - 12 -> rate v' = Double.lit 1 2).
Proof.
  apply (noteOn_rate Scenario.pow2); vm_compute; reflexivity.
Defined.

(** ** The voice: note off and the release *)

Import Release.

Lemma with_release_same v :
  with_release v (tailOff v) (sourceSamplePosition v) = v.
Proof. destruct v; reflexivity. Qed.

Section Render.
Variable inL : list spec_float.
Variable inR : option (list spec_float).
Variable bufferSize : Z.


End Render.










End VoiceFacts.

(** ** Preview playback *)

Module PreviewFacts.
Import Processor.




Lemma hd_nth {A} (l : list A) d : hd d l = nth 0 l d.
Proof. destruct l; reflexivity. Qed.

Lemma mix_preview_length numSamples pos n : forall buffer trimmed,
  length (mix_preview numSamples pos n buffer trimmed) = length buffer.
Proof.
  induction buffer as [|chan rest IH]; intros trimmed; cbn [mix_preview length]; auto.
Qed.


Lemma slice_length chan start n :
  0 <= start -> 0 <= n -> start + n <= Z.of_nat (length chan) ->
  length (slice chan start n) = Z.to_nat n.
Proof.
  intros Hs Hn Hl. unfold slice. rewrite length_firstn, length_skipn. lia.
Qed.



Section Preview.
Variable MidiBuffer : Type.
Variable render :
  Synthesiser.t -> AudioBuffer.t -> MidiBuffer -> Z -> Z -> Synthesiser.t * AudioBuffer.t.


End Preview.

End PreviewFacts.

(** ** Two blocks of preview over the region [0, 480) *)

Module PreviewScenario.
Import Processor Scenario.

Lemma ramp_channels : ramp = [rampChannel; rampChannel].
Proof. reflexivity. Qed.

Lemma rampChannel_length : Z.of_nat (length rampChannel) = 480000.
Proof. unfold rampChannel. rewrite length_map, length_seq. lia. Qed.

Lemma ramp_samples : AudioBuffer.getNumSamples ramp = 480000.
Proof.
  rewrite ramp_channels. unfold AudioBuffer.getNumSamples. cbn [hd].
  exact rampChannel_length.
Qed.




Lemma region_start : sampleOffset Float.zero 480000 = 0.
Proof. vm_compute. reflexivity. Qed.

Lemma region_end : sampleOffset (Float.lit 1 1000) 480000 = 480.
Proof. vm_compute. reflexivity. Qed.

Lemma previewing_started : previewTrimmedSample log2_unused trimming = Ok started.
Proof.
  unfold previewTrimmedSample, detectPitch.
  cbn [trimmedBuffer startPosition endPosition set_previewPosition set_isPreviewActive].
  change (trimmedBuffer trimming) with ramp.
  change (startPosition trimming) with Float.zero.
  change (endPosition trimming) with (Float.lit 1 1000).
  rewrite ramp_samples, region_start, region_end.
  change (480000 =? 0) with false. cbv iota.
  change (Z.to_nat (Z.quot (480 - 0) chunkSize)) with 0%nat.
  cbn [analyse_chunks bind]. reflexivity.
Qed.

Lemma previewing_eq : previewing = started.
Proof. unfold previewing. now rewrite previewing_started. Qed.





End PreviewScenario.

(** ** The histogram map *)

Module IntMapFacts.
Import IntMap.

Lemma find_set_same k v : forall m, find k (set k v m) = Some v.
Proof.
  induction m as [|[k1 v1] m IH]; cbn [set find].
  - now rewrite Z.eqb_refl.
  - destruct (Z.ltb_spec k k1); cbn [find].
    + now rewrite Z.eqb_refl.
    + destruct (Z.eqb_spec k k1); cbn [find].
      * now rewrite Z.eqb_refl.
      * destruct (Z.eqb_spec k k1); [contradiction | exact IH].
Qed.

Lemma find_set_other k v k' : k' <> k -> forall m, find k' (set k v m) = find k' m.
Proof.
  intros Hne. induction m as [|[k1 v1] m IH]; cbn [set find].
  - destruct (Z.eqb_spec k' k); [contradiction | reflexivity].
  - destruct (Z.ltb_spec k k1); cbn [find].
    + destruct (Z.eqb_spec k' k); [contradiction | reflexivity].
    + destruct (Z.eqb_spec k k1); cbn [find].
      * subst k1. destruct (Z.eqb_spec k' k); [contradiction | reflexivity].
      * destruct (Z.eqb_spec k' k1); [reflexivity | exact IH].
Qed.

Lemma set_entries (P : Z * Z -> Prop) k v : forall m,
  P (k, v) -> Forall P m -> Forall P (set k v m).
Proof.
  induction m as [|[k1 v1] m IH]; intros HP HF; cbn [set].
  - constructor; [exact HP | constructor].
  - inversion HF; subst.
    destruct (Z.ltb_spec k k1); [constructor; assumption|].
    destruct (Z.eqb_spec k k1); constructor; auto.
Qed.




End IntMapFacts.

(** ** Pitch analysis over the trim region *)

Module AnalysisFacts.
Import Processor Analysis.

(** *** Counting *)

Lemma count_note_count note hist k :
  count_of (count_note note hist) k
  = count_of hist k + (if valid_note note && (k =? note) then 1 else 0).
Proof.
  unfold count_note, count_of, valid_note.
  destruct ((0 <=? note) && (note <? 128)); cbn [andb]; [|lia].
  destruct (Z.eqb_spec k note) as [->|Hne].
  - destruct (IntMap.find note hist) as [n|] eqn:E;
      rewrite IntMapFacts.find_set_same; lia.
  - destruct (IntMap.find note hist) as [n|] eqn:E;
      rewrite IntMapFacts.find_set_other by exact Hne; lia.
Qed.


Lemma count_note_keys note hist :
  Forall (fun e => 0 <= fst e < 128) hist ->
  Forall (fun e => 0 <= fst e < 128) (count_note note hist).
Proof.
  intros H. unfold count_note.
  destruct (Z.leb_spec 0 note); destruct (Z.ltb_spec note 128); cbn [andb]; try exact H.
  destruct (IntMap.find note hist); apply IntMapFacts.set_entries; try exact H; cbn; lia.
Qed.

Lemma tally_count : forall notes hist k,
  count_of (tally notes hist) k
  = count_of hist k + (if valid_note k then occurrences k notes else 0).
Proof.
  unfold tally, occurrences.
  induction notes as [|note notes IH]; intros hist k; cbn [fold_left count_occ].
  - destruct (valid_note k); cbn; lia.
  - rewrite IH, count_note_count.
    destruct (Z.eq_dec note k) as [->|Hne].
    + rewrite Z.eqb_refl, andb_true_r. destruct (valid_note k); lia.
    + destruct (Z.eqb_spec k note); [congruence|].
      rewrite andb_false_r. lia.
Qed.


Lemma tally_keys : forall notes hist,
  Forall (fun e => 0 <= fst e < 128) hist ->
  Forall (fun e => 0 <= fst e < 128) (tally notes hist).
Proof.
  unfold tally. induction notes as [|note notes IH]; intros hist H; cbn [fold_left]; auto.
  apply IH. now apply count_note_keys.
Qed.

(** *** The scan for the most common note *)



Lemma most_common_empty note : snd (most_common [] 0 note) = note.
Proof. reflexivity. Qed.

Lemma most_common_range hist : forall maxCount note,
  Forall (fun e => 0 <= fst e < 128) hist -> 0 <= note < 128 ->
  0 <= snd (most_common hist maxCount note) < 128.
Proof.
  induction hist as [|[k1 c1] hist IH]; intros maxCount note HF Hn; cbn [most_common].
  - exact Hn.
  - inversion HF; subst. cbn in *.
    destruct (maxCount <? c1); apply IH; auto.
Qed.

(** *** The chunks *)

Lemma skipn_head {A} (l : list A) k d :
  (k < length l)%nat -> skipn k l = nth k l d :: skipn (S k) l.
Proof.
  revert k; induction l as [|a l IH]; intros k H; cbn [length] in H; [lia|].
  destruct k as [|k]; [reflexivity|]. cbn [skipn nth]. apply IH. lia.
Qed.

(** Reading a chunk gives the slice of the channel, when it is inside. *)
Lemma read_chunk_slice chan base : forall n i acc,
  0 <= base + i -> base + i + Z.of_nat n <= Z.of_nat (length chan) ->
  read_chunk chan base n i acc = Ok (rev acc ++ slice chan (base + i) (Z.of_nat n)).
Proof.
  induction n as [|n IH]; intros i acc Hlo Hhi; cbn [read_chunk].
  - unfold slice. cbn [Z.of_nat Z.to_nat firstn]. now rewrite app_nil_r.
  - rewrite read_in_range by lia. cbn [bind].
    rewrite IH by lia. f_equal. cbn [rev]. rewrite <- app_assoc. f_equal.
    unfold slice. rewrite !Nat2Z.id. cbn [app firstn].
    rewrite (skipn_head chan (Z.to_nat (base + i)) Float.zero) by lia.
    cbn [firstn]. f_equal. f_equal. f_equal. lia.
Qed.

Section WithLog2.
Variable std_log2 : Float.t -> Float.t.

(** The chunk loop is the note-by-note count of the estimated notes. *)
Lemma analyse_chunks_spec chan startSample : forall n chunk pd hist,
  0 <= startSample -> 0 <= chunk ->
  startSample + (chunk + Z.of_nat n) * 2048 <= Z.of_nat (length chan) ->
  analyse_chunks std_log2 chan startSample n chunk pd hist
  = match estimate_notes std_log2 pd
            (map (fun k => slice chan (startSample + (chunk + Z.of_nat k) * 2048) 2048)
                 (seq 0 n)) with
    | Ok (notes, pd') => Ok (pd', tally notes hist)
    | Fault f => Fault f
    end.
Proof.
  induction n as [|n IH]; intros chunk pd hist Hs Hc Hlen;
    cbn [analyse_chunks seq map estimate_notes].
  - reflexivity.
  - unfold chunkSize.
    rewrite (read_chunk_slice chan (startSample + chunk * 2048) (Z.to_nat 2048) 0 [])
      by lia.
    cbn [bind rev app]. rewrite Z2Nat.id, !Z.add_0_r by lia.
    destruct pd as [detector|]; [|reflexivity].
    destruct (PitchDetector.detectPitch detector
                (slice chan (startSample + chunk * 2048) 2048) 2048)
      as [[frequency detector']|f]; cbn [bind]; [|reflexivity].
    rewrite IH by lia.
    rewrite <- seq_shift, map_map.
    erewrite (map_ext (fun k => slice chan (startSample + (chunk + 1 + Z.of_nat k) * 2048) 2048)
                      (fun k => slice chan (startSample + (chunk + Z.of_nat (S k)) * 2048) 2048)).
    2:{ intros k. f_equal. lia. }
    destruct (estimate_notes std_log2 (Some detector') _) as [[notes pd']|f];
      cbn [bind]; reflexivity.
Qed.


End WithLog2.

End AnalysisFacts.

(** ** A pass over a region shorter than a chunk *)

Module AnalysisScenario.
Import Processor Analysis Scenario.

Example tie_goes_to_lowest : most_common [(60, 3); (64, 3)] 0 72 = (3, 60).
Proof. reflexivity. Qed.


End AnalysisScenario.

(** ** The most common note is always a MIDI note *)

Module SessionFacts.
Import Processor Session.

Section WithHost.
Variable std_log2 : Float.t -> Float.t.
Variable MidiBuffer : Type.
Variable render :
  Synthesiser.t -> AudioBuffer.t -> MidiBuffer -> Z -> Z -> Synthesiser.t * AudioBuffer.t.

Lemma analyse_chunks_keys chan startSample : forall n chunk pd hist pd' hist',
  analyse_chunks std_log2 chan startSample n chunk pd hist = Ok (pd', hist') ->
  Forall (fun e => 0 <= fst e < 128) hist ->
  Forall (fun e => 0 <= fst e < 128) hist'.
Proof.
  induction n as [|n IH]; intros chunk pd hist pd' hist'; cbn [analyse_chunks].
  - intros [= _ <-]. auto.
  - destruct (read_chunk chan (startSample + chunk * chunkSize) (Z.to_nat chunkSize) 0 [])
      as [chunkData|]; cbn [bind]; [|discriminate].
    destruct pd as [detector|]; [|discriminate].
    destruct (PitchDetector.detectPitch detector chunkData chunkSize)
      as [[frequency detector']|]; cbn [bind]; [|discriminate].
    intros H HF. eapply IH; [exact H|].
    now apply AnalysisFacts.count_note_keys.
Qed.

(** What a pitch-analysis pass does to the notes. *)
Lemma detectPitch_notes p p' :
  detectPitch std_log2 p = Ok p' ->
  (notes_in_range p -> notes_in_range p')
  /\ (noteHistogram p' = [] -> mostCommonNote p' = mostCommonNote p).
Proof.
  unfold detectPitch.
  destruct (AudioBuffer.getNumSamples (trimmedBuffer p) =? 0).
  - intros [= <-]. auto.
  - destruct (analyse_chunks std_log2 _ _ _ _ _ _) as [[pd' hist']|] eqn:E;
      cbn [bind]; [|discriminate].
    destruct (most_common hist' 0 (mostCommonNote p)) as [mc note] eqn:Em.
    intros [= <-].
    cbn [notes_in_range mostCommonNote noteHistogram set_mostCommonNote
         set_noteHistogram set_pitchDetector]. unfold notes_in_range.
    cbn [mostCommonNote noteHistogram set_mostCommonNote set_noteHistogram
         set_pitchDetector].
    split.
    + intros [Hn HF].
      pose proof (analyse_chunks_keys _ _ _ _ _ _ _ _ E HF) as HF'.
      split; [|exact HF'].
      pose proof (AnalysisFacts.most_common_range hist' 0 (mostCommonNote p) HF' Hn) as H.
      now rewrite Em in H.
    + intros ->. cbn in Em. congruence.
Qed.

Lemma processBlock_notes p buffer midi :
  mostCommonNote (fst (processBlock MidiBuffer render p buffer midi)) = mostCommonNote p
  /\ noteHistogram (fst (processBlock MidiBuffer render p buffer midi)) = noteHistogram p.
Proof.
  unfold processBlock.
  destruct (state p) eqn:Hst; cbn [state set_circularBuffer]; rewrite ?Hst.
  - split; reflexivity.
  - destruct (isPreviewActive p); [|split; reflexivity].
    destruct (0 <? _); split; reflexivity.
  - destruct (render _ _ _ _ _) as [synth rendered]. split; reflexivity.
Qed.

Lemma step_notes p p' :
  step std_log2 MidiBuffer render p p' -> notes_in_range p -> notes_in_range p'.
Proof.
  intros Hstep Hinv. destruct Hstep;
    try (exact Hinv).
  - unfold notes_in_range.
    destruct (processBlock_notes p buffer midi) as [-> ->]. exact Hinv.
  - destruct Hinv as [Hn _]. split; [exact Hn | constructor].
  - unfold previewTrimmedSample in H.
    apply detectPitch_notes in H. apply H. exact Hinv.
  - apply detectPitch_notes in H. apply H. exact Hinv.
  - destruct slider; unfold Editor.sliderValueChanged;
      match goal with |- context [if ?b then _ else _] => destruct b end;
      exact Hinv.
Qed.

(** C10.  In every state a session can reach, [getMostCommonNote] is in
    [0, 128), and so is every key of the histogram; a pitch-analysis
    pass that leaves the histogram empty keeps the note it found. *)
Theorem getMostCommonNote_range (p : t) :
  reachable std_log2 MidiBuffer render p ->
  0 <= getMostCommonNote p < 128
  /\ Forall (fun e => 0 <= fst e < 128) (noteHistogram p)
  /\ (forall p', detectPitch std_log2 p = Ok p' -> noteHistogram p' = [] ->
        getMostCommonNote p' = getMostCommonNote p).
Proof.
  intros Hr.
  assert (Hinv : notes_in_range p).
  { induction Hr as [ring trimmed|p p' Hr IH Hstep].
    - split; [cbn; lia | constructor].
    - eapply step_notes; eauto. }
  destruct Hinv as [Hn HF]. split; [exact Hn|]. split; [exact HF|].
  intros p' Hd. apply (detectPitch_notes p p' Hd).
Qed.
End WithHost.

Lemma getMostCommonNote_range_witness :
  0 <= getMostCommonNote Scenario.fresh < 128
  /\ Forall (fun e => 0 <= fst e < 128) (noteHistogram Scenario.fresh)
  /\ (forall p', detectPitch Scenario.log2_unused Scenario.fresh = Ok p' ->
        noteHistogram p' = [] ->
        getMostCommonNote p' = getMostCommonNote Scenario.fresh).
Proof.
  apply (getMostCommonNote_range Scenario.log2_unused unit Scenario.render Scenario.fresh).
  eapply reachable_step.
  - apply reachable_new.
  - apply step_prepareToPlay.
Defined.

End SessionFacts.

(** ** Order and rounding of binary32 numbers *)

Module FloatOrder.
Import Binary32.

Lemma pow2_pos k : 0 <= k -> 0 < 2 ^ k.
Proof. intros H. apply Z.pow_pos_nonneg; lia. Qed.

Lemma pow2_le a b : 0 <= a <= b -> 2 ^ a <= 2 ^ b.
Proof. intros H. apply Z.pow_le_mono_r; lia. Qed.

Lemma pow2_lt a b : 0 <= a < b -> 2 ^ a < 2 ^ b.
Proof. intros H. apply Z.pow_lt_mono_r; lia. Qed.

Lemma pow2_split a b : 0 <= a -> 0 <= b -> 2 ^ (a + b) = 2 ^ a * 2 ^ b.
Proof. intros. apply Z.pow_add_r; lia. Qed.

(** *** Digits *)

Lemma digits_bounds p :
  2 ^ (Zpos (digits2_pos p) - 1) <= Zpos p < 2 ^ Zpos (digits2_pos p).
Proof.
  induction p as [p IH|p IH|]; cbn [digits2_pos].
  - rewrite Pos2Z.inj_succ. replace (Z.succ (Zpos (digits2_pos p)) - 1)
      with (Z.succ (Zpos (digits2_pos p) - 1)) by lia.
    rewrite !Z.pow_succ_r by lia. lia.
  - rewrite Pos2Z.inj_succ. replace (Z.succ (Zpos (digits2_pos p)) - 1)
      with (Z.succ (Zpos (digits2_pos p) - 1)) by lia.
    rewrite !Z.pow_succ_r by lia. lia.
  - cbn. lia.
Qed.

Lemma digits_le p d : 0 <= d -> Zpos p < 2 ^ d -> Zpos (digits2_pos p) <= d.
Proof.
  intros Hd H. destruct (digits_bounds p) as [Hlo _].
  destruct (Z_le_gt_dec (Zpos (digits2_pos p)) d) as [|Hgt]; [assumption|].
  pose proof (pow2_le d (Zpos (digits2_pos p) - 1) ltac:(lia)). lia.
Qed.

Lemma digits_ge p d : 0 <= d -> 2 ^ d <= Zpos p -> d < Zpos (digits2_pos p).
Proof.
  intros Hd H. destruct (digits_bounds p) as [_ Hhi].
  destruct (Z_lt_le_dec d (Zpos (digits2_pos p))) as [|Hle]; [assumption|].
  pose proof (pow2_le (Zpos (digits2_pos p)) d ltac:(lia)). lia.
Qed.

(** *** Canonical numbers *)

Lemma fexp_eq z : fexp Float.prec Float.emax z = Z.max (z - 24) (-149).
Proof. reflexivity. Qed.

Lemma bounded_spec m e :
  bounded Float.prec Float.emax m e = true ->
  -149 <= e <= 104 /\ Zpos m < 2 ^ 24 /\ (-149 < e -> 2 ^ 23 <= Zpos m).
Proof.
  unfold bounded, canonical_mantissa. intros H.
  apply andb_prop in H. destruct H as [Hc He].
  apply Z.eqb_eq in Hc. apply Z.leb_le in He. rewrite fexp_eq in Hc.
  change (Float.emax - Float.prec) with 104 in He.
  destruct (digits_bounds m) as [Hlo Hhi].
  assert (Hd : Zpos (digits2_pos m) <= 24) by lia.
  split; [lia|]. split.
  - pose proof (pow2_le (Zpos (digits2_pos m)) 24 ltac:(lia)). lia.
  - intros Hn. assert (Zpos (digits2_pos m) = 24) by lia.
    replace 23 with (Zpos (digits2_pos m) - 1) by lia. exact Hlo.
Qed.

Lemma bounded_intro m e :
  -149 <= e <= 104 -> Zpos m < 2 ^ 24 -> (-149 < e -> 2 ^ 23 <= Zpos m) ->
  bounded Float.prec Float.emax m e = true.
Proof.
  intros He Hhi Hlo. unfold bounded, canonical_mantissa.
  apply andb_true_intro. split; [|apply Z.leb_le; change (Float.emax - Float.prec) with 104; lia].
  apply Z.eqb_eq. rewrite fexp_eq.
  pose proof (digits_le m 24 ltac:(lia) Hhi).
  destruct (Z.eq_dec e (-149)) as [->|Hne]; [lia|].
  pose proof (digits_ge m 23 ltac:(lia) (Hlo ltac:(lia))). lia.
Qed.

(** *** The order *)

Lemma scaled_lt m1 e1 m2 e2 :
  bounded Float.prec Float.emax m1 e1 = true ->
  bounded Float.prec Float.emax m2 e2 = true ->
  e1 < e2 -> Zpos m1 * 2 ^ (e1 + 149) < Zpos m2 * 2 ^ (e2 + 149).
Proof.
  intros H1 H2 He.
  apply bounded_spec in H1. apply bounded_spec in H2.
  destruct H1 as (He1 & Hhi1 & _). destruct H2 as (He2 & _ & Hlo2).
  specialize (Hlo2 ltac:(lia)).
  replace (e2 + 149) with ((e1 + 149) + (e2 - e1)) by lia.
  rewrite (pow2_split (e1 + 149) (e2 - e1)) by lia.
  pose proof (pow2_pos (e1 + 149) ltac:(lia)) as HP.
  pose proof (pow2_le 1 (e2 - e1) ltac:(lia)) as HQ.
  change (2 ^ 1) with 2 in HQ. change (2 ^ 24) with 16777216 in Hhi1.
  change (2 ^ 23) with 8388608 in Hlo2.
  remember (2 ^ (e1 + 149)) as P. remember (2 ^ (e2 - e1)) as Q.
  assert (H1 : Zpos m1 * P < 16777216 * P) by (apply Z.mul_lt_mono_pos_r; lia).
  assert (H2 : 8388608 * (2 * P) <= Zpos m2 * (P * Q)).
  { apply Z.mul_le_mono_nonneg; try lia.
    rewrite (Z.mul_comm 2 P). apply Z.mul_le_mono_nonneg_l; lia. }
  lia.
Qed.

Lemma scaled_pos m e : -149 <= e -> 0 < Zpos m * 2 ^ (e + 149).
Proof.
  intros He. pose proof (pow2_pos (e + 149) ltac:(lia)). nia.
Qed.

Lemma magnitude_compare m1 e1 m2 e2 :
  bounded Float.prec Float.emax m1 e1 = true ->
  bounded Float.prec Float.emax m2 e2 = true ->
  match e1 ?= e2 with
  | Lt => Lt
  | Gt => Gt
  | Eq => Pos.compare_cont Eq m1 m2
  end = (Zpos m1 * 2 ^ (e1 + 149) ?= Zpos m2 * 2 ^ (e2 + 149)).
Proof.
  intros H1 H2. destruct (Z.compare_spec e1 e2) as [->|Hlt|Hgt].
  - pose proof (bounded_spec _ _ H2) as (He & _ & _).
    rewrite <- Zmult_compare_compat_r by (apply Z.lt_gt, pow2_pos; lia). reflexivity.
  - symmetry. apply Z.compare_lt_iff. now apply scaled_lt.
  - symmetry. apply Z.compare_gt_iff. now apply scaled_lt.
Qed.

(** [SFcompare] on valid numbers is the comparison of their values. *)
Lemma compare_ulps x y :
  valid x = true -> valid y = true -> SFcompare x y = Some (ulps x ?= ulps y).
Proof.
  destruct x as [sx|sx| |sx mx ex]; destruct y as [sy|sy| |sy my ey];
    cbn [valid]; try discriminate; intros Hx Hy; cbn [SFcompare ulps].
  - reflexivity.
  - pose proof (bounded_spec _ _ Hy) as (He & _ & _).
    pose proof (scaled_pos my ey ltac:(lia)).
    destruct sy; cbn [cond_Zopp]; f_equal; symmetry;
      [apply Z.compare_gt_iff | apply Z.compare_lt_iff]; lia.
  - pose proof (bounded_spec _ _ Hx) as (He & _ & _).
    pose proof (scaled_pos mx ex ltac:(lia)).
    destruct sx; cbn [cond_Zopp]; f_equal; symmetry;
      [apply Z.compare_lt_iff | apply Z.compare_gt_iff]; lia.
  - pose proof (bounded_spec _ _ Hx) as (Hex & _ & _).
    pose proof (bounded_spec _ _ Hy) as (Hey & _ & _).
    pose proof (scaled_pos mx ex ltac:(lia)).
    pose proof (scaled_pos my ey ltac:(lia)).
    destruct sx, sy; cbn [cond_Zopp]; f_equal.
    + rewrite Z.compare_opp.
      rewrite (Z.compare_antisym (Zpos mx * 2 ^ (ex + 149)) (Zpos my * 2 ^ (ey + 149))).
      rewrite <- (magnitude_compare _ _ _ _ Hx Hy).
      destruct (ex ?= ey); reflexivity.
    + symmetry. apply Z.compare_lt_iff. lia.
    + symmetry. apply Z.compare_gt_iff. lia.
    + apply magnitude_compare; assumption.
Qed.

Lemma ltb_ulps x y :
  valid x = true -> valid y = true -> Float.ltb x y = (ulps x <? ulps y).
Proof.
  intros Hx Hy. unfold Float.ltb, SFltb. rewrite compare_ulps by assumption.
  unfold Z.ltb. destruct (ulps x ?= ulps y); reflexivity.
Qed.

Lemma leb_ulps x y :
  valid x = true -> valid y = true -> Float.leb x y = (ulps x <=? ulps y).
Proof.
  intros Hx Hy. unfold Float.leb, SFleb. rewrite compare_ulps by assumption.
  unfold Z.leb. destruct (ulps x ?= ulps y); reflexivity.
Qed.

End FloatOrder.
Module FloatRounding.
Import Binary32 FloatOrder.

Lemma iter_xO p d : Zpos (Pos.iter xO p d) = Zpos p * 2 ^ Zpos d.
Proof.
  induction d as [|d IH] using Pos.peano_ind.
  - cbn [Pos.iter]. change (2 ^ 1) with 2. lia.
  - rewrite Pos.iter_succ, Pos2Z.inj_succ, Z.pow_succ_r by lia.
    rewrite Pos2Z.inj_xO, IH. lia.
Qed.

Lemma digits_iter_xO p d :
  Zpos (digits2_pos (Pos.iter xO p d)) = Zpos (digits2_pos p) + Zpos d.
Proof.
  induction d as [|d IH] using Pos.peano_ind.
  - cbn [Pos.iter digits2_pos]. lia.
  - rewrite Pos.iter_succ. cbn [digits2_pos]. lia.
Qed.

Lemma shr_1_m mrs : 0 <= shr_m mrs -> shr_m (shr_1 mrs) = shr_m mrs / 2.
Proof.
  destruct mrs as [m r s]. cbn [shr_m]. intros H.
  destruct m as [|[p|p|]|p]; cbn [shr_1 shr_m]; try lia.
  - reflexivity.
  - rewrite Pos2Z.inj_xI. apply (Z.div_unique _ 2 _ 1); lia.
  - rewrite Pos2Z.inj_xO. apply (Z.div_unique _ 2 _ 0); lia.
  - reflexivity.
Qed.

Lemma iter_shr_m p mrs :
  0 <= shr_m mrs -> shr_m (iter_pos shr_1 p mrs) = shr_m mrs / 2 ^ Zpos p.
Proof.
  revert mrs. induction p as [p IH|p IH|]; intros mrs H; cbn [iter_pos].
  - assert (H1 : 0 <= shr_m (shr_1 mrs))
      by (rewrite shr_1_m by assumption; apply Z.div_pos; lia).
    assert (HP : 0 < 2 ^ Zpos p) by (apply pow2_pos; lia).
    assert (H2 : 0 <= shr_m (iter_pos shr_1 p (shr_1 mrs)))
      by (rewrite IH by assumption; apply Z.div_pos; lia).
    rewrite IH, IH, shr_1_m by assumption.
    rewrite !Z.div_div by lia. f_equal.
    replace (Zpos p~1) with (1 + Zpos p + Zpos p) by lia.
    rewrite !Z.pow_add_r by lia. change (2 ^ 1) with 2. ring.
  - assert (HP : 0 < 2 ^ Zpos p) by (apply pow2_pos; lia).
    assert (H2 : 0 <= shr_m (iter_pos shr_1 p mrs))
      by (rewrite IH by assumption; apply Z.div_pos; lia).
    rewrite IH, IH by assumption.
    rewrite !Z.div_div by lia. f_equal.
    replace (Zpos p~0) with (Zpos p + Zpos p) by lia.
    rewrite !Z.pow_add_r by lia. ring.
  - rewrite shr_1_m by assumption. reflexivity.
Qed.

(** *** The two halves of [binary_round_aux] *)

Lemma shr_fexp_keep p e :
  fexp Float.prec Float.emax (Zpos (digits2_pos p) + e) <= e ->
  shr_fexp Float.prec Float.emax (Zpos p) e loc_Exact
  = ({| shr_m := Zpos p; shr_r := false; shr_s := false |}, e).
Proof.
  intros H. unfold shr_fexp, shr. cbn [Zdigits2 shr_record_of_loc].
  destruct (fexp Float.prec Float.emax (Zpos (digits2_pos p) + e) - e) eqn:E;
    try reflexivity; lia.
Qed.

Lemma shr_fexp_shift p e k :
  fexp Float.prec Float.emax (Zpos (digits2_pos p) + e) - e = Zpos k ->
  shr_fexp Float.prec Float.emax (Zpos p) e loc_Exact
  = (iter_pos shr_1 k {| shr_m := Zpos p; shr_r := false; shr_s := false |},
     e + Zpos k).
Proof.
  intros H. unfold shr_fexp, shr. cbn [Zdigits2 shr_record_of_loc].
  rewrite H. reflexivity.
Qed.

Lemma round_nearest_even_bounds m l :
  m <= round_nearest_even m l <= m + 1.
Proof.
  destruct l as [|[| |]]; cbn [round_nearest_even];
    try destruct (Z.even m); lia.
Qed.

(** A number already in canonical form is returned as it is. *)
Lemma round_aux_exact s p e :
  fexp Float.prec Float.emax (Zpos (digits2_pos p) + e) = e -> e <= 104 ->
  binary_round_aux Float.prec Float.emax s (Zpos p) e loc_Exact
  = S754_finite s p e.
Proof.
  intros Hc He. unfold binary_round_aux.
  rewrite shr_fexp_keep by lia. cbn [shr_m loc_of_shr_record round_nearest_even].
  rewrite shr_fexp_keep by lia. cbn [shr_m].
  change (Float.emax - Float.prec) with 104.
  destruct (Z.leb_spec e 104); [reflexivity | lia].
Qed.

(** A number of more than 24 digits loses the digits in excess: the
    result is the truncated mantissa or the next one. *)
Lemma round_aux_shift s p e :
  24 < Zpos (digits2_pos p) -> -149 <= e -> Zpos (digits2_pos p) + e <= 127 ->
  exists m' e',
    binary_round_aux Float.prec Float.emax s (Zpos p) e loc_Exact
    = S754_finite s m' e'
    /\ bounded Float.prec Float.emax m' e' = true
    /\ let k := Zpos (digits2_pos p) - 24 in
       Zpos p / 2 ^ k * 2 ^ (k + e + 149) <= Zpos m' * 2 ^ (e' + 149)
       <= (Zpos p / 2 ^ k + 1) * 2 ^ (k + e + 149).
Proof.
  intros Hd He Hmax. cbv zeta.
  destruct (digits_bounds p) as [Hlo Hhi].
  remember (Zpos (digits2_pos p)) as d eqn:Ed.
  destruct (d - 24) as [|k|k] eqn:Ek; try lia.
  assert (Hk : fexp Float.prec Float.emax (Zpos (digits2_pos p) + e) - e = Zpos k)
    by (rewrite fexp_eq; lia).
  unfold binary_round_aux. rewrite (shr_fexp_shift _ _ _ Hk).
  set (mrs := iter_pos shr_1 k _).
  assert (Hq : shr_m mrs = Zpos p / 2 ^ Zpos k)
    by (unfold mrs; rewrite iter_shr_m; cbn [shr_m]; [reflexivity | lia]).
  assert (HP : 0 < 2 ^ Zpos k) by (apply pow2_pos; lia).
  assert (Hq23 : 2 ^ 23 <= Zpos p / 2 ^ Zpos k < 2 ^ 24).
  { replace (d - 1) with (23 + Zpos k) in Hlo by lia.
    replace d with (24 + Zpos k) in Hhi by lia.
    rewrite Z.pow_add_r in Hlo, Hhi by lia. split.
    - apply Z.div_le_lower_bound; lia.
    - apply Z.div_lt_upper_bound; lia. }
  pose proof (round_nearest_even_bounds (shr_m mrs) (loc_of_shr_record mrs)) as Hr.
  rewrite Hq in Hr |- *.
  set (q := Zpos p / 2 ^ Zpos k) in *.
  change (2 ^ 23) with 8388608 in Hq23. change (2 ^ 24) with 16777216 in Hq23.
  destruct (round_nearest_even q (loc_of_shr_record mrs)) as [|m1|m1] eqn:Em; try lia.
  assert (He1 : -149 < e + Zpos k <= 103) by lia.
  replace (Zpos k + e + 149) with (e + Zpos k + 149) by lia.
  pose proof (pow2_pos (e + Zpos k + 149) ltac:(lia)) as HE.
  destruct (Z.eq_dec (Zpos m1) 16777216) as [Hc|Hc].
  - (* the carry: 2^24 becomes 2^23 at the next exponent *)
    injection Hc as ->.
    exists 8388608%positive, (e + Zpos k + 1). split; [|split].
    + unfold shr_fexp, shr. cbn [Zdigits2 shr_record_of_loc digits2_pos Pos.succ].
      rewrite fexp_eq.
      replace (Z.max (25 + (e + Zpos k) - 24) (-149) - (e + Zpos k)) with 1 by lia.
      cbn [iter_pos shr_1 shr_m].
      change (Float.emax - Float.prec) with 104.
      destruct (Z.leb_spec (e + Zpos k + 1) 104); [reflexivity | lia].
    + apply bounded_intro; [lia | reflexivity | intros _; reflexivity ].
    + replace (e + Zpos k + 1 + 149) with (1 + (e + Zpos k + 149)) by lia.
      rewrite (Z.pow_add_r 2 1 (e + Zpos k + 149)) by lia. change (2 ^ 1) with 2.
      assert (Hq1 : q = 16777215) by lia. rewrite Hq1.
      remember (2 ^ (e + Zpos k + 149)) as E. lia.
  - assert (Hm1 : Zpos m1 < 2 ^ 24) by (change (2 ^ 24) with 16777216; lia).
    assert (Hm2 : 2 ^ 23 <= Zpos m1) by (change (2 ^ 23) with 8388608; lia).
    pose proof (digits_le m1 24 ltac:(lia) Hm1).
    pose proof (digits_ge m1 23 ltac:(lia) Hm2).
    exists m1, (e + Zpos k). split; [|split].
    + rewrite shr_fexp_keep by (rewrite fexp_eq; lia). cbn [shr_m].
      change (Float.emax - Float.prec) with 104.
      destruct (Z.leb_spec (e + Zpos k) 104); [reflexivity | lia].
    + apply bounded_intro; [lia | assumption | intros _; assumption].
    + remember (2 ^ (e + Zpos k + 149)) as E.
      split; apply Z.mul_le_mono_nonneg_r; lia.
Qed.

(** *** [binary_round] and [binary_normalize] *)

Lemma shl_align_value m e e' :
  -149 <= e' <= e ->
  Zpos (fst (shl_align m e e')) * 2 ^ (e' + 149) = Zpos m * 2 ^ (e + 149)
  /\ snd (shl_align m e e') = e'
  /\ Zpos (digits2_pos (fst (shl_align m e e'))) + e' = Zpos (digits2_pos m) + e.
Proof.
  intros H. unfold shl_align.
  destruct (e' - e) as [|d|d] eqn:E; try lia; cbn [fst snd].
  - replace e' with e by lia. auto.
  - rewrite iter_xO, digits_iter_xO. split; [|split]; try lia.
    replace (e + 149) with (Zpos d + (e' + 149)) by lia.
    rewrite (Z.pow_add_r 2 (Zpos d) (e' + 149)) by lia. ring.
Qed.

(** The result of rounding [m * 2^e] is canonical and differs from it by
    less than one unit of the digits dropped. *)
Lemma binary_round_spec s m e :
  -149 <= e -> Zpos (digits2_pos m) + e <= 127 ->
  exists m' e',
    binary_round Float.prec Float.emax s m e = S754_finite s m' e'
    /\ bounded Float.prec Float.emax m' e' = true
    /\ let K := e + 149 + Z.max 0 (Zpos (digits2_pos m) - 24) in
       Zpos m * 2 ^ (e + 149) - 2 ^ K <= Zpos m' * 2 ^ (e' + 149)
       <= Zpos m * 2 ^ (e + 149) + 2 ^ K.
Proof.
  intros He Hmax. unfold binary_round. cbv zeta.
  remember (Zpos (digits2_pos m)) as d eqn:Ed.
  remember (fexp Float.prec Float.emax (d + e)) as fe eqn:Efe.
  pose proof Efe as Hfe. rewrite fexp_eq in Hfe.
  pose proof (pow2_pos (e + 149 + Z.max 0 (d - 24)) ltac:(lia)) as HK.
  destruct (Z_le_gt_dec fe e) as [Hle|Hgt].
  - destruct (shl_align_value m e fe ltac:(lia)) as (Hv & Hs & Hdig).
    destruct (shl_align m e fe) as [mz ez]. cbn [fst snd] in *. subst ez.
    assert (Hc : fexp Float.prec Float.emax (Zpos (digits2_pos mz) + fe) = fe)
      by (rewrite Hdig, <- Ed; congruence).
    exists mz, fe. split; [|split].
    + apply round_aux_exact; [assumption | lia].
    + unfold bounded, canonical_mantissa. rewrite Hc, Z.eqb_refl.
      change (Float.emax - Float.prec) with 104.
      apply Z.leb_le. lia.
    + rewrite Hv. lia.
  - assert (Hal : shl_align m e fe = (m, e)).
    { unfold shl_align. destruct (fe - e) eqn:E; try reflexivity; lia. }
    rewrite Hal.
    destruct (round_aux_shift s m e) as (m' & e' & HR & Hb & Hval); try lia.
    exists m', e'. split; [assumption|]. split; [assumption|].
    cbv zeta in Hval. rewrite <- Ed in Hval.
    replace (Z.max 0 (d - 24)) with (d - 24) by lia.
    replace (e + 149 + (d - 24)) with (d - 24 + e + 149) in * by lia.
    assert (Hk : 0 < d - 24) by lia.
    remember (d - 24) as k eqn:Ek. clear Ek.
    replace (k + e + 149) with (k + (e + 149)) in * by lia.
    rewrite (Z.pow_add_r 2 k (e + 149)) in * by lia.
    pose proof (pow2_pos k ltac:(lia)) as HA.
    pose proof (pow2_pos (e + 149) ltac:(lia)) as HB.
    pose proof (Z.mul_div_le (Zpos m) (2 ^ k) HA) as Hq1.
    pose proof (Z.mul_succ_div_gt (Zpos m) (2 ^ k) HA) as Hq2.
    remember (2 ^ k) as A. remember (2 ^ (e + 149)) as B.
    remember (Zpos m / A) as q. remember (Zpos m' * 2 ^ (e' + 149)) as r.
    remember (Zpos m) as v.
    assert (H1 : (v - A) * B <= q * A * B)
      by (apply Z.mul_le_mono_nonneg_r; lia).
    assert (H2 : (q + 1) * A * B <= (v + A) * B)
      by (apply Z.mul_le_mono_nonneg_r; lia).
    lia.
Qed.

Lemma binary_normalize_spec M e :
  -149 <= e <= -22 -> Z.abs M * 2 ^ (e + 149) < 2 ^ 151 ->
  valid (binary_normalize Float.prec Float.emax M e false) = true
  /\ Z.abs (ulps (binary_normalize Float.prec Float.emax M e false)
            - M * 2 ^ (e + 149)) <= 2 ^ 127.
Proof.
  intros He HM.
  assert (Hm : forall s m, Zpos m * 2 ^ (e + 149) < 2 ^ 151 ->
    valid (binary_round Float.prec Float.emax s m e) = true
    /\ Z.abs (ulps (binary_round Float.prec Float.emax s m e)
              - cond_Zopp s (Zpos m * 2 ^ (e + 149))) <= 2 ^ 127).
  { intros s m Hv.
    destruct (digits_bounds m) as [Hlo _].
    assert (Hd : Zpos (digits2_pos m) + e <= 2).
    { destruct (Z_le_gt_dec (Zpos (digits2_pos m) + e) 2) as [|Hgt]; [assumption|].
      exfalso.
      pose proof (pow2_le 151 (Zpos (digits2_pos m) - 1 + (e + 149)) ltac:(lia)) as Hp.
      rewrite (Z.pow_add_r 2 (Zpos (digits2_pos m) - 1) (e + 149)) in Hp by lia.
      pose proof (pow2_pos (e + 149) ltac:(lia)).
      assert (2 ^ (Zpos (digits2_pos m) - 1) * 2 ^ (e + 149)
              <= Zpos m * 2 ^ (e + 149))
        by (apply Z.mul_le_mono_nonneg_r; lia).
      lia. }
    destruct (binary_round_spec s m e) as (m' & e' & HR & Hb & Hval); try lia.
    rewrite HR. cbn [valid ulps]. split; [assumption|].
    cbv zeta in Hval.
    pose proof (pow2_le (e + 149 + Z.max 0 (Zpos (digits2_pos m) - 24)) 127
                  ltac:(lia)) as HK.
    destruct s; cbn [cond_Zopp]; lia. }
  destruct M as [|m|m]; cbn [binary_normalize].
  - cbn [valid ulps]. split; [reflexivity|]. cbn. lia.
  - destruct (Hm false m) as [Hv Hu]; [cbn [Z.abs] in HM; assumption|].
    cbn [cond_Zopp] in Hu. split; assumption.
  - destruct (Hm true m) as [Hv Hu]; [cbn [Z.abs] in HM; assumption|].
    cbn [cond_Zopp] in Hu. split; [assumption|].
    replace (Zneg m * 2 ^ (e + 149)) with (- (Zpos m * 2 ^ (e + 149)))
      by (rewrite <- Pos2Z.opp_pos; ring).
    assumption.
Qed.

(** *** Sums and differences of numbers between -1 and 1 *)

Lemma unit_exponent m e :
  bounded Float.prec Float.emax m e = true ->
  Zpos m * 2 ^ (e + 149) <= 2 ^ 149 -> e <= -23.
Proof.
  intros Hb Hv. apply bounded_spec in Hb. destruct Hb as (He & _ & Hlo).
  destruct (Z_le_gt_dec e (-23)) as [|Hgt]; [assumption|]. exfalso.
  specialize (Hlo ltac:(lia)).
  pose proof (pow2_le 127 (e + 149) ltac:(lia)) as Hp.
  assert (2 ^ 23 * 2 ^ 127 <= Zpos m * 2 ^ (e + 149))
    by (apply Z.mul_le_mono_nonneg; lia).
  rewrite <- Z.pow_add_r in H by lia.
  pose proof (pow2_lt 149 (23 + 127) ltac:(lia)). lia.
Qed.

Lemma aligned s m e e' :
  -149 <= e' <= e ->
  cond_Zopp s (Zpos (fst (shl_align m e e'))) * 2 ^ (e' + 149)
  = ulps (S754_finite s m e).
Proof.
  intros H. destruct (shl_align_value m e e' H) as (Hv & _).
  cbn [ulps]. rewrite <- Hv. destruct s; cbn [cond_Zopp]; ring.
Qed.

Lemma abs_scaled M k : 0 <= k -> Z.abs M * 2 ^ k = Z.abs (M * 2 ^ k).
Proof.
  intros H. pose proof (pow2_pos k H). rewrite Z.abs_mul, (Z.abs_eq (2 ^ k)); lia.
Qed.

Lemma sub_ulps x y :
  valid x = true -> Z.abs (ulps x) <= 2 ^ 149 ->
  valid y = true -> Z.abs (ulps y) <= 2 ^ 149 ->
  valid (Float.sub x y) = true
  /\ Z.abs (ulps (Float.sub x y) - (ulps x - ulps y)) <= 2 ^ 127.
Proof.
  assert (HP : 0 < 2 ^ 127) by (apply pow2_pos; lia).
  destruct x as [sx|sx| |sx mx ex]; destruct y as [sy|sy| |sy my ey];
    cbn [valid]; try discriminate; intros Hx Bx Hy By.
  - destruct sx, sy; cbn; split; auto; lia.
  - cbn [Float.sub SFsub valid ulps]. split; [assumption|].
    destruct sy; cbn [negb cond_Zopp]; lia.
  - cbn [Float.sub SFsub valid ulps]. split; [assumption|]. lia.
  - unfold Float.sub, SFsub. cbv zeta.
    pose proof (bounded_spec _ _ Hx) as (Hex & _ & _).
    pose proof (bounded_spec _ _ Hy) as (Hey & _ & _).
    assert (Hxe : ex <= -23).
    { apply (unit_exponent mx ex Hx). cbn [ulps] in Bx.
      destruct sx; cbn [cond_Zopp] in Bx; lia. }
    pose proof (aligned sx mx ex (Z.min ex ey) ltac:(lia)) as Ax.
    pose proof (aligned sy my ey (Z.min ex ey) ltac:(lia)) as Ay.
    match goal with |- context [binary_normalize _ _ ?M ?e _] =>
      destruct (binary_normalize_spec M e) as [Hv Hu];
        [lia | | split; [exact Hv|] ] end.
    + rewrite abs_scaled, Z.mul_sub_distr_r, Ax, Ay by lia.
      pose proof (pow2_lt 150 151 ltac:(lia)).
      replace (2 ^ 150) with (2 ^ 149 + 2 ^ 149) in * by reflexivity. lia.
    + rewrite Z.mul_sub_distr_r, Ax, Ay in Hu. exact Hu.
Qed.

Lemma add_ulps x y :
  valid x = true -> Z.abs (ulps x) <= 2 ^ 149 ->
  valid y = true -> Z.abs (ulps y) <= 2 ^ 149 ->
  valid (Float.add x y) = true
  /\ Z.abs (ulps (Float.add x y) - (ulps x + ulps y)) <= 2 ^ 127.
Proof.
  assert (HP : 0 < 2 ^ 127) by (apply pow2_pos; lia).
  destruct x as [sx|sx| |sx mx ex]; destruct y as [sy|sy| |sy my ey];
    cbn [valid]; try discriminate; intros Hx Bx Hy By.
  - destruct sx, sy; cbn; split; auto; lia.
  - cbn [Float.add SFadd valid ulps]. split; [assumption|]. lia.
  - cbn [Float.add SFadd valid ulps]. split; [assumption|]. lia.
  - unfold Float.add, SFadd. cbv zeta.
    pose proof (bounded_spec _ _ Hx) as (Hex & _ & _).
    pose proof (bounded_spec _ _ Hy) as (Hey & _ & _).
    assert (Hxe : ex <= -23).
    { apply (unit_exponent mx ex Hx). cbn [ulps] in Bx.
      destruct sx; cbn [cond_Zopp] in Bx; lia. }
    pose proof (aligned sx mx ex (Z.min ex ey) ltac:(lia)) as Ax.
    pose proof (aligned sy my ey (Z.min ex ey) ltac:(lia)) as Ay.
    match goal with |- context [binary_normalize _ _ ?M ?e _] =>
      destruct (binary_normalize_spec M e) as [Hv Hu];
        [lia | | split; [exact Hv|] ] end.
    + rewrite abs_scaled, Z.mul_add_distr_r, Ax, Ay by lia.
      pose proof (pow2_lt 150 151 ltac:(lia)).
      replace (2 ^ 150) with (2 ^ 149 + 2 ^ 149) in * by reflexivity. lia.
    + rewrite Z.mul_add_distr_r, Ax, Ay in Hu. exact Hu.
Qed.
End FloatRounding.

(** ** The trim sliders *)

Module EditorFacts.
Import Binary32 FloatOrder FloatRounding TrimRegion Editor.

Lemma epsilon_valid : valid epsilon = true.
Proof. reflexivity. Qed.

Lemma epsilon_ulps : ulps epsilon = 10737418 * 2 ^ 119.
Proof. reflexivity. Qed.

(** 0.01f is far above the rounding error of a sum of numbers of [-1, 1]. *)
Lemma epsilon_large : 2 ^ 127 < ulps epsilon <= 2 ^ 149.
Proof. rewrite epsilon_ulps. split; [reflexivity | discriminate]. Qed.

Lemma sub_epsilon x :
  normalized x ->
  valid (Float.sub x epsilon) = true /\ ulps (Float.sub x epsilon) < ulps x.
Proof.
  intros [Hv Hr]. pose proof epsilon_large as He.
  destruct (sub_ulps x epsilon) as [Hs Hu];
    [assumption | lia | apply epsilon_valid | lia |].
  split; [assumption | lia].
Qed.

Lemma add_epsilon x :
  normalized x ->
  valid (Float.add x epsilon) = true /\ ulps x < ulps (Float.add x epsilon).
Proof.
  intros [Hv Hr]. pose proof epsilon_large as He.
  destruct (add_ulps x epsilon) as [Hs Hu];
    [assumption | lia | apply epsilon_valid | lia |].
  split; [assumption | lia].
Qed.

(** What one movement of a slider stores. *)
Lemma sliderValueChanged_start p value :
  let v := Double.to_float value in
  Processor.getEndPosition (sliderValueChanged p startSlider value)
  = Processor.getEndPosition p
  /\ Processor.getStartPosition (sliderValueChanged p startSlider value)
     = if Float.geb v (Processor.getEndPosition p)
       then Float.sub (Processor.getEndPosition p) epsilon else v.
Proof.
  cbv zeta. unfold sliderValueChanged.
  change (Processor.getEndPosition (Processor.setStartPosition p (Double.to_float value)))
    with (Processor.getEndPosition p).
  change (Processor.getStartPosition (Processor.setStartPosition p (Double.to_float value)))
    with (Double.to_float value).
  destruct (Float.geb (Double.to_float value) (Processor.getEndPosition p));
    split; reflexivity.
Qed.

Lemma sliderValueChanged_end p value :
  let v := Double.to_float value in
  Processor.getStartPosition (sliderValueChanged p endSlider value)
  = Processor.getStartPosition p
  /\ Processor.getEndPosition (sliderValueChanged p endSlider value)
     = if Float.leb v (Processor.getStartPosition p)
       then Float.add (Processor.getStartPosition p) epsilon else v.
Proof.
  cbv zeta. unfold sliderValueChanged.
  change (Processor.getStartPosition (Processor.setEndPosition p (Double.to_float value)))
    with (Processor.getStartPosition p).
  change (Processor.getEndPosition (Processor.setEndPosition p (Double.to_float value)))
    with (Double.to_float value).
  destruct (Float.leb (Double.to_float value) (Processor.getStartPosition p));
    split; reflexivity.
Qed.

Lemma sliderValueChanged_ordered p s value :
  ordered p -> slider_value value -> ordered (sliderValueChanged p s value).
Proof.
  intros (Hs & He & Hs1 & He0 & Hlt) [Hv Hr]. unfold ordered.
  destruct s.
  - destruct (sliderValueChanged_start p value) as [-> ->]. cbv zeta.
    unfold Float.geb. change SFleb with Float.leb.
    rewrite leb_ulps by assumption.
    destruct (Z.leb_spec (ulps (Processor.getEndPosition p))
                         (ulps (Double.to_float value))) as [Hle|Hgt].
    + destruct (sub_epsilon (Processor.getEndPosition p)) as [Hsv Hsl];
        [split; [assumption | lia]|].
      repeat split; try assumption; lia.
    + repeat split; try assumption; lia.
  - destruct (sliderValueChanged_end p value) as [-> ->]. cbv zeta.
    rewrite leb_ulps by assumption.
    destruct (Z.leb_spec (ulps (Double.to_float value))
                         (ulps (Processor.getStartPosition p))) as [Hle|Hgt].
    + destruct (add_epsilon (Processor.getStartPosition p)) as [Hsv Hsl];
        [split; [assumption | lia]|].
      repeat split; try assumption; lia.
    + repeat split; try assumption; lia.
Qed.

Lemma moves_ordered l : forall p,
  ordered p -> Forall (fun m => slider_value (snd m)) l -> ordered (moves p l).
Proof.
  induction l as [|m l IH]; intros p Hp Hl; [exact Hp|].
  inversion Hl as [|? ? Hm Hl']; subst. cbn [moves fold_left].
  apply IH; [|assumption]. now apply sliderValueChanged_ordered.
Qed.

(** C3, amended: the order of the trim region is kept by the sliders'
    handler, [BufferedRecorderSamplerEditor::sliderValueChanged], not by
    the setters of the processor.  From a region whose start is below its
    end (start at most 1, end at least 0), after any sequence of
    movements of the two sliders with values between 0 and 1, in any
    order, [startPosition < endPosition] holds; and a movement that
    would break the order stores the other bound less 0.01f (start
    slider) or plus 0.01f (end slider) in place of the slider's value. *)
Theorem sliders_keep_order p l :
  ordered p -> Forall (fun m => slider_value (snd m)) l ->
  Float.ltb (Processor.getStartPosition (moves p l))
            (Processor.getEndPosition (moves p l)) = true
  /\ ordered (moves p l)
  /\ (forall value,
        Processor.getStartPosition (sliderValueChanged (moves p l) startSlider value)
        = if Float.geb (Double.to_float value) (Processor.getEndPosition (moves p l))
          then Float.sub (Processor.getEndPosition (moves p l)) epsilon
          else Double.to_float value)
  /\ (forall value,
        Processor.getEndPosition (sliderValueChanged (moves p l) endSlider value)
        = if Float.leb (Double.to_float value) (Processor.getStartPosition (moves p l))
          then Float.add (Processor.getStartPosition (moves p l)) epsilon
          else Double.to_float value).
Proof.
  intros Hp Hl. pose proof (moves_ordered l p Hp Hl) as Ho.
  split; [|split; [exact Ho|split]].
  - destruct Ho as (Hs & He & _ & _ & Hlt).
    rewrite ltb_ulps by assumption. now apply Z.ltb_lt.
  - intros value. apply sliderValueChanged_start.
  - intros value. apply sliderValueChanged_end.
Qed.
End EditorFacts.

Module EditorScenario.
Import Binary32 TrimRegion Editor.

Lemma fresh_ordered : ordered Scenario.fresh.
Proof.
  unfold ordered.
  change (Processor.getStartPosition Scenario.fresh) with Float.zero.
  change (Processor.getEndPosition Scenario.fresh) with Float.one.
  repeat split; try reflexivity; discriminate.
Qed.

Lemma sliding_values : Forall (fun m => slider_value (snd m)) Scenario.sliding.
Proof.
  repeat constructor; try reflexivity; cbn [snd]; discriminate.
Qed.

(** C3, counterexample.  The setters of the processor store what they are
    given: 0.75 for the start and then 0.25 for the end, both between 0
    and 1, leave the start above the end. *)
Lemma setters_cross :
  Processor.getStartPosition Scenario.crossed = Float.lit 3 4
  /\ Processor.getEndPosition Scenario.crossed = Float.lit 1 4
  /\ Float.ltb (Processor.getStartPosition Scenario.crossed)
               (Processor.getEndPosition Scenario.crossed) = false.
Proof.
  change (Processor.getStartPosition Scenario.crossed) with (Float.lit 3 4).
  change (Processor.getEndPosition Scenario.crossed) with (Float.lit 1 4).
  repeat split.
Qed.

Lemma sliders_keep_order_witness :
  ordered Scenario.fresh
  /\ Forall (fun m => slider_value (snd m)) Scenario.sliding
  /\ Float.ltb (Processor.getStartPosition (moves Scenario.fresh Scenario.sliding))
               (Processor.getEndPosition (moves Scenario.fresh Scenario.sliding)) = true.
Proof.
  split; [exact fresh_ordered|]. split; [exact sliding_values|].
  apply (EditorFacts.sliders_keep_order Scenario.fresh Scenario.sliding).
  - exact fresh_ordered.
  - exact sliding_values.
Defined.
End EditorScenario.

(** ** More facts on arrays *)

Lemma nth_set_nth_same {A} (l : list A) : forall i x d,
  (i < length l)%nat -> nth i (set_nth l i x) d = x.
Proof.
  induction l as [|h t IH]; intros [|i] x d H; cbn [length set_nth nth] in *;
    try lia; [reflexivity | apply IH; lia].
Qed.

Lemma nth_set_nth_other {A} (l : list A) : forall i k x d,
  i <> k -> nth k (set_nth l i x) d = nth k l d.
Proof.
  induction l as [|h t IH]; intros [|i] [|k] x d H; cbn [set_nth nth];
    try reflexivity; try congruence.
  apply IH. congruence.
Qed.


(** ** More on the ring buffer *)

Module RingWindow.
Import CircularAudioBuffer RingFacts.

(** The inner loop of [copyTo], sample by sample: the destination's
    indices [i0 .. i0 + n) take the ring's samples from [readPos] on,
    round the ring as often as it takes; the others keep their value. *)
Lemma copy_channel_nth size chan d : forall n dest readPos i0 k,
  Z.of_nat (length chan) = size -> 0 <= readPos < size ->
  0 <= i0 -> i0 + Z.of_nat n <= Z.of_nat (length dest) ->
  nth k (copy_channel size chan dest readPos n i0) d
  = if (i0 <=? Z.of_nat k) && (Z.of_nat k <? i0 + Z.of_nat n)
    then nth (Z.to_nat ((readPos + (Z.of_nat k - i0)) mod size)) chan d
    else nth k dest d.
Proof.
  induction n as [|n IH]; intros dest readPos i0 k Hlen Hr Hi Hd; cbn [copy_channel].
  - replace ((i0 <=? Z.of_nat k) && (Z.of_nat k <? i0 + Z.of_nat 0)) with false
      by (symmetry; apply andb_false_iff;
          destruct (Z.leb_spec i0 (Z.of_nat k)); [right; apply Z.ltb_ge; lia | now left]).
    reflexivity.
  - rewrite IH; try assumption; try lia.
    2: now apply advance_range.
    2: rewrite set_nth_length; lia.
    rewrite (advance_mod size readPos Hr).
    destruct (Z.leb_spec (i0 + 1) (Z.of_nat k)) as [H1|H1];
      destruct (Z.ltb_spec (Z.of_nat k) (i0 + 1 + Z.of_nat n)) as [H2|H2];
      destruct (Z.leb_spec i0 (Z.of_nat k)) as [H3|H3];
      destruct (Z.ltb_spec (Z.of_nat k) (i0 + Z.of_nat (S n))) as [H4|H4];
      cbn [andb]; try lia.
    + rewrite Zplus_mod_idemp_l. do 2 f_equal. f_equal. lia.
    + rewrite nth_set_nth_other by lia. reflexivity.
    + assert (Ek : k = Z.to_nat i0) by lia. subst k.
      rewrite nth_set_nth_same by lia.
      rewrite (nth_indep chan Float.zero d) by lia.
      f_equal. rewrite Z2Nat.id, Z.sub_diag, Z.add_0_r, Z.mod_small by lia. reflexivity.
    + rewrite nth_set_nth_other by lia. reflexivity.
Qed.

Lemma copy_channel_length size chan : forall n dest readPos i0,
  length (copy_channel size chan dest readPos n i0) = length dest.
Proof.
  induction n as [|n IH]; intros dest readPos i0; cbn [copy_channel];
    [reflexivity | now rewrite IH, set_nth_length].
Qed.

(** The truncating [%] with the correction [if (readPos < 0) readPos += size]
    is the remainder of floored division. *)
Lemma rem_corrected x n :
  0 < n -> (if Z.rem x n <? 0 then Z.rem x n + n else Z.rem x n) = x mod n.
Proof.
  intros Hn. pose proof (Z.quot_rem' x n) as E.
  destruct (Z.ltb_spec (Z.rem x n) 0) as [Hneg|Hpos].
  - apply (Z.mod_unique x n (Z.quot x n - 1)); [left|lia].
    destruct (Z_lt_le_dec x 0) as [Hx|Hx].
    + pose proof (Z.rem_bound_pos_neg x n Hn ltac:(lia)). lia.
    + pose proof (Z.rem_bound_pos x n Hx Hn). lia.
  - apply (Z.mod_unique x n (Z.quot x n)); [left|lia].
    destruct (Z_lt_le_dec x 0) as [Hx|Hx].
    + pose proof (Z.rem_bound_pos_neg x n Hn ltac:(lia)). lia.
    + pose proof (Z.rem_bound_pos x n Hx Hn). lia.
Qed.

Lemma startPos_modulo rb startSample :
  well_formed rb -> startPos rb startSample = (writePos rb + startSample) mod size rb.
Proof.
  intros (Hs & _ & _). unfold startPos. cbv zeta. rewrite rem_corrected by exact Hs.
  replace (writePos rb - size rb + startSample)
    with (writePos rb + startSample + (-1) * size rb) by lia.
  apply Z.mod_add. lia.
Qed.

Lemma rotate_nth {A} (l : list A) k j d :
  (k < length l)%nat -> (j < length l)%nat ->
  nth j (rotate k l) d = nth ((k + j) mod length l) l d.
Proof.
  intros Hk Hj. unfold rotate.
  destruct (Nat.lt_ge_cases j (length l - k)) as [H|H].
  - rewrite app_nth1 by (rewrite length_skipn; lia).
    rewrite nth_skipn, Nat.mod_small by lia. reflexivity.
  - rewrite app_nth2 by (rewrite length_skipn; lia).
    rewrite length_skipn, nth_firstn.
    replace ((k + j) mod length l)%nat with (j - (length l - k))%nat.
    + destruct (Nat.ltb_spec (j - (length l - k)) k); [reflexivity | lia].
    + apply (Nat.mod_unique _ _ 1); lia.
Qed.

(** X1.  [write] keeps the ring in shape: the capacity, the number of
    channels and the length of every channel stay, and the write position
    moves on by the block's sample count, modulo the capacity, so it
    stays inside the ring. *)
Theorem write_keeps_ring rb block :
  well_formed rb ->
  well_formed (write rb block)
  /\ size (write rb block) = size rb
  /\ length (buffer (write rb block)) = length (buffer rb)
  /\ writePos (write rb block)
     = (writePos rb + AudioBuffer.getNumSamples block) mod size rb.
Proof.
  intros Hwf. split; [now apply write_well_formed|].
  destruct Hwf as (Hs & Hp & _). unfold write. cbn [size buffer writePos].
  split; [reflexivity|]. split; [apply write_channels_length|].
  apply Z.rem_mod_nonneg; unfold AudioBuffer.getNumSamples; lia.
Qed.

(** X2.  [write] takes jmin(source channels, ring channels) channels: a
    ring channel for which the block has no channel keeps its samples,
    while the write position moves on all the same. *)
Theorem write_spares_channels rb block c :
  (length block <= c)%nat ->
  AudioBuffer.channel (buffer (write rb block)) c = AudioBuffer.channel (buffer rb) c.
Proof.
  unfold write, AudioBuffer.channel. cbn [buffer].
  generalize (buffer rb) as ring. revert c.
  induction block as [|s block IH]; intros c ring H.
  - destruct ring; reflexivity.
  - destruct c as [|c]; [cbn [length] in H; lia|].
    destruct ring as [|chan ring]; [reflexivity|].
    cbn [write_channels nth]. apply IH. cbn [length] in H. lia.
Qed.

(** [copyTo], sample by sample, in the ring's own indices. *)
Lemma copyTo_stored rb dest startSample endSample c (i : nat) :
  well_formed rb -> AudioBuffer.rectangular dest ->
  (c < length (buffer rb))%nat -> (c < length dest)%nat ->
  nth i (nth c (copyTo rb dest startSample endSample) []) Float.zero
  = if Z.of_nat i <? Z.min (AudioBuffer.getNumSamples dest) (endSample - startSample)
    then nth (Z.to_nat ((writePos rb + startSample + Z.of_nat i) mod size rb))
             (nth c (buffer rb) []) Float.zero
    else nth i (nth c dest []) Float.zero.
Proof.
  intros Hwf Hrect Hc Hd. pose proof Hwf as (Hs & Hp & _).
  pose proof (channel_length rb c Hwf Hc) as Hlen.
  pose proof (rectangular_channel dest c Hrect Hd) as Hdl.
  unfold copyTo, AudioBuffer.channel in *. cbv zeta.
  set (n := Z.min (AudioBuffer.getNumSamples dest) (endSample - startSample)).
  rewrite copy_channels_nth by assumption.
  pose proof (Z.mod_pos_bound (writePos rb + startSample) (size rb) Hs) as Hr.
  rewrite (copy_channel_nth (size rb) (nth c (buffer rb) []) Float.zero
             (Z.to_nat n) (nth c dest []) (startPos rb startSample) 0 i Hlen);
    try lia.
  2: now rewrite startPos_modulo.
  replace ((0 <=? Z.of_nat i) && (Z.of_nat i <? 0 + Z.of_nat (Z.to_nat n)))
    with (Z.of_nat i <? n).
  2:{ destruct (Z.ltb_spec (Z.of_nat i) n), (Z.leb_spec 0 (Z.of_nat i)),
        (Z.ltb_spec (Z.of_nat i) (0 + Z.of_nat (Z.to_nat n))); cbn [andb]; lia. }
  destruct (Z.ltb_spec (Z.of_nat i) n) as [Hi|Hi]; [|reflexivity].
  rewrite startPos_modulo, Z.sub_0_r, Zplus_mod_idemp_l by assumption. reflexivity.
Qed.

(** Sample number [k] of the ring in time order is the stored sample [k]
    places after the write position. *)
Lemma chronological_nth rb c k :
  well_formed rb -> (c < length (buffer rb))%nat -> 0 <= k < size rb ->
  nth (Z.to_nat k) (chronological rb c) Float.zero
  = nth (Z.to_nat ((writePos rb + k) mod size rb)) (nth c (buffer rb) []) Float.zero.
Proof.
  intros Hwf Hc Hk. pose proof Hwf as (Hs & Hp & _).
  pose proof (channel_length rb c Hwf Hc) as Hlen.
  unfold chronological, AudioBuffer.channel in *.
  rewrite rotate_nth by lia. f_equal.
  apply Nat2Z.inj.
  rewrite Nat2Z.inj_mod, Nat2Z.inj_add, Hlen, !Z2Nat.id; try lia.
  apply Z.mod_pos_bound; lia.
Qed.

(** X3.  [copyTo] for any window: it writes
    n = jmin(destination length, endSample - startSample) samples, and
    sample [i] of them is the ring's sample number
    (startSample + i) mod size in time order, number 0 being the oldest
    one.  A window longer than the ring repeats it; the destination
    beyond [n] and its length are untouched. *)
Theorem copyTo_cyclic rb dest startSample endSample c (i : nat) :
  well_formed rb -> AudioBuffer.rectangular dest ->
  (c < length (buffer rb))%nat -> (c < length dest)%nat ->
  let n := Z.min (AudioBuffer.getNumSamples dest) (endSample - startSample) in
  let copied := copyTo rb dest startSample endSample in
  length (AudioBuffer.channel copied c) = length (AudioBuffer.channel dest c)
  /\ AudioBuffer.getSample copied c (Z.of_nat i)
     = if Z.of_nat i <? n
       then nth (Z.to_nat ((startSample + Z.of_nat i) mod size rb))
                (chronological rb c) Float.zero
       else AudioBuffer.getSample dest c (Z.of_nat i).
Proof.
  intros Hwf Hrect Hc Hd n copied. pose proof Hwf as (Hs & _ & _). split.
  - unfold copied, copyTo, AudioBuffer.channel.
    rewrite copy_channels_nth by assumption. apply copy_channel_length.
  - unfold copied, AudioBuffer.getSample, AudioBuffer.channel. rewrite Nat2Z.id.
    rewrite copyTo_stored by assumption. fold n.
    destruct (Z.ltb_spec (Z.of_nat i) n) as [Hi|Hi]; [|reflexivity].
    rewrite chronological_nth; try assumption.
    2: apply Z.mod_pos_bound; lia.
    rewrite Zplus_mod_idemp_r. do 2 f_equal. f_equal. lia.
Qed.

(** X4.  [copyTo] with an empty or reversed window
    (endSample <= startSample) leaves the destination as it is. *)
Theorem copyTo_empty_window rb dest startSample endSample :
  endSample <= startSample -> copyTo rb dest startSample endSample = dest.
Proof.
  intros H. unfold copyTo. cbv zeta.
  replace (Z.to_nat (Z.min (AudioBuffer.getNumSamples dest) (endSample - startSample)))
    with 0%nat by lia.
  generalize (buffer rb) as ring. induction dest as [|d dest IH]; intros [|chan ring];
    cbn [copy_channels copy_channel]; try reflexivity.
  now rewrite IH.
Qed.

(** X5.  The sample offsets of [copyTo] count modulo the capacity:
    moving a window by whole turns of the ring, forward or backward,
    copies the same samples. *)
Theorem copyTo_offsets_modulo rb dest startSample endSample (turns : Z) :
  well_formed rb ->
  copyTo rb dest (startSample + turns * size rb) (endSample + turns * size rb)
  = copyTo rb dest startSample endSample.
Proof.
  intros Hwf. unfold copyTo. cbv zeta.
  rewrite !startPos_modulo by assumption.
  replace (endSample + turns * size rb - (startSample + turns * size rb))
    with (endSample - startSample) by lia.
  rewrite Z.add_assoc, Z.mod_add by (destruct Hwf; lia). reflexivity.
Qed.

(** X6.  A block at least as long as the ring replaces all of it: after
    the [write], the ring read in time order is the last [size] samples
    of the block, whatever it held before. *)
Theorem write_long_block rb block c :
  well_formed rb -> AudioBuffer.rectangular block ->
  (c < length (buffer rb))%nat -> (c < length block)%nat ->
  size rb <= AudioBuffer.getNumSamples block ->
  chronological (write rb block) c
  = lastn (Z.to_nat (size rb)) (AudioBuffer.channel block c).
Proof.
  intros Hwf Hrect Hc Hb Hlong.
  rewrite write_chronological by assumption.
  apply lastn_app.
  pose proof (rectangular_channel block c Hrect Hb). lia.
Qed.
End RingWindow.

Module RingWindowScenario.
Import CircularAudioBuffer.

Lemma ring4_well_formed : well_formed Scenario.ring4.
Proof.
  unfold well_formed. cbn. repeat split; try lia. repeat constructor.
Qed.

(** The ring of four samples after the two blocks were written. *)
Lemma wrapped_well_formed :
  well_formed (fold_left write Scenario.sixSamples Scenario.ring4).
Proof. apply RingFacts.fold_write_well_formed, ring4_well_formed. Qed.

Lemma write_keeps_ring_witness :
  let rb := Scenario.ring4 in
  let block := [map Float.of_int [1; 2; 3]; map Float.of_int [11; 12; 13]] in
  well_formed (write rb block)
  /\ size (write rb block) = size rb
  /\ length (buffer (write rb block)) = length (buffer rb)
  /\ writePos (write rb block)
     = (writePos rb + AudioBuffer.getNumSamples block) mod size rb.
Proof.
  apply (RingWindow.write_keeps_ring Scenario.ring4). exact ring4_well_formed.
Defined.

Lemma write_spares_channels_witness :
  AudioBuffer.channel (buffer (write Scenario.ring4 [map Float.of_int [1; 2; 3]])) 1
  = AudioBuffer.channel (buffer Scenario.ring4) 1.
Proof.
  apply (RingWindow.write_spares_channels Scenario.ring4 [map Float.of_int [1; 2; 3]] 1).
  cbn [length]. lia.
Defined.

Lemma copyTo_cyclic_witness :
  let rb := fold_left write Scenario.sixSamples Scenario.ring4 in
  let dest := AudioBuffer.zeros 2 8 in
  let copied := copyTo rb dest 1 7 in
  length (AudioBuffer.channel copied 0) = length (AudioBuffer.channel dest 0)
  /\ AudioBuffer.getSample copied 0 (Z.of_nat 5)
     = if Z.of_nat 5 <? Z.min (AudioBuffer.getNumSamples dest) (7 - 1)
       then nth (Z.to_nat ((1 + Z.of_nat 5) mod size rb)) (chronological rb 0) Float.zero
       else AudioBuffer.getSample dest 0 (Z.of_nat 5).
Proof.
  apply (RingWindow.copyTo_cyclic (fold_left write Scenario.sixSamples Scenario.ring4)
           (AudioBuffer.zeros 2 8) 1 7 0 5).
  - exact wrapped_well_formed.
  - unfold AudioBuffer.rectangular. repeat constructor.
  - apply Nat.ltb_lt. reflexivity.
  - apply Nat.ltb_lt. reflexivity.
Defined.

Lemma copyTo_empty_window_witness :
  copyTo Scenario.ring4 (AudioBuffer.zeros 2 8) 3 3 = AudioBuffer.zeros 2 8.
Proof.
  apply (RingWindow.copyTo_empty_window Scenario.ring4 (AudioBuffer.zeros 2 8) 3 3). lia.
Defined.

Lemma copyTo_offsets_modulo_witness :
  let rb := fold_left write Scenario.sixSamples Scenario.ring4 in
  copyTo rb (AudioBuffer.zeros 2 3) (1 + (-2) * size rb) (4 + (-2) * size rb)
  = copyTo rb (AudioBuffer.zeros 2 3) 1 4.
Proof.
  apply (RingWindow.copyTo_offsets_modulo
           (fold_left write Scenario.sixSamples Scenario.ring4)
           (AudioBuffer.zeros 2 3) 1 4 (-2)).
  exact wrapped_well_formed.
Defined.

Lemma write_long_block_witness :
  let block := [map Float.of_int [1; 2; 3; 4; 5]; map Float.of_int [11; 12; 13; 14; 15]] in
  chronological (write Scenario.ring4 block) 1
  = lastn (Z.to_nat (size Scenario.ring4)) (AudioBuffer.channel block 1).
Proof.
  apply (RingWindow.write_long_block Scenario.ring4
           [map Float.of_int [1; 2; 3; 4; 5]; map Float.of_int [11; 12; 13; 14; 15]] 1).
  - exact ring4_well_formed.
  - unfold AudioBuffer.rectangular. repeat constructor.
  - apply Nat.ltb_lt. reflexivity.
  - apply Nat.ltb_lt. reflexivity.
  - apply Z.leb_le. reflexivity.
Defined.
End RingWindowScenario.

(** ** The array accesses of the detector, frame by frame *)

Module PitchDetectorFrames.
Import PitchDetector.

(** The inner loop of step 1 stays inside a frame that covers the indices
    up to [j + n + tau]. *)
Lemma difference_inside buffer tau : forall n j acc,
  0 <= j -> 0 <= tau -> j + Z.of_nat n + tau <= Z.of_nat (length buffer) ->
  exists d, difference buffer tau n j acc = Ok d.
Proof.
  induction n as [|n IH]; intros j acc Hj Htau Hlen; cbn [difference].
  - eexists. reflexivity.
  - rewrite !read_in_range by lia. cbn [bind]. apply IH; lia.
Qed.

(** On a frame that ends before, the first read outside is at the frame's
    length. *)
Lemma difference_outside buffer tau : forall n j acc,
  0 <= j -> 0 <= tau -> j + tau <= Z.of_nat (length buffer) ->
  Z.of_nat (length buffer) < j + Z.of_nat n + tau ->
  difference buffer tau n j acc
  = Fault (OutOfBounds BufferArg (Z.of_nat (length buffer))).
Proof.
  induction n as [|n IH]; intros j acc Hj Htau Hlo Hhi; cbn [difference]; [lia|].
  unfold read at 1. unfold in_range.
  destruct (Z.ltb_spec j (Z.of_nat (length buffer))) as [Hin|Hout].
  - replace (0 <=? j) with true by (symmetry; apply Z.leb_le; lia). cbn [andb bind].
    unfold read at 1. unfold in_range.
    destruct (Z.ltb_spec (j + tau) (Z.of_nat (length buffer))) as [Hin'|Hout'].
    + replace (0 <=? j + tau) with true by (symmetry; apply Z.leb_le; lia).
      cbn [andb bind]. apply IH; lia.
    + rewrite andb_false_r. cbn [bind]. do 2 f_equal. lia.
  - rewrite andb_false_r. cbn [bind]. do 2 f_equal. lia.
Qed.

Lemma differences_inside buffer : forall n tau yin,
  0 <= tau -> tau + Z.of_nat n <= Z.of_nat (length yin) ->
  Z.of_nat (length yin) + (tau + Z.of_nat n) - 1 <= Z.of_nat (length buffer) ->
  exists yin', differences buffer n tau yin = Ok yin' /\ length yin' = length yin.
Proof.
  induction n as [|n IH]; intros tau yin Htau Hn Hlen; cbn [differences].
  - eexists. split; reflexivity.
  - destruct (difference_inside buffer tau (length yin) 0 Float.zero) as [d ->]; try lia.
    cbn [bind]. unfold store. rewrite in_range_true by lia. cbn [bind].
    destruct (IH (tau + 1) (set_nth yin (Z.to_nat tau) d)) as (yin' & E & L);
      rewrite ?set_nth_length; try lia.
    exists yin'. split; [exact E|]. now rewrite L, set_nth_length.
Qed.

Lemma differences_outside buffer : forall n tau yin,
  (0 < n)%nat -> 0 <= tau -> tau + Z.of_nat n <= Z.of_nat (length yin) ->
  tau <= Z.of_nat (length buffer) ->
  Z.of_nat (length buffer) < Z.of_nat (length yin) + (tau + Z.of_nat n) - 1 ->
  differences buffer n tau yin
  = Fault (OutOfBounds BufferArg (Z.of_nat (length buffer))).
Proof.
  induction n as [|n IH]; intros tau yin Hpos Htau Hn Hlo Hhi; cbn [differences]; [lia|].
  destruct (Z_lt_le_dec (Z.of_nat (length buffer)) (Z.of_nat (length yin) + tau))
    as [Hout|Hin].
  - rewrite difference_outside by lia. reflexivity.
  - destruct (difference_inside buffer tau (length yin) 0 Float.zero) as [d ->]; try lia.
    cbn [bind]. unfold store. rewrite in_range_true by lia. cbn [bind].
    apply IH; rewrite ?set_nth_length; lia.
Qed.

(** Step 2 reads and writes the lags [tau .. tau + n) only. *)
Lemma normalise_inside : forall n tau sum yin,
  0 <= tau -> tau + Z.of_nat n <= Z.of_nat (length yin) ->
  exists yin',
    normalise n tau sum yin = Ok yin' /\ length yin' = length yin
    /\ forall k, Z.of_nat k < tau -> nth k yin' Float.zero = nth k yin Float.zero.
Proof.
  induction n as [|n IH]; intros tau sum yin Htau Hn; cbn [normalise].
  - eexists. repeat split.
  - rewrite read_in_range by lia. cbn [bind]. unfold store.
    rewrite in_range_true by lia. cbn [bind].
    match goal with |- context [normalise n _ ?s ?y] =>
      destruct (IH (tau + 1) s y) as (yin' & E & L & K) end;
      rewrite ?set_nth_length; try lia.
    exists yin'. split; [exact E|]. split; [now rewrite L, set_nth_length|].
    intros k Hk. rewrite K by lia. apply nth_set_nth_other. lia.
Qed.

(** Step 3 reads the lags [tau - 1], [tau] and [tau + 1]; of the lags it
    visits only the last one has no right neighbour. *)
Lemma scan_inside sr yin : forall n tau,
  1 <= tau -> ((0 < n)%nat -> tau + Z.of_nat n = Z.of_nat (length yin)) ->
  (exists r, scan sr yin n tau = Ok r)
  \/ scan sr yin n tau = Fault (OutOfBounds YinBuffer (Z.of_nat (length yin))).
Proof.
  induction n as [|n IH]; intros tau Htau Hn; cbn [scan].
  - left. eexists. reflexivity.
  - specialize (Hn ltac:(lia)).
    rewrite read_in_range by lia. cbn [bind].
    assert (Hnext : (exists r, scan sr yin n (tau + 1) = Ok r)
                    \/ scan sr yin n (tau + 1)
                       = Fault (OutOfBounds YinBuffer (Z.of_nat (length yin))))
      by (apply IH; lia).
    destruct (Float.ltb _ threshold); [|exact Hnext].
    rewrite (read_in_range YinBuffer Float.zero yin (tau - 1)) by lia. cbn [bind].
    destruct (Float.ltb _ _); [|exact Hnext].
    unfold read. unfold in_range.
    destruct (Z.ltb_spec (tau + 1) (Z.of_nat (length yin))) as [Hin|Hout].
    + replace (0 <=? tau + 1) with true by (symmetry; apply Z.leb_le; lia).
      cbn [andb bind].
      destruct (Float.ltb _ _); [|exact Hnext].
      left. eexists. reflexivity.
    + rewrite andb_false_r. cbn [bind]. right. do 2 f_equal. lia.
Qed.

(** X7.  A detector made for a block of 0 or 1 samples has an empty
    [yinBuffer]; [detectPitch] then reads no sample of the frame and
    writes [yinBuffer[0] = 1.0f] outside the empty array. *)
Theorem detectPitch_no_lags sr blockSize buffer size_arg :
  0 <= blockSize < 2 ->
  yinBuffer (new sr blockSize) = []
  /\ detectPitch (new sr blockSize) buffer size_arg = Fault (OutOfBounds YinBuffer 0).
Proof.
  intros H.
  assert (E : yinBuffer (new sr blockSize) = []).
  { unfold new. cbn [yinBuffer].
    rewrite Z.quot_small by lia. reflexivity. }
  split; [exact E|]. unfold detectPitch. rewrite E. reflexivity.
Qed.

(** X8.  On a frame shorter than 2 * yinBuffer.size() - 1 samples the
    difference loop of [detectPitch] reads past the frame, whatever the
    [size] argument: the first read outside is at the frame's length. *)
Theorem detectPitch_short_frame pd buffer size_arg :
  0 < size (yinBuffer pd) ->
  Z.of_nat (length buffer) < 2 * size (yinBuffer pd) - 1 ->
  detectPitch pd buffer size_arg
  = Fault (OutOfBounds BufferArg (Z.of_nat (length buffer))).
Proof.
  unfold size. intros Hh Hshort. unfold detectPitch.
  rewrite differences_outside; try lia. reflexivity.
Qed.

(** X9.  On a frame of at least 2 * yinBuffer.size() - 1 samples every
    access of [detectPitch] is in bounds but one: the call returns, or
    it reads [yinBuffer[yinBuffer.size()]], one past the end, from the
    scan at the last lag.  When it returns, the detector keeps its rate
    and sizes, and [yinBuffer[0]] is 1.0f. *)
Theorem detectPitch_long_frame pd buffer size_arg :
  0 < size (yinBuffer pd) ->
  2 * size (yinBuffer pd) - 1 <= Z.of_nat (length buffer) ->
  (exists frequency yin,
      detectPitch pd buffer size_arg
      = Ok (frequency, {| sampleRate := sampleRate pd; bufferSize := bufferSize pd;
                          yinBuffer := yin |})
      /\ length yin = length (yinBuffer pd)
      /\ nth 0 yin Float.zero = Float.one)
  \/ detectPitch pd buffer size_arg
     = Fault (OutOfBounds YinBuffer (size (yinBuffer pd))).
Proof.
  unfold size. intros Hh Hlong. unfold detectPitch.
  destruct (differences_inside buffer (length (yinBuffer pd)) 0 (yinBuffer pd))
    as (yin1 & -> & L1); try lia.
  cbn [bind]. unfold store. rewrite in_range_true by lia. cbn [bind Z.to_nat].
  destruct (normalise_inside (length (yinBuffer pd) - 1) 1 Float.zero
              (set_nth yin1 0 Float.one))
    as (yin3 & -> & L3 & K3); rewrite ?set_nth_length; try lia.
  cbn [bind]. rewrite set_nth_length in L3.
  destruct (scan_inside (sampleRate pd) yin3 (length (yinBuffer pd) - 2) 2)
    as [[r ->]| ->]; try lia.
  - left. cbn [bind].
    assert (H0 : nth 0 yin3 Float.zero = Float.one).
    { rewrite (K3 0%nat) by lia. apply nth_set_nth_same. lia. }
    destruct r as [f|]; eexists; eexists; (split; [reflexivity|]);
      (split; [lia | exact H0]).
  - right. cbn [bind]. do 2 f_equal. lia.
Qed.

(** Step 1 writes every lag before any is read: what [yinBuffer] held does
    not show in the result. *)
Lemma differences_overwrite buffer : forall post post' pre tau,
  length post = length post' -> tau = Z.of_nat (length pre) ->
  differences buffer (length post) tau (pre ++ post)
  = differences buffer (length post') tau (pre ++ post').
Proof.
  induction post as [|y post IH]; intros [|y' post'] pre tau Hl ->;
    cbn [length] in Hl; try discriminate; [reflexivity|].
  injection Hl as Hl. cbn [differences length].
  replace (length (pre ++ y' :: post')) with (length (pre ++ y :: post))
    by (rewrite !length_app; cbn [length]; lia).
  destruct (difference buffer (Z.of_nat (length pre)) (length (pre ++ y :: post)) 0
              Float.zero) as [d|f]; cbn [bind]; [|reflexivity].
  rewrite !store_app_mid. cbn [bind].
  replace (pre ++ d :: post) with ((pre ++ [d]) ++ post) by (now rewrite <- app_assoc).
  replace (pre ++ d :: post') with ((pre ++ [d]) ++ post') by (now rewrite <- app_assoc).
  apply IH; [exact Hl | rewrite length_app; cbn [length]; lia].
Qed.

(** X10.  The detector carries nothing from one frame to the next: the
    frequency and the [yinBuffer] that [detectPitch] leaves depend on the
    frame, the sample rate and the number of lags only, not on what
    [yinBuffer] held before nor on the [size] argument. *)
Theorem detectPitch_stateless pd1 pd2 buffer size1 size2 :
  sampleRate pd1 = sampleRate pd2 -> bufferSize pd1 = bufferSize pd2 ->
  length (yinBuffer pd1) = length (yinBuffer pd2) ->
  detectPitch pd1 buffer size1 = detectPitch pd2 buffer size2.
Proof.
  intros Hr Hb Hl. unfold detectPitch.
  pose proof (differences_overwrite buffer (yinBuffer pd1) (yinBuffer pd2) [] 0 Hl eq_refl)
    as E.
  cbn [app] in E. rewrite E, Hr, Hb, Hl. reflexivity.
Qed.
End PitchDetectorFrames.

Module PitchDetectorFramesScenario.
Import PitchDetector.

Lemma detectPitch_no_lags_witness :
  yinBuffer (new Scenario.rate48k 1) = []
  /\ detectPitch (new Scenario.rate48k 1) (repeat Float.zero 2048) 2048
     = Fault (OutOfBounds YinBuffer 0).
Proof.
  apply (PitchDetectorFrames.detectPitch_no_lags Scenario.rate48k 1
           (repeat Float.zero 2048) 2048).
  lia.
Defined.

Lemma detectPitch_short_frame_witness :
  detectPitch (new Scenario.rate48k 2050) (Scenario.impulses 100 2048) 2048
  = Fault (OutOfBounds BufferArg (Z.of_nat (length (Scenario.impulses 100 2048)))).
Proof.
  apply (PitchDetectorFrames.detectPitch_short_frame (new Scenario.rate48k 2050)
           (Scenario.impulses 100 2048) 2048).
  - apply Z.ltb_lt. vm_compute. reflexivity.
  - apply Z.ltb_lt. vm_compute. reflexivity.
Defined.

Lemma detectPitch_long_frame_witness :
  let pd := new Scenario.rate48k 64 in
  let buffer := Scenario.impulses 31 2048 in
  (exists frequency yin,
      detectPitch pd buffer 2048
      = Ok (frequency, {| sampleRate := sampleRate pd; bufferSize := bufferSize pd;
                          yinBuffer := yin |})
      /\ length yin = length (yinBuffer pd)
      /\ nth 0 yin Float.zero = Float.one)
  \/ detectPitch pd buffer 2048 = Fault (OutOfBounds YinBuffer (size (yinBuffer pd))).
Proof.
  apply (PitchDetectorFrames.detectPitch_long_frame (new Scenario.rate48k 64)
           (Scenario.impulses 31 2048) 2048).
  - apply Z.ltb_lt. vm_compute. reflexivity.
  - apply Z.leb_le. vm_compute. reflexivity.
Defined.

Lemma detectPitch_stateless_witness :
  detectPitch (new Scenario.rate48k 64) (Scenario.impulses 40 2048) 2048
  = detectPitch {| sampleRate := Scenario.rate48k; bufferSize := 64;
                   yinBuffer := repeat Float.one 32 |}
      (Scenario.impulses 40 2048) 0.
Proof.
  apply (PitchDetectorFrames.detectPitch_stateless (new Scenario.rate48k 64)
           {| sampleRate := Scenario.rate48k; bufferSize := 64;
              yinBuffer := repeat Float.one 32 |}
           (Scenario.impulses 40 2048) 2048 0); reflexivity.
Defined.
End PitchDetectorFramesScenario.

(** ** What the operations of the processor leave alone *)

Module ProcessorFrame.
Import Processor.

Lemma clear_outputs_length numIn numOut : forall b i,
  length (clear_outputs numIn numOut i b) = length b.
Proof.
  induction b as [|chan rest IH]; intros i; cbn [clear_outputs length];
    [reflexivity | now rewrite IH].
Qed.

Section WithHost.
Variable std_log2 : Float.t -> Float.t.
Variable MidiBuffer : Type.
Variable render :
  Synthesiser.t -> AudioBuffer.t -> MidiBuffer -> Z -> Z -> Synthesiser.t * AudioBuffer.t.

Lemma detectPitch_frame p p' :
  detectPitch std_log2 p = Ok p' ->
  state p' = state p /\ circularBuffer p' = circularBuffer p
  /\ trimmedBuffer p' = trimmedBuffer p
  /\ startPosition p' = startPosition p /\ endPosition p' = endPosition p
  /\ sampler p' = sampler p
  /\ isPreviewActive p' = isPreviewActive p
  /\ previewPosition p' = previewPosition p.
Proof.
  unfold detectPitch.
  destruct (AudioBuffer.getNumSamples (trimmedBuffer p) =? 0).
  - intros [= <-]. repeat split.
  - destruct (analyse_chunks std_log2 _ _ _ _ _ _) as [[pd' hist']|]; cbn [bind];
      [|discriminate].
    destruct (most_common hist' 0 (mostCommonNote p)) as [mc note].
    intros [= <-]. repeat split.
Qed.

(** X11.  [processBlock] never changes the state, the trimmed buffer,
    the trim region, the histogram or the most common note, and it
    writes the ring in the Recording state only: from the moment a
    duration button is pressed the ring is frozen. *)
Theorem processBlock_frame p buffer midi :
  let p' := fst (processBlock MidiBuffer render p buffer midi) in
  state p' = state p
  /\ trimmedBuffer p' = trimmedBuffer p
  /\ startPosition p' = startPosition p /\ endPosition p' = endPosition p
  /\ noteHistogram p' = noteHistogram p /\ mostCommonNote p' = mostCommonNote p
  /\ circularBuffer p'
     = match state p with
       | Recording =>
           CircularAudioBuffer.write (circularBuffer p)
             (clear_outputs (numInputChannels p) (numOutputChannels p) 0 buffer)
       | _ => circularBuffer p
       end.
Proof.
  cbv zeta. unfold processBlock.
  destruct (state p) eqn:Hst; cbn [state set_circularBuffer]; rewrite ?Hst.
  - cbn [fst state set_circularBuffer]. rewrite Hst. repeat split.
  - destruct (isPreviewActive p); [|cbn [fst]; rewrite Hst; repeat split].
    destruct (0 <? _); cbn [fst state set_previewPosition]; rewrite Hst; repeat split.
  - destruct (render _ _ _ _ _) as [synth rendered].
    cbn [fst state set_sampler]. rewrite Hst. repeat split.
Qed.

(** X12.  While recording, and while trimming with the preview off, the
    block goes through [processBlock] unchanged (the processor has no
    more output than input channels). *)
Theorem processBlock_passes_input p buffer midi :
  numOutputChannels p <= numInputChannels p ->
  Runs.recording p = true \/ (state p = Trimming /\ isPreviewActive p = false) ->
  snd (processBlock MidiBuffer render p buffer midi) = buffer.
Proof.
  intros Hch Hst. unfold processBlock.
  rewrite TrimFacts.clear_outputs_none by exact Hch.
  unfold Runs.recording in Hst.
  destruct (state p) eqn:E; cbn [state set_circularBuffer]; rewrite ?E.
  - reflexivity.
  - destruct Hst as [Hst|[_ ->]]; [discriminate | reflexivity].
  - destruct Hst as [Hst|[Hst _]]; discriminate.
Qed.

(** X13.  In the Sampling state the live input never reaches the
    output: the block is cleared before the sampler renders, so two
    input blocks of the same shape give the same output and the same
    processor, whatever they hold. *)
Theorem processBlock_sampling_drops_input p buffer1 buffer2 midi :
  state p = Sampling ->
  length buffer1 = length buffer2 ->
  AudioBuffer.getNumSamples buffer1 = AudioBuffer.getNumSamples buffer2 ->
  processBlock MidiBuffer render p buffer1 midi
  = processBlock MidiBuffer render p buffer2 midi.
Proof.
  intros Hst Hc Hn. unfold processBlock. rewrite Hst. cbv beta iota zeta.
  rewrite Hst. unfold AudioBuffer.getNumChannels.
  rewrite !clear_outputs_length, Hc, Hn. reflexivity.
Qed.

Lemma step_keeps_leaving p p' :
  Session.step std_log2 MidiBuffer render p p' ->
  Runs.recording p = false -> Runs.recording p' = false.
Proof.
  unfold Runs.recording. intros Hstep Hst. destruct Hstep; try exact Hst; try reflexivity.
  - destruct (processBlock_frame p buffer midi) as [E _]. cbv zeta in E.
    now rewrite E.
  - unfold previewTrimmedSample in H. apply detectPitch_frame in H.
    destruct H as [E _]. now rewrite E.
  - apply detectPitch_frame in H. destruct H as [E _]. now rewrite E.
  - destruct slider; unfold Editor.sliderValueChanged;
      match goal with |- context [if ?b then _ else _] => destruct b end;
      exact Hst.
Qed.

(** X14.  No operation leads back to the Recording state: once a
    duration button has been pressed, whatever is called afterwards,
    in whatever order, the processor is trimming or sampling. *)
Theorem recording_is_never_resumed p p' :
  Runs.run std_log2 MidiBuffer render p p' ->
  Runs.recording p = false -> Runs.recording p' = false.
Proof.
  intros Hrun. induction Hrun as [p|p p' p'' Hstep Hrun IH]; intros Hst.
  - exact Hst.
  - apply IH. eapply step_keeps_leaving; eassumption.
Qed.

Lemma step_keeps_ring p p' :
  Session.step std_log2 MidiBuffer render p p' ->
  CircularAudioBuffer.well_formed (circularBuffer p) ->
  CircularAudioBuffer.well_formed (circularBuffer p')
  /\ CircularAudioBuffer.size (circularBuffer p')
     = CircularAudioBuffer.size (circularBuffer p).
Proof.
  intros Hstep Hwf. destruct Hstep; try (split; [exact Hwf | reflexivity]).
  - destruct (processBlock_frame p buffer midi) as (_ & _ & _ & _ & _ & _ & E).
    cbv zeta in E. rewrite E. destruct (state p); try (split; [exact Hwf | reflexivity]).
    split; [now apply RingFacts.write_well_formed | reflexivity].
  - unfold previewTrimmedSample in H. apply detectPitch_frame in H.
    destruct H as (_ & E & _). rewrite E. split; [exact Hwf | reflexivity].
  - apply detectPitch_frame in H. destruct H as (_ & E & _). rewrite E.
    split; [exact Hwf | reflexivity].
  - destruct slider; unfold Editor.sliderValueChanged;
      match goal with |- context [if ?b then _ else _] => destruct b end;
      split; solve [exact Hwf | reflexivity].
Qed.

(** X15.  Whatever is called, in whatever order, the ring keeps its
    shape: its capacity and the lengths of its channels never change
    and the write position stays inside it, so that [write] and
    [copyTo] never index outside the ring. *)
Theorem ring_stays_well_formed p p' :
  Runs.run std_log2 MidiBuffer render p p' ->
  CircularAudioBuffer.well_formed (circularBuffer p) ->
  CircularAudioBuffer.well_formed (circularBuffer p')
  /\ CircularAudioBuffer.size (circularBuffer p')
     = CircularAudioBuffer.size (circularBuffer p).
Proof.
  intros Hrun. induction Hrun as [p|p p' p'' Hstep Hrun IH]; intros Hwf.
  - split; [exact Hwf | reflexivity].
  - destruct (step_keeps_ring p p' Hstep Hwf) as [Hwf' Hs].
    destruct (IH Hwf') as [Hwf'' Hs']. split; [exact Hwf'' | congruence].
Qed.

(** X16.  Nothing the editor does stops a preview: [stopPreview] has no
    caller, and with the preview on, it is still on after any button,
    any slider movement and any block. *)
Theorem preview_is_never_stopped p :
  isPreviewActive p = true ->
  (forall b p', Controls.buttonClicked std_log2 p b = Ok p' -> isPreviewActive p' = true)
  /\ (forall s value, isPreviewActive (Editor.sliderValueChanged p s value) = true)
  /\ (forall buffer midi,
        isPreviewActive (fst (processBlock MidiBuffer render p buffer midi)) = true).
Proof.
  intros Hon. split; [|split].
  - intros b p' H. destruct b; cbn [Controls.buttonClicked] in H;
      try (injection H as <-; exact Hon).
    unfold previewTrimmedSample in H. apply detectPitch_frame in H.
    destruct H as (_ & _ & _ & _ & _ & _ & E & _). rewrite E. reflexivity.
  - intros s value. destruct s; unfold Editor.sliderValueChanged;
      match goal with |- context [if ?b then _ else _] => destruct b end;
      exact Hon.
  - intros buffer midi. unfold processBlock.
    destruct (state p) eqn:Hst; cbn [state set_circularBuffer]; rewrite ?Hst.
    + exact Hon.
    + rewrite Hon. destruct (0 <? _); exact Hon.
    + destruct (render _ _ _ _ _) as [synth rendered]. exact Hon.
Qed.
End WithHost.

End ProcessorFrame.

(** ** The duration buttons, whatever the duration *)

Module TrimWindow.
Import Processor.

End TrimWindow.

(** ** The analysis of a silent region *)

Module SilentRegion.
Import Processor Analysis.

Lemma slice_zeros chan start n :
  Forall Float.is_zero chan -> Forall Float.is_zero (slice chan start n).
Proof.
  intros H. unfold slice.
  rewrite <- (firstn_skipn (Z.to_nat start) chan) in H.
  apply Forall_app in H. destruct H as [_ H].
  rewrite <- (firstn_skipn (Z.to_nat n) (skipn (Z.to_nat start) chan)) in H.
  apply Forall_app in H. tauto.
Qed.

(** The detector on a frame of zeros, its [yinBuffer] whatever it was. *)
Lemma detectPitch_zeros pd buffer size_arg :
  Forall Float.is_zero buffer ->
  1 <= PitchDetector.size (PitchDetector.yinBuffer pd) ->
  2 * PitchDetector.size (PitchDetector.yinBuffer pd) - 1 <= Z.of_nat (length buffer) ->
  exists pd',
    PitchDetector.detectPitch pd buffer size_arg = Ok (Float.zero, pd')
    /\ length (PitchDetector.yinBuffer pd') = length (PitchDetector.yinBuffer pd).
Proof.
  intros HF Hh Hlen. unfold PitchDetector.detectPitch, PitchDetector.size in *.
  pose proof (PitchDetectorFacts.differences_silence buffer HF
                (PitchDetector.yinBuffer pd) [] 0 eq_refl Hlen) as H1.
  cbn [app] in H1. rewrite H1. clear H1. cbn [bind].
  destruct (length (PitchDetector.yinBuffer pd)) as [|h] eqn:Eh; [cbn in Hh; lia|].
  cbn [repeat]. unfold store. rewrite in_range_true by (cbn [length]; lia).
  cbn [bind Z.to_nat set_nth]. rewrite !Nat.sub_succ, Nat.sub_0_r.
  pose proof (PitchDetectorFacts.normalise_silence h [Float.one] 1 Float.zero
                eq_refl eq_refl) as H2.
  cbn [app] in H2. rewrite H2. clear H2. cbn [bind].
  destruct h as [|h].
  - eexists. split; reflexivity.
  - rewrite Nat.sub_succ, Nat.sub_0_r.
    pose proof (PitchDetectorFacts.scan_all_nan (PitchDetector.sampleRate pd) h
                  [Float.one; S754_nan] [] 2 eq_refl) as H3.
    rewrite app_nil_r in H3. cbn [app repeat] in *. rewrite H3. cbn [bind].
    eexists. split; [reflexivity|]. cbn [PitchDetector.yinBuffer length].
    now rewrite repeat_length.
Qed.

Section WithLog2.
Variable std_log2 : Float.t -> Float.t.

(** Silent chunks are all estimated at "no note", -1. *)
Lemma estimate_notes_silence : forall chunks pd,
  Forall (fun chunk => Forall Float.is_zero chunk /\ length chunk = 2048%nat) chunks ->
  1 <= PitchDetector.size (PitchDetector.yinBuffer pd) ->
  2 * PitchDetector.size (PitchDetector.yinBuffer pd) - 1 <= 2048 ->
  exists pd',
    estimate_notes std_log2 (Some pd) chunks
    = Ok (repeat (-1) (length chunks), Some pd').
Proof.
  induction chunks as [|chunk rest IH]; intros pd HF Hh Hlen; cbn [estimate_notes].
  - eexists. reflexivity.
  - inversion HF as [|? ? [Hz Hl] HF']; subst.
    destruct (detectPitch_zeros pd chunk 2048 Hz Hh ltac:(lia)) as (pd1 & -> & L1).
    cbn [bind].
    destruct (IH pd1 HF') as (pd' & ->);
      unfold PitchDetector.size in *; rewrite ?L1; try lia.
    cbn [bind]. eexists. reflexivity.
Qed.

Lemma tally_no_note : forall n hist, tally (repeat (-1) n) hist = hist.
Proof.
  induction n as [|n IH]; intros hist; [reflexivity|].
  cbn [repeat]. unfold tally in *. cbn [fold_left]. apply IH.
Qed.

(** X19.  A pitch analysis over a silent trim region counts nothing:
    every chunk is estimated at frequency 0, which is no note, so the
    histogram is left as it was and [mostCommonNote] is picked again
    from it; with an empty histogram it keeps its value. *)
Theorem detectPitch_silent_region p pd :
  let total := AudioBuffer.getNumSamples (trimmedBuffer p) in
  let startSample := sampleOffset (startPosition p) total in
  let endSample := sampleOffset (endPosition p) total in
  pitchDetector p = Some pd ->
  1 <= PitchDetector.size (PitchDetector.yinBuffer pd) ->
  2 * PitchDetector.size (PitchDetector.yinBuffer pd) - 1 <= 2048 ->
  total <> 0 -> 0 <= startSample <= endSample -> endSample <= total ->
  Forall Float.is_zero (AudioBuffer.channel (trimmedBuffer p) 0) ->
  exists p',
    detectPitch std_log2 p = Ok p'
    /\ noteHistogram p' = noteHistogram p
    /\ mostCommonNote p' = snd (most_common (noteHistogram p) 0 (mostCommonNote p))
    /\ (noteHistogram p = [] -> mostCommonNote p' = mostCommonNote p)
    /\ trimmedBuffer p' = trimmedBuffer p /\ state p' = state p.
Proof.
  intros total startSample endSample Hpd Hh Hlen Htotal Hwin Hend Hz.
  unfold detectPitch. fold total. fold startSample. fold endSample.
  destruct (Z.eqb_spec total 0) as [E|_]; [contradiction|].
  assert (Hq : Z.quot (endSample - startSample) chunkSize
               = (endSample - startSample) / 2048).
  { unfold chunkSize. apply Z.quot_div_nonneg; lia. }
  rewrite Hq.
  assert (Hchan : Z.of_nat (length (AudioBuffer.channel (trimmedBuffer p) 0)) = total).
  { unfold total, AudioBuffer.getNumSamples, AudioBuffer.channel.
    now rewrite PreviewFacts.hd_nth. }
  pose proof (Z.mul_div_le (endSample - startSample) 2048 ltac:(lia)) as Hdiv.
  pose proof (Z.div_pos (endSample - startSample) 2048 ltac:(lia) ltac:(lia)) as Hn0.
  rewrite AnalysisFacts.analyse_chunks_spec by (rewrite ?Hchan, ?Z2Nat.id; lia).
  rewrite Hpd.
  match goal with |- context [estimate_notes std_log2 (Some pd) ?chunks] =>
    destruct (estimate_notes_silence chunks pd) as (pd' & ->) end; try assumption.
  { apply Forall_forall. intros chunk Hin. apply in_map_iff in Hin.
    destruct Hin as (k & <- & Hk). apply in_seq in Hk. split.
    - now apply slice_zeros.
    - rewrite PreviewFacts.slice_length; lia. }
  cbn [bind]. rewrite tally_no_note.
  destruct (most_common (noteHistogram p) 0 (mostCommonNote p)) as [mc note] eqn:Em.
  eexists. split; [reflexivity|].
  cbn [noteHistogram mostCommonNote trimmedBuffer state set_mostCommonNote
       set_noteHistogram set_pitchDetector snd].
  repeat split.
  intros Hnil. rewrite Hnil in Em. cbn in Em. congruence.
Qed.
End WithLog2.
End SilentRegion.

(** ** What a voice writes *)

Module VoiceFrame.
Import Voice.

Lemma accumulate_length out i x : length (accumulate out i x) = length out.
Proof. unfold accumulate. apply set_nth_length. Qed.

Lemma accumulate_other out i x k :
  Z.to_nat i <> k -> nth k (accumulate out i x) Float.zero = nth k out Float.zero.
Proof. intros H. unfold accumulate. now apply nth_set_nth_other. Qed.

(** The sample loop writes the indices [i .. i + n) of the two output
    channels and nothing else; it never touches the sound, the root
    note, the rate or the gain of the voice. *)
Lemma render_frame inL inR bufferSize : forall n v i outL outR v' outL' outR',
  0 <= i ->
  render inL inR bufferSize n v i outL outR = (v', outL', outR') ->
  length outL' = length outL
  /\ (forall k, (Z.of_nat k < i \/ i + Z.of_nat n <= Z.of_nat k) ->
        nth k outL' Float.zero = nth k outL Float.zero)
  /\ match outR, outR' with
     | Some o, Some o' =>
         length o' = length o
         /\ forall k, (Z.of_nat k < i \/ i + Z.of_nat n <= Z.of_nat k) ->
              nth k o' Float.zero = nth k o Float.zero
     | None, None => True
     | _, _ => False
     end
  /\ sampleBuffer v' = sampleBuffer v /\ rootNote v' = rootNote v
  /\ rate v' = rate v /\ level v' = level v.
Proof.
  induction n as [|n IH]; intros v i outL outR v' outL' outR' Hi; cbn [render].
  - intros [= <- <- <-]. repeat split. destruct outR; auto.
  - assert (Hstop : forall w, sampleBuffer w = sampleBuffer v -> rootNote w = rootNote v ->
              rate w = rate v -> level w = level v ->
              (clearCurrentNote w, outL, outR) = (v', outL', outR') ->
              length outL' = length outL
              /\ (forall k, (Z.of_nat k < i \/ i + Z.of_nat (S n) <= Z.of_nat k) ->
                    nth k outL' Float.zero = nth k outL Float.zero)
              /\ match outR, outR' with
                 | Some o, Some o' =>
                     length o' = length o
                     /\ forall k, (Z.of_nat k < i \/ i + Z.of_nat (S n) <= Z.of_nat k) ->
                          nth k o' Float.zero = nth k o Float.zero
                 | None, None => True
                 | _, _ => False
                 end
              /\ sampleBuffer v' = sampleBuffer v /\ rootNote v' = rootNote v
              /\ rate v' = rate v /\ level v' = level v).
    { intros w E1 E2 E3 E4 [= <- <- <-]. cbn [clearCurrentNote sampleBuffer rootNote rate level].
      repeat split; auto. destruct outR; auto. }
    destruct (bufferSize <=? sourceSamplePosition v); [now apply Hstop|].
    assert (Hemit : forall w x y,
              sampleBuffer w = sampleBuffer v -> rootNote w = rootNote v ->
              rate w = rate v -> level w = level v ->
              render inL inR bufferSize n w (i + 1) (accumulate outL i x)
                match outR with Some o => Some (accumulate o i y) | None => None end
              = (v', outL', outR') ->
              length outL' = length outL
              /\ (forall k, (Z.of_nat k < i \/ i + Z.of_nat (S n) <= Z.of_nat k) ->
                    nth k outL' Float.zero = nth k outL Float.zero)
              /\ match outR, outR' with
                 | Some o, Some o' =>
                     length o' = length o
                     /\ forall k, (Z.of_nat k < i \/ i + Z.of_nat (S n) <= Z.of_nat k) ->
                          nth k o' Float.zero = nth k o Float.zero
                 | None, None => True
                 | _, _ => False
                 end
              /\ sampleBuffer v' = sampleBuffer v /\ rootNote v' = rootNote v
              /\ rate v' = rate v /\ level v' = level v).
    { intros w x y E1 E2 E3 E4 H. apply IH in H; [|lia].
      destruct H as (L & K & R & F1 & F2 & F3 & F4).
      split; [now rewrite L, accumulate_length|].
      split; [intros k Hk; rewrite K by lia; apply accumulate_other; lia|].
      split; [|repeat split; congruence].
      destruct outR as [o|]; destruct outR' as [o'|]; auto.
      destruct R as [LR KR].
      split; [now rewrite LR, accumulate_length|].
      intros k Hk. rewrite KR by lia. apply accumulate_other. lia. }
    destruct (Double.gtb (tailOff v) Double.zero).
    + destruct (Double.leb _ tailOff_floor).
      * now apply Hstop.
      * now apply Hemit.
    + now apply Hemit.
Qed.

(** X20.  [renderNextBlock], asked for a range of samples that lies in
    the output buffer, adds to the samples
    [startSample .. startSample + numSamples) of the first two output
    channels and writes nothing else: the other samples, the other
    channels and every length are as before, and the sound, the root
    note, the rate and the gain of the voice are untouched. *)
Theorem renderNextBlock_frame v out startSample numSamples :
  AudioBuffer.rectangular out ->
  0 <= startSample ->
  startSample + Z.max 0 numSamples <= AudioBuffer.getNumSamples out ->
  let v' := fst (renderNextBlock v out startSample numSamples) in
  let out' := snd (renderNextBlock v out startSample numSamples) in
  length out' = length out
  /\ (forall c, length (AudioBuffer.channel out' c) = length (AudioBuffer.channel out c))
  /\ (forall c k,
        (2 <= c)%nat \/ Z.of_nat k < startSample
        \/ startSample + Z.max 0 numSamples <= Z.of_nat k ->
        nth k (AudioBuffer.channel out' c) Float.zero
        = nth k (AudioBuffer.channel out c) Float.zero)
  /\ sampleBuffer v' = sampleBuffer v /\ rootNote v' = rootNote v
  /\ rate v' = rate v /\ level v' = level v.
Proof.
  intros _ Hstart _. cbv zeta. unfold renderNextBlock.
  destruct (sampleBuffer v) as [buf|] eqn:Ebuf; [|cbn [fst snd]; rewrite Ebuf; auto 8].
  destruct (AudioBuffer.getNumSamples buf <=? 0); [cbn [fst snd]; rewrite Ebuf; auto 8|].
  destruct out as [|outL rest]; [cbn [fst snd]; rewrite Ebuf; auto 8|].
  destruct (render _ _ _ _ _ _ _ _) as [[w outL'] outR'] eqn:E.
  apply render_frame in E; [|exact Hstart].
  destruct E as (L & K & R & F1 & F2 & F3 & F4). cbn [fst snd].
  assert (Hmax : Z.of_nat (Z.to_nat numSamples) = Z.max 0 numSamples) by lia.
  rewrite Hmax in K, R.
  split; [|split; [|split; [|rewrite <- Ebuf; auto]]].
  - destruct rest as [|o rest']; destruct outR' as [o'|]; cbn [length]; try reflexivity;
      contradiction.
  - intros [|[|c]]; unfold AudioBuffer.channel; cbn [nth].
    + exact L.
    + destruct rest as [|o rest']; destruct outR' as [o'|]; cbn [nth]; try reflexivity;
        try contradiction. apply R.
    + destruct rest as [|o rest']; destruct outR' as [o'|]; cbn [nth]; try reflexivity;
        contradiction.
  - intros [|[|c]] k Hk; unfold AudioBuffer.channel; cbn [nth].
    + apply K. lia.
    + destruct rest as [|o rest']; destruct outR' as [o'|]; cbn [nth]; try reflexivity;
        try contradiction. apply R. lia.
    + destruct rest as [|o rest']; destruct outR' as [o'|]; cbn [nth]; try reflexivity;
        contradiction.
Qed.

(** X21.  A second note-off does not start the release again: once
    [stopNote] with tail-off has run, a further one leaves the voice and
    the progress of its fade as they are; and a note-off without tail-off
    on top of any note-off leaves the voice free with gain 0. *)
Theorem stopNote_twice v velocity1 velocity2 (allowTailOff : bool) :
  stopNote (stopNote v velocity1 true) velocity2 true = stopNote v velocity1 true
  /\ currentlyPlayingNote (stopNote (stopNote v velocity1 allowTailOff) velocity2 false) = -1
  /\ level (stopNote (stopNote v velocity1 allowTailOff) velocity2 false) = Double.zero.
Proof.
  split; [|split; reflexivity].
  unfold stopNote. destruct (Double.eqb (tailOff v) Double.zero) eqn:E.
  - reflexivity.
  - now rewrite E.
Qed.
End VoiceFrame.

(** ** The editor's buttons and labels *)

Module ControlsFacts.
Import Processor Controls String.

Section WithHost.
Variable std_log2 : Float.t -> Float.t.
Variable MidiBuffer : Type.
Variable render :
  Synthesiser.t -> AudioBuffer.t -> MidiBuffer -> Z -> Z -> Synthesiser.t * AudioBuffer.t.
Variable getMidiNoteName : Z -> String.string.

(** X22.  The buttons the editor shows only lead forward.  A visible
    button is a duration button in the Recording state, which enters
    the Trimming state with the region [0, 1] and an empty histogram,
    or the preview or the done button in the Trimming state: the
    preview, when it returns, stays in the Trimming state with the
    preview on, and done enters the Sampling state.  In the Sampling
    state the editor shows no button and no slider. *)
Theorem visible_buttons_lead_forward p b p' :
  visible (state p) (Button b) = true ->
  buttonClicked std_log2 p b = Ok p' ->
  match state p, b with
  | Recording, (buffer10sButton | buffer30sButton | buffer60sButton) =>
      state p' = Trimming /\ startPosition p' = Float.zero
      /\ endPosition p' = Float.one /\ noteHistogram p' = []
  | Trimming, previewButton => state p' = Trimming /\ isPreviewActive p' = true
  | Trimming, doneButton => state p' = Sampling
  | _, _ => False
  end
  /\ (forall c, visible Sampling c = true -> c = samplerInfoLabel).
Proof.
  intros Hvis Hclick. split.
  - destruct (state p) eqn:Hst; destruct b; cbn [visible] in Hvis; try discriminate;
      cbn [buttonClicked] in Hclick.
    + injection Hclick as <-. repeat split.
    + injection Hclick as <-. repeat split.
    + injection Hclick as <-. repeat split.
    + unfold previewTrimmedSample in Hclick.
      apply (ProcessorFrame.detectPitch_frame std_log2) in Hclick.
      destruct Hclick as (E1 & _ & _ & _ & _ & _ & E2 & _).
      rewrite E1, E2. cbn [state isPreviewActive set_previewPosition set_isPreviewActive].
      split; [exact Hst | reflexivity].
    + injection Hclick as <-. reflexivity.
  - intros c. destruct c as [[]|[]| |]; cbn [visible]; intros H;
      try discriminate; reflexivity.
Qed.

Lemma reachable_notes p :
  Session.reachable std_log2 MidiBuffer render p -> Session.notes_in_range p.
Proof.
  intros Hr. induction Hr as [ring trimmed|p p' Hr IH Hstep].
  - split; [cbn; lia | constructor].
  - eapply SessionFacts.step_notes; eauto.
Qed.

(** X23.  The pitch label never reads "None": in every state a session
    can reach, [timerCallback] sets the label to "Detected Pitch: "
    followed by the name of the most common note, and the branch for a
    negative note is never taken. *)
Theorem pitch_label_names_a_note p :
  Session.reachable std_log2 MidiBuffer render p ->
  pitchText getMidiNoteName p
  = String.append "Detected Pitch: "%string (getMidiNoteName (getMostCommonNote p)).
Proof.
  intros Hr. apply reachable_notes in Hr. destruct Hr as [Hn _].
  unfold pitchText, getMostCommonNote.
  destruct (Z.leb_spec 0 (mostCommonNote p)); [reflexivity | lia].
Qed.

(** X24.  [noteFromFrequency] names the note that
    [midiNoteFromFrequency] returns: for a frequency above 0 and a note
    [n >= 0], the name is entry [n mod 12] of the twelve note names
    followed by the octave [n / 12 - 1] in decimal (69 is A4, 60 is C4).
    For a negative note that is no multiple of 12 the remainder of the
    truncating [%] is negative and the name is read before the start
    of the table.  A frequency of 0 or below gives
    "No pitch detected" and the note -1. *)
Theorem noteFromFrequency_names_note frequency :
  let n := PitchDetector.midiNoteFromFrequency std_log2 frequency in
  if Float.leb frequency Float.zero
  then noteFromFrequency std_log2 frequency = Some "No pitch detected"%string
       /\ n = -1
  else (0 <= n ->
        noteFromFrequency std_log2 frequency
        = Some (String.append (nth (Z.to_nat (n mod 12)) noteNames String.EmptyString)
                              (String_of_int (n / 12 - 1))))
       /\ (n < 0 -> n mod 12 <> 0 -> noteFromFrequency std_log2 frequency = None).
Proof.
  cbv zeta. unfold noteFromFrequency, PitchDetector.midiNoteFromFrequency.
  destruct (Float.leb frequency Float.zero); [split; reflexivity|].
  cbv zeta.
  set (n := roundToInt _). split.
  - intros Hn. rewrite Z.rem_mod_nonneg, Z.quot_div_nonneg by lia.
    pose proof (Z.mod_pos_bound n 12 ltac:(lia)).
    rewrite in_range_true by (cbn [List.length noteNames]; lia). reflexivity.
  - intros Hn Hm.
    assert (Hr : Z.rem n 12 < 0).
    { pose proof (Z.rem_bound_pos_neg n 12 ltac:(lia) ltac:(lia)).
      destruct (Z.eq_dec (Z.rem n 12) 0) as [E|E]; [|lia].
      exfalso. apply Hm. apply Z.rem_divide in E; [|lia].
      apply Z.mod_divide; [lia | exact E]. }
    unfold in_range. destruct (Z.leb_spec 0 (Z.rem n 12)); [lia | reflexivity].
Qed.
End WithHost.
End ControlsFacts.

(** ** Sums and products that need no rounding *)

Module Exact.
Import FloatOrder FloatRounding.

Lemma shr_1_even q :
  0 <= q ->
  shr_1 {| shr_m := 2 * q; shr_r := false; shr_s := false |}
  = {| shr_m := q; shr_r := false; shr_s := false |}.
Proof. intros H. destruct q as [|a|a]; [reflexivity | reflexivity | lia]. Qed.

(** Shifting out zeros leaves the location exact. *)
Lemma iter_shr_exact p : forall q,
  0 <= q ->
  iter_pos shr_1 p {| shr_m := q * 2 ^ Zpos p; shr_r := false; shr_s := false |}
  = {| shr_m := q; shr_r := false; shr_s := false |}.
Proof.
  induction p as [p IH|p IH|]; intros q Hq; cbn [iter_pos].
  - assert (HP : 0 < 2 ^ Zpos p) by (apply pow2_pos; lia).
    replace (q * 2 ^ Zpos p~1) with (2 * (q * 2 ^ Zpos p * 2 ^ Zpos p)).
    2:{ replace (Zpos p~1) with (1 + Zpos p + Zpos p) by lia.
        rewrite !Z.pow_add_r by lia. change (2 ^ 1) with 2. ring. }
    rewrite shr_1_even by nia. rewrite IH by nia. now apply IH.
  - assert (HP : 0 < 2 ^ Zpos p) by (apply pow2_pos; lia).
    replace (q * 2 ^ Zpos p~0) with (q * 2 ^ Zpos p * 2 ^ Zpos p).
    2:{ replace (Zpos p~0) with (Zpos p + Zpos p) by lia.
        rewrite !Z.pow_add_r by lia. ring. }
    rewrite IH by nia. now apply IH.
  - change (2 ^ 1) with 2. rewrite Z.mul_comm. now apply shr_1_even.
Qed.

(** A positive number times a power of two, as a positive number. *)
Lemma scaled_positive m k :
  0 <= k -> exists m', Zpos m' = Zpos m * 2 ^ k
                       /\ Zpos (digits2_pos m') = Zpos (digits2_pos m) + k.
Proof.
  intros Hk. destruct k as [|k|k]; [|clear Hk|lia].
  - exists m. split; [rewrite Z.mul_1_r; reflexivity | lia].
  - exists (Pos.iter xO m k). split; [apply iter_xO | apply digits_iter_xO].
Qed.

Lemma digits_scaled m m' k :
  0 <= k -> Zpos m' = Zpos m * 2 ^ k ->
  Zpos (digits2_pos m') = Zpos (digits2_pos m) + k.
Proof.
  intros Hk E. destruct (scaled_positive m k Hk) as (m2 & E2 & D2).
  assert (m' = m2) by (apply Pos2Z.inj; congruence). now subst m2.
Qed.

Section Format.
Variables prec emax : Z.

Lemma shr_fexp_same p e :
  fexp prec emax (Zpos (digits2_pos p) + e) <= e ->
  shr_fexp prec emax (Zpos p) e loc_Exact
  = ({| shr_m := Zpos p; shr_r := false; shr_s := false |}, e).
Proof.
  intros H. unfold shr_fexp, shr. cbn [Zdigits2 shr_record_of_loc].
  destruct (fexp prec emax (Zpos (digits2_pos p) + e) - e) eqn:E;
    try reflexivity; lia.
Qed.

Lemma shr_fexp_zeros m' m e k :
  Zpos m = Zpos m' * 2 ^ Zpos k ->
  fexp prec emax (Zpos (digits2_pos m) + e) - e = Zpos k ->
  shr_fexp prec emax (Zpos m) e loc_Exact
  = ({| shr_m := Zpos m'; shr_r := false; shr_s := false |}, e + Zpos k).
Proof.
  intros Em H. unfold shr_fexp, shr. cbn [Zdigits2 shr_record_of_loc].
  rewrite H, Em, iter_shr_exact by lia. reflexivity.
Qed.

(** A number in canonical form goes through [binary_round_aux]. *)
Lemma round_aux_same s p e :
  fexp prec emax (Zpos (digits2_pos p) + e) = e -> e <= emax - prec ->
  binary_round_aux prec emax s (Zpos p) e loc_Exact = S754_finite s p e.
Proof.
  intros Hc He. unfold binary_round_aux.
  rewrite shr_fexp_same by lia. cbn [shr_m loc_of_shr_record round_nearest_even].
  rewrite shr_fexp_same by lia. cbn [shr_m].
  destruct (Z.leb_spec e (emax - prec)); [reflexivity | lia].
Qed.

(** A number whose digits in excess are zeros loses them and no more. *)
Lemma round_aux_zeros s m' m e k :
  Zpos m = Zpos m' * 2 ^ Zpos k ->
  fexp prec emax (Zpos (digits2_pos m) + e) - e = Zpos k ->
  e + Zpos k <= emax - prec ->
  binary_round_aux prec emax s (Zpos m) e loc_Exact = S754_finite s m' (e + Zpos k).
Proof.
  intros Em Hk He. unfold binary_round_aux.
  rewrite (shr_fexp_zeros m' m e k Em Hk).
  cbn [shr_m loc_of_shr_record round_nearest_even].
  pose proof (digits_scaled m' m (Zpos k) ltac:(lia) Em) as Hd.
  rewrite shr_fexp_same.
  - cbn [shr_m]. destruct (Z.leb_spec (e + Zpos k) (emax - prec)); [reflexivity | lia].
  - replace (Zpos (digits2_pos m') + (e + Zpos k)) with (Zpos (digits2_pos m) + e) by lia.
    lia.
Qed.

(** [binary_round] of a number that the format holds: [M * 2^ez] is
    [K * 2^t] with [K] of at most [prec] digits and [t] in range. *)
Lemma binary_round_exact s M ez K t :
  ez <= t -> Zpos M = Zpos K * 2 ^ (t - ez) ->
  let fe := fexp prec emax (Zpos (digits2_pos K) + t) in
  fe <= t -> fe <= emax - prec ->
  exists m',
    binary_round prec emax s M ez = S754_finite s m' fe
    /\ Zpos m' = Zpos K * 2 ^ (t - fe)
    /\ bounded prec emax m' fe = true.
Proof.
  intros Ht EM fe Hfe Hmax.
  pose proof (digits_scaled K M (t - ez) ltac:(lia) EM) as HdM.
  destruct (scaled_positive K (t - fe) ltac:(lia)) as (m' & Em' & Hd').
  assert (Hcanon : fexp prec emax (Zpos (digits2_pos m') + fe) = fe).
  { replace (Zpos (digits2_pos m') + fe) with (Zpos (digits2_pos K) + t) by lia.
    reflexivity. }
  exists m'. split; [|split; [exact Em'|]].
  2:{ unfold bounded, canonical_mantissa. rewrite Hcanon, Z.eqb_refl.
      apply Z.leb_le. exact Hmax. }
  unfold binary_round.
  replace (Zpos (digits2_pos M) + ez) with (Zpos (digits2_pos K) + t) by lia.
  fold fe. unfold shl_align.
  destruct (fe - ez) as [|k|k] eqn:Ek.
  - (* already aligned *)
    assert (fe = ez) by lia. subst ez.
    assert (M = m') by (apply Pos2Z.inj; congruence). subst M.
    now apply round_aux_same.
  - (* digits in excess, all zeros *)
    replace fe with (ez + Zpos k) by lia.
    apply round_aux_zeros; try lia.
    + rewrite EM, Em'. replace (t - ez) with (t - fe + Zpos k) by lia.
      rewrite Z.pow_add_r by lia. ring.
    + replace (Zpos (digits2_pos M) + ez) with (Zpos (digits2_pos K) + t) by lia.
      fold fe. lia.
  - (* room below: the mantissa is shifted left *)
    assert (Pos.iter xO M k = m').
    { apply Pos2Z.inj. rewrite iter_xO, EM, Em'.
      replace (t - fe) with (t - ez + Zpos k) by lia.
      rewrite Z.pow_add_r by lia. ring. }
    rewrite H. now apply round_aux_same.
Qed.
End Format.
End Exact.

(** ** The trim region in samples *)

Module RegionOffsets.
Import FloatOrder FloatRounding Processor.

(** An [int] of fewer than 25 bits converts to [float] without rounding. *)
Lemma of_int_exact N :
  0 < N < 2 ^ 24 ->
  exists m e,
    Float.of_int N = S754_finite false m e /\ e <= 0 /\ Zpos m = N * 2 ^ (- e)
    /\ bounded Float.prec Float.emax m e = true.
Proof.
  intros HN. destruct N as [|n|n]; try lia.
  unfold Float.of_int. cbn [binary_normalize].
  pose proof (digits_le n 24 ltac:(lia) ltac:(lia)) as Hd.
  destruct (Exact.binary_round_exact Float.prec Float.emax false n 0 n 0)
    as (m' & E & Em & Hb); try lia.
  - rewrite fexp_eq. lia.
  - rewrite fexp_eq. change (Float.emax - Float.prec) with 104. lia.
  - exists m', (fexp Float.prec Float.emax (Zpos (digits2_pos n) + 0)).
    rewrite fexp_eq in *. repeat split; try assumption; try lia.
Qed.

(** [roundToInt] of a [float] that is a whole number. *)
Lemma roundToInt_exact s m e N :
  e <= 0 -> Zpos m = N * 2 ^ (- e) -> roundToInt (S754_finite s m e) = cond_Zopp s N.
Proof.
  intros He Em. unfold roundToInt. f_equal.
  destruct (Z.leb_spec 0 e) as [H0|Hneg].
  - assert (e = 0) by lia. subst e. rewrite Z.shiftl_0_r, Em. cbn. lia.
  - unfold round_half_even.
    assert (HP : 0 < 2 ^ (- e)) by (apply pow2_pos; lia).
    rewrite Z.shiftr_div_pow2, Em, Z.div_mul by lia.
    rewrite !Z.shiftl_mul_pow2, Z.sub_diag by lia.
    pose proof (pow2_pos (- e - 1) ltac:(lia)).
    destruct (Z.ltb_spec 0 (1 * 2 ^ (- e - 1))); [reflexivity | lia].
Qed.

(** 1.0f times a number in canonical form is that number. *)
Lemma mul_one s m e :
  bounded Float.prec Float.emax m e = true ->
  Float.mul Float.one (S754_finite s m e) = S754_finite s m e.
Proof.
  intros Hb. pose proof (bounded_spec m e Hb) as (He & _ & _).
  unfold bounded, canonical_mantissa in Hb. apply andb_prop in Hb.
  destruct Hb as [Hc _]. apply Z.eqb_eq in Hc.
  change Float.one with (S754_finite false 8388608 (-23)).
  unfold Float.mul. cbn [SFmul xorb].
  assert (Em : Zpos (8388608 * m) = Zpos m * 2 ^ Zpos 23)
    by (rewrite Pos2Z.inj_mul; change (2 ^ Zpos 23) with 8388608; lia).
  pose proof (Exact.digits_scaled m (8388608 * m) 23 ltac:(lia) Em) as Hd.
  rewrite (Exact.round_aux_zeros Float.prec Float.emax s m (8388608 * m) (-23 + e) 23 Em).
  - f_equal. lia.
  - replace (Zpos (digits2_pos (8388608 * m)) + (-23 + e))
      with (Zpos (digits2_pos m) + e) by lia.
    rewrite Hc. lia.
  - change (Float.emax - Float.prec) with 104. lia.
Qed.

(** The offsets of the whole region [0, 1] of a buffer of [N] samples
    are 0 and [N]. *)
Lemma sampleOffset_whole N :
  0 <= N < 2 ^ 24 -> sampleOffset Float.zero N = 0 /\ sampleOffset Float.one N = N.
Proof.
  intros HN. destruct (Z.eq_dec N 0) as [->|Hne]; [split; reflexivity|].
  destruct (of_int_exact N ltac:(lia)) as (m & e & E & He & Em & Hb).
  unfold sampleOffset. rewrite E. split; [reflexivity|].
  rewrite mul_one by exact Hb. now apply (roundToInt_exact false m e N).
Qed.

Lemma slice_all chan N :
  Z.of_nat (length chan) = N -> slice chan 0 (N - 0) = chan.
Proof.
  intros H. unfold slice. cbn [Z.to_nat skipn]. apply firstn_all2. lia.
Qed.

Lemma enterSamplerMode_whole p :
  startPosition p = Float.zero -> endPosition p = Float.one ->
  AudioBuffer.rectangular (trimmedBuffer p) ->
  AudioBuffer.getNumSamples (trimmedBuffer p) < 2 ^ 24 ->
  Synthesiser.sounds (sampler (enterSamplerMode p))
  = [Buffered {| soundBuffer := trimmedBuffer p; soundRootNote := mostCommonNote p |}].
Proof.
  intros Hs He Hrect HN. unfold enterSamplerMode.
  cbn [sampler set_state set_sampler Synthesiser.sounds].
  rewrite Hs, He.
  destruct (sampleOffset_whole (AudioBuffer.getNumSamples (trimmedBuffer p))) as [-> ->].
  { split; [unfold AudioBuffer.getNumSamples; lia | exact HN]. }
  do 3 f_equal.
  transitivity (map (fun chan : list spec_float => chan) (trimmedBuffer p));
    [|apply map_id].
  apply map_ext_in. intros chan Hin. apply slice_all.
  unfold AudioBuffer.rectangular in Hrect. rewrite Forall_forall in Hrect. now apply Hrect.
Qed.

Lemma copy_channels_lengths size readPos n N : forall ring dest,
  Forall (fun ch => length ch = N) dest ->
  Forall (fun ch => length ch = N) (CircularAudioBuffer.copy_channels size readPos n ring dest).
Proof.
  induction ring as [|chan ring IH]; intros [|d dest] H;
    cbn [CircularAudioBuffer.copy_channels]; auto.
  inversion H; subst. constructor.
  - apply RingWindow.copy_channel_length.
  - now apply IH.
Qed.

(** X25.  Done straight after a duration button: with the region left at
    [0, 1], [enterSamplerMode] takes the whole trimmed buffer, every
    channel from its first to its last sample, as the sampler's one
    sound, with the most common note as its root note.  The offsets
    round(0.0f * N) and round(1.0f * N) are exactly 0 and N for a buffer
    of fewer than 2^24 samples. *)
Theorem done_without_trimming p :
  let q := enterTrimMode p in
  AudioBuffer.getNumSamples (trimmedBuffer q) < 2 ^ 24 ->
  state (enterSamplerMode q) = Sampling
  /\ Synthesiser.sounds (sampler (enterSamplerMode q))
     = [Buffered {| soundBuffer := trimmedBuffer q; soundRootNote := mostCommonNote p |}]
  /\ Synthesiser.voices (sampler (enterSamplerMode q)) = Synthesiser.voices (sampler p).
Proof.
  intros q HN. split; [reflexivity|]. split; [|reflexivity].
  rewrite enterSamplerMode_whole; try reflexivity; try exact HN.
  unfold q, enterTrimMode.
  cbn [trimmedBuffer set_noteHistogram set_endPosition set_startPosition
       set_trimmedBuffer set_state].
  set (N := roundToInt _ - 0).
  unfold CircularAudioBuffer.copyTo. cbv zeta.
  set (b := CircularAudioBuffer.copy_channels _ _ _ _ _).
  assert (HF : Forall (fun ch => length ch = Z.to_nat N) b).
  { apply copy_channels_lengths. unfold AudioBuffer.zeros.
    apply Forall_forall. intros ch Hin. apply repeat_spec in Hin. subst ch.
    apply repeat_length. }
  clearbody b. unfold AudioBuffer.rectangular, AudioBuffer.getNumSamples.
  destruct b as [|ch0 rest]; [constructor|].
  cbn [hd]. rewrite Forall_forall in *. intros ch Hin.
  now rewrite (HF ch Hin), (HF ch0 (or_introl eq_refl)).
Qed.

(** X26.  Before [prepareToPlay] there is no detector.  The processor is
    constructed with the whole region [0, 1] over a trimmed buffer of
    48000 * 60 samples: an analysis then reads its first chunk and calls
    [detectPitch] through the null [pitchDetector], from [detectPitch] and
    from [previewTrimmedSample] alike.  The same holds for any buffer of
    2048 to 2^24 samples. *)
Theorem detectPitch_without_detector std_log2 p :
  pitchDetector p = None ->
  startPosition p = Float.zero -> endPosition p = Float.one ->
  2048 <= AudioBuffer.getNumSamples (trimmedBuffer p) < 2 ^ 24 ->
  detectPitch std_log2 p = Fault NullPointer
  /\ previewTrimmedSample std_log2 p = Fault NullPointer.
Proof.
  intros Hpd Hs He HN.
  assert (H : forall q, pitchDetector q = None -> startPosition q = Float.zero ->
            endPosition q = Float.one -> trimmedBuffer q = trimmedBuffer p ->
            detectPitch std_log2 q = Fault NullPointer).
  { intros q Hq Hqs Hqe Hqb. unfold detectPitch. rewrite Hqb, Hqs, Hqe, Hq.
    set (N := AudioBuffer.getNumSamples (trimmedBuffer p)) in *.
    destruct (Z.eqb_spec N 0) as [E|_]; [lia|].
    destruct (sampleOffset_whole N ltac:(lia)) as [-> ->].
    rewrite Z.sub_0_r.
    assert (Hq1 : 1 <= Z.quot N chunkSize).
    { unfold chunkSize. rewrite Z.quot_div_nonneg by lia.
      apply Z.div_le_lower_bound; lia. }
    destruct (Z.to_nat (Z.quot N chunkSize)) as [|n] eqn:En; [lia|].
    cbn [analyse_chunks]. unfold chunkSize.
    rewrite (AnalysisFacts.read_chunk_slice _ (0 + 0 * 2048) (Z.to_nat 2048) 0 []).
    - reflexivity.
    - lia.
    - unfold N, AudioBuffer.getNumSamples, AudioBuffer.channel in *.
      rewrite <- PreviewFacts.hd_nth. lia. }
  split.
  - now apply H.
  - unfold previewTrimmedSample. now apply H.
Qed.
End RegionOffsets.

(** ** The read position of a voice *)

Module PositionSteps.
Import FloatOrder FloatRounding Release.

Lemma fexp64 z : fexp Double.prec Double.emax z = Z.max (z - 53) (-1074).
Proof. reflexivity. Qed.

Lemma shl_align_scaled m e e' :
  e' <= e -> Zpos (fst (shl_align m e e')) = Zpos m * 2 ^ (e - e').
Proof.
  intros H. unfold shl_align. destruct (e' - e) as [|d|d] eqn:E; try lia; cbn [fst].
  - replace (e - e') with 0 by lia. lia.
  - rewrite iter_xO. do 2 f_equal. lia.
Qed.

(** An [int] below 2^53 converts to [double] without rounding. *)
Lemma of_int_double N :
  0 < N < 2 ^ 53 ->
  exists m e,
    Double.of_int N = S754_finite false m e /\ e <= 0 /\ Zpos m = N * 2 ^ (- e).
Proof.
  intros HN. destruct N as [|n|n]; try lia.
  unfold Double.of_int. cbn [binary_normalize].
  pose proof (digits_le n 53 ltac:(lia) ltac:(lia)) as Hd.
  destruct (Exact.binary_round_exact Double.prec Double.emax false n 0 n 0)
    as (m' & E & Em & _); try lia.
  - rewrite fexp64. lia.
  - rewrite fexp64. change (Double.emax - Double.prec) with 971. lia.
  - exists m', (fexp Double.prec Double.emax (Zpos (digits2_pos n) + 0)).
    rewrite fexp64 in *. repeat split; try assumption; try lia.
Qed.

(** A whole number plus a number of halves [c / 2], both in [double]:
    the sum is exact. *)
Lemma add_halves pos mx ex my ey c :
  0 < pos -> ex <= 0 -> Zpos mx = pos * 2 ^ (- ex) ->
  0 < c -> ey <= -1 -> Zpos my = c * 2 ^ (-1 - ey) ->
  2 * pos + c < 2 ^ 53 ->
  exists m e,
    Double.add (S754_finite false mx ex) (S754_finite false my ey) = S754_finite false m e
    /\ e <= -1 /\ Zpos m = (2 * pos + c) * 2 ^ (-1 - e).
Proof.
  intros Hpos Hex Emx Hc Hey Emy Hsum.
  unfold Double.add, SFadd. cbv zeta. cbn [cond_Zopp].
  set (ez := Z.min ex ey).
  pose proof (shl_align_scaled mx ex ez ltac:(lia)) as Ea.
  pose proof (shl_align_scaled my ey ez ltac:(lia)) as Eb.
  cbn [Z.add binary_normalize].
  destruct (2 * pos + c) as [|k|k] eqn:Ek; try lia.
  pose proof (digits_le k 53 ltac:(lia) ltac:(lia)) as Hd.
  destruct (Exact.binary_round_exact Double.prec Double.emax false
              (fst (shl_align mx ex ez) + fst (shl_align my ey ez)) ez k (-1))
    as (m' & E & Em & _).
  - unfold ez. lia.
  - rewrite Pos2Z.inj_add, Ea, Eb, Emx, Emy, <- Ek.
    assert (Hez : ez <= ex /\ ez <= ey) by (unfold ez; lia).
    assert (H1 : 2 ^ (- ex) * 2 ^ (ex - ez) = 2 * 2 ^ (-1 - ez)).
    { rewrite <- Z.pow_add_r by lia.
      replace (- ex + (ex - ez)) with (1 + (-1 - ez)) by lia.
      rewrite Z.pow_add_r by lia. reflexivity. }
    assert (H2 : 2 ^ (-1 - ey) * 2 ^ (ey - ez) = 2 ^ (-1 - ez)).
    { rewrite <- Z.pow_add_r by lia. f_equal. lia. }
    rewrite <- !Z.mul_assoc, H1, H2. ring.
  - rewrite fexp64. lia.
  - rewrite fexp64. change (Double.emax - Double.prec) with 971. lia.
  - exists m', (fexp Double.prec Double.emax (Zpos (digits2_pos k) + -1)).
    rewrite fexp64 in *. split; [exact E|]. split; [lia|]. exact Em.
Qed.

(** [static_cast<int>] of a [double] that is a number of halves. *)
Lemma to_int_halves m e K :
  e <= -1 -> Zpos m = K * 2 ^ (-1 - e) -> Double.to_int (S754_finite false m e) = K / 2.
Proof.
  intros He Em. unfold Double.to_int. cbn [cond_Zopp].
  destruct (Z.leb_spec 0 e); [lia|].
  rewrite Z.shiftr_div_pow2, Em by lia.
  replace (- e) with (1 + (-1 - e)) by lia.
  rewrite Z.pow_add_r by lia. change (2 ^ 1) with 2.
  apply Z.div_mul_cancel_r; [lia|]. apply Z.pow_nonzero; lia.
Qed.

(** [sourceSamplePosition += rate] with a rate of [c] halves. *)
Lemma step_halves my ey c pos :
  0 < c -> ey <= -1 -> Zpos my = c * 2 ^ (-1 - ey) ->
  0 <= pos -> 2 * pos + c < 2 ^ 53 ->
  step_position (S754_finite false my ey) pos = (2 * pos + c) / 2.
Proof.
  intros Hc Hey Emy Hpos Hsum. unfold step_position.
  destruct (Z.eq_dec pos 0) as [->|Hne].
  - change (Double.of_int 0) with (S754_zero false).
    unfold Double.add. cbn [SFadd]. now apply to_int_halves.
  - destruct (of_int_double pos) as (mx & ex & -> & Hex & Emx); [lia|].
    destruct (add_halves pos mx ex my ey c) as (m & e & -> & He & Em); try lia.
    now apply to_int_halves.
Qed.
End PositionSteps.

(** ** A sustained voice *)

Module SustainedVoice.
Import Voice Release.

Lemma with_release_twice v t p1 p2 :
  with_release (with_release v t p1) t p2 = with_release v t p2.
Proof. reflexivity. Qed.

(** With no release under way the loop puts out one sample per iteration
    and moves the read position by [sourceSamplePosition += rate], as long
    as the position is inside the sample data. *)
Lemma render_sustained inL inR bufferSize : forall n m v i outL outR,
  Double.gtb (tailOff v) Double.zero = false ->
  inside bufferSize (rate v) (sourceSamplePosition v) n = true ->
  exists outL' outR',
    render inL inR bufferSize (n + m) v i outL outR
    = render inL inR bufferSize m
        (with_release v (tailOff v) (position (rate v) (sourceSamplePosition v) n))
        (i + Z.of_nat n) outL' outR'.
Proof.
  induction n as [|n IH]; intros m v i outL outR Ht Hin.
  - exists outL, outR. cbn [Nat.add position].
    rewrite VoiceFacts.with_release_same, Z.add_0_r. reflexivity.
  - cbn [inside] in Hin. apply andb_prop in Hin. destruct Hin as [Hpos Hin].
    apply Z.ltb_lt in Hpos. cbn [Nat.add render].
    destruct (Z.leb_spec bufferSize (sourceSamplePosition v)) as [Hb|_]; [lia|].
    rewrite Ht.
    match goal with
    | |- exists _ _, render _ _ _ _ ?v1 _ ?o1 ?o2 = _ =>
        destruct (IH m v1 (i + 1) o1 o2) as (outL' & outR' & E)
    end.
    + exact Ht.
    + exact Hin.
    + exists outL', outR'. rewrite E. cbn [rate sourceSamplePosition tailOff position].
      unfold with_release.
      cbn [level rootNote sampleBuffer rate currentlyPlayingNote tailOff].
      replace (i + 1 + Z.of_nat n) with (i + Z.of_nat (S n)) by lia.
      reflexivity.
Qed.

Lemma half_rate : Double.lit 1 2 = S754_finite false 4503599627370496 (-53).
Proof. reflexivity. Qed.

Lemma unit_rate : Double.one = S754_finite false 4503599627370496 (-52).
Proof. reflexivity. Qed.

Lemma position_half : forall k pos,
  0 <= pos < 2 ^ 52 -> position (Double.lit 1 2) pos k = pos.
Proof.
  induction k as [|k IH]; intros pos Hpos; cbn [position]; [reflexivity|].
  rewrite half_rate, (PositionSteps.step_halves _ _ 1) by (try reflexivity; lia).
  rewrite <- half_rate.
  replace ((2 * pos + 1) / 2) with pos; [now apply IH|].
  rewrite (Z.mul_comm 2 pos), Z.div_add_l by lia. change (1 / 2) with 0. lia.
Qed.

Lemma position_unit : forall k pos,
  0 <= pos -> pos + Z.of_nat k < 2 ^ 52 ->
  position Double.one pos k = pos + Z.of_nat k.
Proof.
  induction k as [|k IH]; intros pos Hpos Hk; cbn [position]; [lia|].
  rewrite unit_rate, (PositionSteps.step_halves _ _ 2) by (try reflexivity; lia).
  rewrite <- unit_rate.
  replace ((2 * pos + 2) / 2) with (pos + 1).
  - rewrite IH by lia. lia.
  - replace (2 * pos + 2) with ((pos + 1) * 2) by lia. now rewrite Z.div_mul by lia.
Qed.

Lemma inside_half bufferSize : forall n pos,
  0 <= pos < 2 ^ 52 -> pos < bufferSize ->
  inside bufferSize (Double.lit 1 2) pos n = true.
Proof.
  induction n as [|n IH]; intros pos Hpos Hb; cbn [inside]; [reflexivity|].
  pose proof (position_half 1 pos Hpos) as E. cbn [position] in E. rewrite E.
  rewrite IH by assumption. apply andb_true_intro. split; [apply Z.ltb_lt; lia | reflexivity].
Qed.

Lemma inside_unit bufferSize : forall n pos,
  0 <= pos -> pos + Z.of_nat n <= bufferSize -> bufferSize < 2 ^ 52 ->
  inside bufferSize Double.one pos n = true.
Proof.
  induction n as [|n IH]; intros pos Hpos Hn Hb; cbn [inside]; [reflexivity|].
  pose proof (position_unit 1 pos Hpos ltac:(lia)) as E. cbn [position] in E. rewrite E.
  rewrite IH by lia. apply andb_true_intro. split; [apply Z.ltb_lt; lia | reflexivity].
Qed.

(** X27.  A note an octave below the root never moves through the
    sound, whatever range of the output buffer is rendered.  Its rate is 0.5 and the read position is an [int]:
    [sourceSamplePosition += rate] adds 0.5 and truncates back, so after
    any number of rendered samples the position is where it was and the
    voice is still playing; it ends only by a note-off. *)
Theorem half_rate_never_advances v buf out startSample numSamples :
  AudioBuffer.rectangular out ->
  0 <= startSample ->
  startSample + Z.max 0 numSamples <= AudioBuffer.getNumSamples out ->
  sampleBuffer v = Some buf -> rate v = Double.lit 1 2 ->
  Double.gtb (tailOff v) Double.zero = false ->
  0 <= sourceSamplePosition v < AudioBuffer.getNumSamples buf ->
  sourceSamplePosition v < 2 ^ 52 ->
  let v' := fst (renderNextBlock v out startSample numSamples) in
  sourceSamplePosition v' = sourceSamplePosition v
  /\ currentlyPlayingNote v' = currentlyPlayingNote v
  /\ tailOff v' = tailOff v.
Proof.
  intros _ _ _ Hbuf Hrate Ht Hpos Hmax. cbv zeta. unfold renderNextBlock. rewrite Hbuf.
  destruct (Z.leb_spec (AudioBuffer.getNumSamples buf) 0); [lia|].
  destruct out as [|outL rest]; [cbn [fst]; auto|].
  match goal with |- context [render ?a ?b ?c ?n v ?i ?oL ?oR] =>
    destruct (render_sustained a b c n 0 v i oL oR Ht) as (oL' & oR' & E) end.
  { rewrite Hrate. apply inside_half; lia. }
  rewrite Nat.add_0_r in E. rewrite E. cbn [render fst with_release].
  cbn [sourceSamplePosition currentlyPlayingNote tailOff].
  rewrite Hrate, position_half by lia. auto.
Qed.

(** X28.  At the root note the rate is 1.0 and the voice reads one
    sample of the sound per output sample: after [numSamples] samples
    that fit in what is left of the sound the position has moved by
    [numSamples] and the voice still plays; asked for more, it plays to
    the end of the sound, frees itself there and stops. *)
Theorem unit_rate_plays_through v buf out startSample numSamples :
  AudioBuffer.rectangular out ->
  0 <= startSample ->
  startSample + numSamples <= AudioBuffer.getNumSamples out ->
  sampleBuffer v = Some buf -> rate v = Double.one ->
  Double.gtb (tailOff v) Double.zero = false ->
  out <> [] ->
  0 <= sourceSamplePosition v <= AudioBuffer.getNumSamples buf ->
  0 < AudioBuffer.getNumSamples buf < 2 ^ 52 ->
  0 <= numSamples ->
  let v' := fst (renderNextBlock v out startSample numSamples) in
  let left := AudioBuffer.getNumSamples buf - sourceSamplePosition v in
  (numSamples <= left ->
     sourceSamplePosition v' = sourceSamplePosition v + numSamples
     /\ currentlyPlayingNote v' = currentlyPlayingNote v)
  /\ (left < numSamples ->
      sourceSamplePosition v' = AudioBuffer.getNumSamples buf
      /\ currentlyPlayingNote v' = -1).
Proof.
  intros _ _ _ Hbuf Hrate Ht Hout Hpos Hsize Hn. cbv zeta. unfold renderNextBlock.
  rewrite Hbuf.
  destruct (Z.leb_spec (AudioBuffer.getNumSamples buf) 0); [lia|].
  destruct out as [|outL rest]; [congruence|].
  set (bufferSize := AudioBuffer.getNumSamples buf) in *.
  split; intros Hfit.
  - match goal with |- context [render ?a ?b ?c ?n v ?i ?oL ?oR] =>
      destruct (render_sustained a b c n 0 v i oL oR Ht) as (oL' & oR' & E) end.
    { rewrite Hrate. apply inside_unit; lia. }
    rewrite Nat.add_0_r in E. rewrite E. cbn [render fst]. unfold with_release.
    cbn [sourceSamplePosition currentlyPlayingNote].
    rewrite Hrate, position_unit by lia. split; [lia | reflexivity].
  - replace (Z.to_nat numSamples)
      with (Z.to_nat (bufferSize - sourceSamplePosition v)
            + S (Z.to_nat (numSamples - (bufferSize - sourceSamplePosition v) - 1)))%nat
      by lia.
    match goal with |- context [render ?a ?b ?c (?n + ?m) v ?i ?oL ?oR] =>
      destruct (render_sustained a b c n m v i oL oR Ht) as (oL' & oR' & E) end.
    { rewrite Hrate. apply inside_unit; lia. }
    rewrite E. rewrite Hrate, position_unit by lia.
    unfold with_release. cbn [render sourceSamplePosition].
    destruct (Z.leb_spec bufferSize
                (sourceSamplePosition v
                 + Z.of_nat (Z.to_nat (bufferSize - sourceSamplePosition v)))); [|lia].
    cbn [fst clearCurrentNote sourceSamplePosition currentlyPlayingNote].
    split; [lia | reflexivity].
Qed.
End SustainedVoice.

(** ** The analysis at its edges *)

Module AnalysisEdges.
Import Processor.

Section WithLog2.
Variable std_log2 : Float.t -> Float.t.

(** X29.  A trim region shorter than one chunk of 2048 samples is not
    analysed: [detectPitch] reads no sample and needs no detector, the
    histogram stays as it is, and with an empty histogram
    [mostCommonNote] keeps its value. *)
Theorem detectPitch_short_region p :
  let total := AudioBuffer.getNumSamples (trimmedBuffer p) in
  let startSample := sampleOffset (startPosition p) total in
  let endSample := sampleOffset (endPosition p) total in
  - 2048 < endSample - startSample < 2048 ->
  exists p',
    detectPitch std_log2 p = Ok p'
    /\ noteHistogram p' = noteHistogram p
    /\ pitchDetector p' = pitchDetector p
    /\ (noteHistogram p = [] -> mostCommonNote p' = mostCommonNote p)
    /\ trimmedBuffer p' = trimmedBuffer p.
Proof.
  intros total startSample endSample Hlen. unfold detectPitch.
  fold total. fold startSample. fold endSample.
  destruct (Z.eqb_spec total 0) as [E|_].
  - exists p. repeat split.
  - assert (Hq : Z.quot (endSample - startSample) chunkSize = 0).
    { unfold chunkSize. apply Z.quot_small_iff; [lia|]. lia. }
    rewrite Hq. cbn [Z.to_nat analyse_chunks bind].
    destruct (most_common (noteHistogram p) 0 (mostCommonNote p)) as [mc note] eqn:Em.
    eexists. split; [reflexivity|].
    cbn [noteHistogram mostCommonNote pitchDetector trimmedBuffer set_mostCommonNote
         set_noteHistogram set_pitchDetector snd].
    repeat split. intros Hnil. rewrite Hnil in Em. cbn in Em. congruence.
Qed.
End WithLog2.
End AnalysisEdges.
(** ** Analysing the same region again *)

Module SecondPass.
Import Processor Analysis Detectors.

Lemma store_length {A} a (l : list A) i x l' : store a l i x = Ok l' -> length l' = length l.
Proof.
  unfold store. destruct (in_range i l); [|discriminate].
  intros [= <-]. apply set_nth_length.
Qed.

Lemma differences_length buffer : forall n tau yin yin',
  PitchDetector.differences buffer n tau yin = Ok yin' -> length yin' = length yin.
Proof.
  induction n as [|n IH]; intros tau yin yin'; cbn [PitchDetector.differences].
  - now intros [= <-].
  - destruct (PitchDetector.difference _ _ _ _ _) as [d|]; cbn [bind]; [|discriminate].
    destruct (store YinBuffer yin tau d) as [yin1|] eqn:E; cbn [bind]; [|discriminate].
    intros H. apply IH in H. apply store_length in E. congruence.
Qed.

Lemma normalise_length : forall n tau sum yin yin',
  PitchDetector.normalise n tau sum yin = Ok yin' -> length yin' = length yin.
Proof.
  induction n as [|n IH]; intros tau sum yin yin'; cbn [PitchDetector.normalise].
  - now intros [= <-].
  - destruct (read YinBuffer Float.zero yin tau) as [y|]; cbn [bind]; [|discriminate].
    destruct (store YinBuffer yin tau _) as [yin1|] eqn:E; cbn [bind]; [|discriminate].
    intros H. apply IH in H. apply store_length in E. congruence.
Qed.

Lemma detectPitch_alike pd buffer size_arg frequency pd' :
  PitchDetector.detectPitch pd buffer size_arg = Ok (frequency, pd') -> alike pd pd'.
Proof.
  unfold PitchDetector.detectPitch.
  destruct (PitchDetector.differences _ _ _ _) as [yin1|] eqn:E1; cbn [bind]; [|discriminate].
  destruct (store YinBuffer yin1 0 Float.one) as [yin2|] eqn:E2; cbn [bind]; [|discriminate].
  destruct (PitchDetector.normalise _ _ _ _) as [yin3|] eqn:E3; cbn [bind]; [|discriminate].
  destruct (PitchDetector.scan _ _ _ _) as [r|]; cbn [bind]; [|discriminate].
  apply differences_length in E1. apply store_length in E2. apply normalise_length in E3.
  intros H. assert (pd' = {| PitchDetector.sampleRate := PitchDetector.sampleRate pd;
                            PitchDetector.bufferSize := PitchDetector.bufferSize pd;
                            PitchDetector.yinBuffer := yin3 |})
    by (destruct r; congruence).
  subst pd'. unfold alike. cbn. repeat split. congruence.
Qed.

Lemma detectPitch_same pd1 pd2 buffer size_arg :
  alike pd1 pd2 ->
  PitchDetector.detectPitch pd1 buffer size_arg
  = PitchDetector.detectPitch pd2 buffer size_arg.
Proof.
  intros (Hr & Hb & Hl). unfold PitchDetector.detectPitch.
  pose proof (PitchDetectorFrames.differences_overwrite buffer
                (PitchDetector.yinBuffer pd1) (PitchDetector.yinBuffer pd2) [] 0 Hl eq_refl)
    as E.
  cbn [app] in E. rewrite E, Hr, Hb, Hl. reflexivity.
Qed.

Section WithLog2.
Variable std_log2 : Float.t -> Float.t.

(** The notes of a list of chunks do not depend on what the detector
    went through before. *)
Lemma estimate_notes_again : forall chunks pd1 pd2 notes r1,
  alike pd1 pd2 ->
  estimate_notes std_log2 (Some pd1) chunks = Ok (notes, r1) ->
  exists pd1' pd2',
    r1 = Some pd1'
    /\ estimate_notes std_log2 (Some pd2) chunks = Ok (notes, Some pd2')
    /\ alike pd1' pd2' /\ alike pd1 pd1'.
Proof.
  induction chunks as [|chunk rest IH]; intros pd1 pd2 notes r1 Hal;
    cbn [estimate_notes].
  - intros [= <- <-]. exists pd1, pd2. repeat split; try apply Hal; reflexivity.
  - rewrite <- (detectPitch_same pd1 pd2 chunk 2048 Hal).
    destruct (PitchDetector.detectPitch pd1 chunk 2048) as [[f d]|] eqn:E;
      cbn [bind]; [|discriminate].
    destruct (estimate_notes std_log2 (Some d) rest) as [[ns r]|] eqn:E';
      cbn [bind]; [|discriminate].
    intros [= <- <-].
    assert (Hd : alike d d) by (repeat split).
    destruct (IH d d ns r Hd E') as (d1 & d2 & -> & E2 & H12 & Hdd).
    rewrite E' in E2. injection E2 as <-.
    exists d1, d1. repeat split; try reflexivity.
    all: apply detectPitch_alike in E; destruct E as (A1 & A2 & A3);
      destruct Hdd as (B1 & B2 & B3); congruence.
Qed.

(** The chunks of the trim region, as [detectPitch] cuts them. *)
Lemma detectPitch_pass p :
  let total := AudioBuffer.getNumSamples (trimmedBuffer p) in
  let startSample := sampleOffset (startPosition p) total in
  let endSample := sampleOffset (endPosition p) total in
  total <> 0 -> 0 <= startSample <= endSample -> endSample <= total ->
  detectPitch std_log2 p
  = match estimate_notes std_log2 (pitchDetector p)
            (map (fun k => slice (AudioBuffer.channel (trimmedBuffer p) 0)
                             (startSample + (0 + Z.of_nat k) * 2048) 2048)
                 (seq 0 (Z.to_nat ((endSample - startSample) / 2048)))) with
    | Ok (notes, pd') =>
        Ok (set_mostCommonNote
              (snd (most_common (tally notes (noteHistogram p)) 0 (mostCommonNote p)))
              (set_noteHistogram (tally notes (noteHistogram p))
                 (set_pitchDetector pd' p)))
    | Fault f => Fault f
    end.
Proof.
  intros total startSample endSample Htotal Hwin Hend.
  assert (Hchan : Z.of_nat (length (AudioBuffer.channel (trimmedBuffer p) 0)) = total).
  { unfold total, AudioBuffer.getNumSamples, AudioBuffer.channel.
    now rewrite PreviewFacts.hd_nth. }
  pose proof (Z.mul_div_le (endSample - startSample) 2048 ltac:(lia)) as Hdiv.
  pose proof (Z.div_pos (endSample - startSample) 2048 ltac:(lia) ltac:(lia)) as Hn0.
  assert (Hq : Z.quot (endSample - startSample) chunkSize
               = (endSample - startSample) / 2048).
  { unfold chunkSize. apply Z.quot_div_nonneg; lia. }
  unfold detectPitch. fold total. fold startSample. fold endSample.
  destruct (Z.eqb_spec total 0) as [E|_]; [contradiction|].
  rewrite Hq.
  rewrite AnalysisFacts.analyse_chunks_spec by (rewrite ?Hchan, ?Z2Nat.id; lia).
  destruct (estimate_notes std_log2 (pitchDetector p) _) as [[notes pd']|f];
    cbn [bind]; [|reflexivity].
  destruct (most_common (tally notes (noteHistogram p)) 0 (mostCommonNote p));
    reflexivity.
Qed.

(** X30.  [detectPitch] never clears the histogram: a second analysis of
    the same region succeeds like the first, estimates the same notes
    (the detector carries nothing over from one frame to the next) and
    adds to every count what the first pass added, so that pressing
    Preview twice counts every chunk twice. *)
Theorem detectPitch_second_pass p p1 :
  let total := AudioBuffer.getNumSamples (trimmedBuffer p) in
  let startSample := sampleOffset (startPosition p) total in
  let endSample := sampleOffset (endPosition p) total in
  total <> 0 -> 0 <= startSample <= endSample -> endSample <= total ->
  detectPitch std_log2 p = Ok p1 ->
  exists p2,
    detectPitch std_log2 p1 = Ok p2
    /\ forall note,
         count_of (noteHistogram p2) note - count_of (noteHistogram p1) note
         = count_of (noteHistogram p1) note - count_of (noteHistogram p) note.
Proof.
  intros total startSample endSample Htotal Hwin Hend.
  pose proof (detectPitch_pass p Htotal Hwin Hend) as Hp. cbv zeta in Hp.
  rewrite Hp. clear Hp.
  fold total. fold startSample. fold endSample.
  set (chunks := map _ _).
  destruct (estimate_notes std_log2 (pitchDetector p) chunks) as [[notes pd']|f] eqn:E;
    [|discriminate].
  intros [= <-].
  match goal with |- context [detectPitch std_log2 ?q] =>
    pose proof (detectPitch_pass q Htotal Hwin Hend) as Hp end.
  cbv zeta in Hp. rewrite Hp. clear Hp.
  cbn [trimmedBuffer startPosition endPosition pitchDetector noteHistogram
       mostCommonNote set_mostCommonNote set_noteHistogram set_pitchDetector].
  fold total. fold startSample. fold endSample. fold chunks.
  assert (E2 : exists pd2, estimate_notes std_log2 pd' chunks = Ok (notes, pd2)).
  { destruct (pitchDetector p) as [pd|].
    - destruct (estimate_notes_again chunks pd pd notes pd' ltac:(repeat split) E)
        as (d1 & _ & -> & _ & _ & Hal).
      destruct (estimate_notes_again chunks pd d1 notes (Some d1) Hal E)
        as (_ & d2 & _ & E2 & _).
      eauto.
    - destruct chunks as [|chunk rest]; cbn [estimate_notes] in *; [|discriminate].
      injection E as <- <-. eauto. }
  destruct E2 as (pd2 & ->). eexists. split; [reflexivity|].
  intros note. cbn [noteHistogram set_mostCommonNote set_noteHistogram].
  rewrite !AnalysisFacts.tally_count. lia.
Qed.
End WithLog2.
End SecondPass.

(** ** The examples *)

Module FrameScenario.
Import Processor.

Lemma processBlock_passes_input_witness :
  snd (processBlock unit Scenario.render Scenario.fresh Scenario.silence tt)
  = Scenario.silence.
Proof.
  apply (ProcessorFrame.processBlock_passes_input unit Scenario.render Scenario.fresh
           Scenario.silence tt).
  - apply Z.leb_le. reflexivity.
  - left. reflexivity.
Defined.

Lemma processBlock_sampling_drops_input_witness :
  processBlock unit Scenario.render Examples.sampling (Scenario.block Float.one) tt
  = processBlock unit Scenario.render Examples.sampling (Scenario.block Float.zero) tt.
Proof.
  apply (ProcessorFrame.processBlock_sampling_drops_input unit Scenario.render
           Examples.sampling (Scenario.block Float.one) (Scenario.block Float.zero) tt);
    reflexivity.
Defined.

Lemma recording_is_never_resumed_witness :
  Runs.recording
    (fst (processBlock unit Scenario.render
            (prepareToPlay Examples.sampling Scenario.rate48k 64) Scenario.silence tt))
  = false.
Proof.
  apply (ProcessorFrame.recording_is_never_resumed Scenario.log2_unused unit
           Scenario.render Scenario.trimming).
  - eapply Runs.run_step; [apply Session.step_enterSamplerMode|].
    eapply Runs.run_step; [apply (Session.step_prepareToPlay _ _ _ _ Scenario.rate48k 64)|].
    eapply Runs.run_step; [apply (Session.step_processBlock _ _ _ _ Scenario.silence tt)|].
    apply Runs.run_done.
  - reflexivity.
Defined.

Lemma ring_stays_well_formed_witness :
  let p' := enterTrimMode
              (fst (processBlock unit Scenario.render Scenario.fresh Scenario.silence tt)) in
  CircularAudioBuffer.well_formed (circularBuffer p')
  /\ CircularAudioBuffer.size (circularBuffer p')
     = CircularAudioBuffer.size (circularBuffer Scenario.fresh).
Proof.
  apply (ProcessorFrame.ring_stays_well_formed Scenario.log2_unused unit Scenario.render
           Scenario.fresh).
  - eapply Runs.run_step; [apply (Session.step_processBlock _ _ _ _ Scenario.silence tt)|].
    eapply Runs.run_step; [apply Session.step_enterTrimMode|].
    apply Runs.run_done.
  - exact TrimScenario.fresh_ring_well_formed.
Defined.

Lemma preview_is_never_stopped_witness :
  (forall b p', Controls.buttonClicked Scenario.log2_unused Scenario.previewing b = Ok p' ->
                isPreviewActive p' = true)
  /\ (forall s value,
        isPreviewActive (Editor.sliderValueChanged Scenario.previewing s value) = true)
  /\ (forall buffer midi,
        isPreviewActive (fst (processBlock unit Scenario.render Scenario.previewing buffer midi))
        = true).
Proof.
  apply (ProcessorFrame.preview_is_never_stopped Scenario.log2_unused unit Scenario.render
           Scenario.previewing).
  rewrite PreviewScenario.previewing_eq. reflexivity.
Defined.



Lemma quiet_channel :
  AudioBuffer.channel (trimmedBuffer Examples.quiet) 0 = repeat Float.zero 4096.
Proof. reflexivity. Qed.

Lemma detectPitch_silent_region_witness :
  exists p',
    detectPitch Scenario.log2_unused Examples.quiet = Ok p'
    /\ noteHistogram p' = noteHistogram Examples.quiet
    /\ mostCommonNote p'
       = snd (most_common (noteHistogram Examples.quiet) 0 (mostCommonNote Examples.quiet))
    /\ (noteHistogram Examples.quiet = [] -> mostCommonNote p' = mostCommonNote Examples.quiet)
    /\ trimmedBuffer p' = trimmedBuffer Examples.quiet /\ state p' = state Examples.quiet.
Proof.
  apply (SilentRegion.detectPitch_silent_region Scenario.log2_unused Examples.quiet
           (PitchDetector.new Scenario.rate48k 480)).
  - reflexivity.
  - apply Z.leb_le. reflexivity.
  - apply Z.leb_le. reflexivity.
  - change (trimmedBuffer Examples.quiet) with (AudioBuffer.zeros 2 4096).
    vm_compute. discriminate.
  - change (trimmedBuffer Examples.quiet) with (AudioBuffer.zeros 2 4096).
    change (startPosition Examples.quiet) with Float.zero.
    change (endPosition Examples.quiet) with Float.one.
    vm_compute. split; discriminate.
  - change (trimmedBuffer Examples.quiet) with (AudioBuffer.zeros 2 4096).
    change (endPosition Examples.quiet) with Float.one.
    vm_compute. discriminate.
  - rewrite quiet_channel. apply Forall_forall. intros x Hx.
    apply repeat_spec in Hx. subst x. exists false. reflexivity.
Defined.

Lemma renderNextBlock_frame_witness :
  let v := Scenario.playing in
  let out := AudioBuffer.zeros 2 1024 in
  let v' := fst (Voice.renderNextBlock v out 8 600) in
  let out' := snd (Voice.renderNextBlock v out 8 600) in
  length out' = length out
  /\ (forall c, length (AudioBuffer.channel out' c) = length (AudioBuffer.channel out c))
  /\ (forall c k,
        (2 <= c)%nat \/ Z.of_nat k < 8 \/ 8 + Z.max 0 600 <= Z.of_nat k ->
        nth k (AudioBuffer.channel out' c) Float.zero
        = nth k (AudioBuffer.channel out c) Float.zero)
  /\ Voice.sampleBuffer v' = Voice.sampleBuffer v /\ Voice.rootNote v' = Voice.rootNote v
  /\ Voice.rate v' = Voice.rate v /\ Voice.level v' = Voice.level v.
Proof.
  apply (VoiceFrame.renderNextBlock_frame Scenario.playing (AudioBuffer.zeros 2 1024) 8 600).
  - apply TrimFacts.zeros_rectangular; lia.
  - lia.
  - rewrite TrimFacts.zeros_numSamples; lia.
Defined.

Lemma done_without_trimming_witness :
  let q := enterTrimMode Examples.small in
  state (enterSamplerMode q) = Sampling
  /\ Synthesiser.sounds (sampler (enterSamplerMode q))
     = [Buffered {| soundBuffer := trimmedBuffer q;
                    soundRootNote := mostCommonNote Examples.small |}]
  /\ Synthesiser.voices (sampler (enterSamplerMode q))
     = Synthesiser.voices (sampler Examples.small).
Proof.
  apply (RegionOffsets.done_without_trimming Examples.small).
  apply Z.ltb_lt. reflexivity.
Defined.

Lemma detectPitch_short_region_witness :
  exists p',
    detectPitch Scenario.log2_unused Scenario.trimming = Ok p'
    /\ noteHistogram p' = noteHistogram Scenario.trimming
    /\ pitchDetector p' = pitchDetector Scenario.trimming
    /\ (noteHistogram Scenario.trimming = [] ->
        mostCommonNote p' = mostCommonNote Scenario.trimming)
    /\ trimmedBuffer p' = trimmedBuffer Scenario.trimming.
Proof.
  apply (AnalysisEdges.detectPitch_short_region Scenario.log2_unused Scenario.trimming).
  change (trimmedBuffer Scenario.trimming) with Scenario.ramp.
  change (startPosition Scenario.trimming) with Float.zero.
  change (endPosition Scenario.trimming) with (Float.lit 1 1000).
  rewrite PreviewScenario.ramp_samples, PreviewScenario.region_start,
    PreviewScenario.region_end.
  lia.
Defined.

Lemma detectPitch_without_detector_witness :
  detectPitch Scenario.log2_unused Examples.constructed = Fault NullPointer
  /\ previewTrimmedSample Scenario.log2_unused Examples.constructed = Fault NullPointer.
Proof.
  apply (RegionOffsets.detectPitch_without_detector Scenario.log2_unused
           Examples.constructed).
  - reflexivity.
  - reflexivity.
  - reflexivity.
  - change (trimmedBuffer Examples.constructed)
      with (AudioBuffer.zeros 2 Processor.maxLength).
    rewrite TrimFacts.zeros_numSamples by (unfold maxLength; lia).
    unfold maxLength. lia.
Defined.

Lemma second_samples : AudioBuffer.getNumSamples (soundBuffer Scenario.second) = 48000.
Proof.
  change (soundBuffer Scenario.second) with (AudioBuffer.zeros 2 48000).
  apply TrimFacts.zeros_numSamples; lia.
Qed.

Lemma half_rate_never_advances_witness :
  let v := Examples.octaveBelow in
  let v' := fst (Voice.renderNextBlock v (AudioBuffer.zeros 2 480) 0 480) in
  Voice.sourceSamplePosition v' = Voice.sourceSamplePosition v
  /\ Voice.currentlyPlayingNote v' = Voice.currentlyPlayingNote v
  /\ Voice.tailOff v' = Voice.tailOff v.
Proof.
  apply (SustainedVoice.half_rate_never_advances Examples.octaveBelow
           (soundBuffer Scenario.second) (AudioBuffer.zeros 2 480) 0 480).
  - apply TrimFacts.zeros_rectangular; lia.
  - lia.
  - rewrite TrimFacts.zeros_numSamples; lia.
  - reflexivity.
  - reflexivity.
  - reflexivity.
  - rewrite second_samples. change (Voice.sourceSamplePosition Examples.octaveBelow) with 0.
    lia.
  - change (Voice.sourceSamplePosition Examples.octaveBelow) with 0. reflexivity.
Defined.

Lemma unit_rate_plays_through_witness :
  let v := Examples.atRoot in
  let buf := soundBuffer Scenario.second in
  let v' := fst (Voice.renderNextBlock v (AudioBuffer.zeros 2 480) 0 480) in
  (480 <= AudioBuffer.getNumSamples buf - Voice.sourceSamplePosition v ->
     Voice.sourceSamplePosition v' = Voice.sourceSamplePosition v + 480
     /\ Voice.currentlyPlayingNote v' = Voice.currentlyPlayingNote v)
  /\ (AudioBuffer.getNumSamples buf - Voice.sourceSamplePosition v < 480 ->
      Voice.sourceSamplePosition v' = AudioBuffer.getNumSamples buf
      /\ Voice.currentlyPlayingNote v' = -1).
Proof.
  apply (SustainedVoice.unit_rate_plays_through Examples.atRoot
           (soundBuffer Scenario.second) (AudioBuffer.zeros 2 480) 0 480).
  - apply TrimFacts.zeros_rectangular; lia.
  - lia.
  - rewrite TrimFacts.zeros_numSamples; lia.
  - reflexivity.
  - reflexivity.
  - reflexivity.
  - discriminate.
  - rewrite second_samples. change (Voice.sourceSamplePosition Examples.atRoot) with 0. lia.
  - rewrite second_samples. split; [lia | reflexivity].
  - lia.
Defined.
End FrameScenario.

Module ControlsScenario.
Import Processor String.

Lemma visible_buttons_lead_forward_witness :
  let p' := enterTrimMode (setBufferDuration Scenario.fresh (Float.of_int 10)) in
  (state p' = Trimming /\ startPosition p' = Float.zero
   /\ endPosition p' = Float.one /\ noteHistogram p' = [])
  /\ (forall c, Controls.visible Sampling c = true -> c = Controls.samplerInfoLabel).
Proof.
  apply (ControlsFacts.visible_buttons_lead_forward Scenario.log2_unused Scenario.fresh
           Controls.buffer10sButton
           (enterTrimMode (setBufferDuration Scenario.fresh (Float.of_int 10)))).
  - reflexivity.
  - reflexivity.
Defined.

Lemma pitch_label_names_a_note_witness :
  Controls.pitchText Examples.decimalName Scenario.fresh
  = String.append "Detected Pitch: "%string
      (Examples.decimalName (getMostCommonNote Scenario.fresh)).
Proof.
  apply (ControlsFacts.pitch_label_names_a_note Scenario.log2_unused unit Scenario.render
           Examples.decimalName Scenario.fresh).
  eapply Session.reachable_step.
  - apply Session.reachable_new.
  - apply Session.step_prepareToPlay.
Defined.
End ControlsScenario.

Module SecondPassScenario.
Import Processor Analysis.

Lemma quiet_region :
  let total := AudioBuffer.getNumSamples (trimmedBuffer Examples.quiet) in
  total = 4096
  /\ sampleOffset (startPosition Examples.quiet) total = 0
  /\ sampleOffset (endPosition Examples.quiet) total = 4096.
Proof.
  change (trimmedBuffer Examples.quiet) with (AudioBuffer.zeros 2 4096).
  change (startPosition Examples.quiet) with Float.zero.
  change (endPosition Examples.quiet) with Float.one.
  vm_compute. repeat split.
Qed.

Lemma detectPitch_second_pass_witness :
  exists p1 p2,
    detectPitch Scenario.log2_unused Examples.quiet = Ok p1
    /\ detectPitch Scenario.log2_unused p1 = Ok p2
    /\ forall note,
         count_of (noteHistogram p2) note - count_of (noteHistogram p1) note
         = count_of (noteHistogram p1) note - count_of (noteHistogram Examples.quiet) note.
Proof.
  destruct quiet_region as (Ht & Hs & He). cbv zeta in Ht, Hs, He.
  assert (E : exists p1, detectPitch Scenario.log2_unused Examples.quiet = Ok p1).
  { pose proof (SecondPass.detectPitch_pass Scenario.log2_unused Examples.quiet) as Hp.
    cbv zeta in Hp. rewrite Hp by (rewrite ?Hs, ?He, ?Ht; lia). clear Hp.
    change (pitchDetector Examples.quiet)
      with (Some (PitchDetector.new Scenario.rate48k 480)).
    match goal with |- context [estimate_notes _ _ ?chunks] =>
      destruct (SilentRegion.estimate_notes_silence Scenario.log2_unused chunks
                  (PitchDetector.new Scenario.rate48k 480)) as (pd' & ->) end.
    - apply Forall_forall. intros chunk Hin. apply in_map_iff in Hin.
      destruct Hin as (k & <- & Hk). apply in_seq in Hk.
      rewrite Hs, He in Hk. rewrite Hs. change (Z.to_nat ((4096 - 0) / 2048)) with 2%nat in Hk.
      change (AudioBuffer.channel (trimmedBuffer Examples.quiet) 0)
        with (repeat Float.zero 4096).
      split.
      + apply SilentRegion.slice_zeros. apply Forall_forall. intros x Hx.
        apply repeat_spec in Hx. subst x. exists false. reflexivity.
      + rewrite PreviewFacts.slice_length; rewrite ?repeat_length; lia.
    - apply Z.leb_le. reflexivity.
    - apply Z.leb_le. reflexivity.
    - eexists. reflexivity. }
  destruct E as (p1 & E). exists p1.
  destruct (SecondPass.detectPitch_second_pass Scenario.log2_unused Examples.quiet p1)
    as (p2 & E2 & Hc).
  - rewrite Ht. discriminate.
  - rewrite Hs, He. lia.
  - rewrite He, Ht. lia.
  - exact E.
  - exists p2. auto.
Defined.
End SecondPassScenario.
